(** * Verification of the dialogue dataset generator (datasetgeneration.py)

    A shallow embedding of the tolerant JSON parser, the generation client,
    the resume replay and the quota-driven main loop, followed by the
    properties of the specification that concern them. *)

From Stdlib Require Import ZArith NArith Ascii String Bool Lia.
From Stdlib Require Import DecimalString DecimalNat.
From stdpp Require Import base list gmap.

Set Default Proof Using "Type".
Local Open Scope nat_scope.

(* ===================================================================== *)
(** ** Python strings: sequences of Unicode code points *)
(* ===================================================================== *)

Definition str := list N.

(** An ASCII literal of the source as a Python string. *)
Definition u (s : string) : str := List.map N_of_ascii (list_ascii_of_string s).

(** The same, with each apostrophe of the literal standing for a double
    quote (code point 34). *)
Definition uq (s : string) : str :=
  List.map (fun c => if (c =? 39)%N then 34%N else c) (u s).

Fixpoint str_eqb (a b : str) : bool :=
  match a, b with
  | [], [] => true
  | x :: a', y :: b' => (x =? y)%N && str_eqb a' b'
  | _, _ => false
  end.

(** [str.isspace] for one character; this is also the class [\s] of [re]
    on [str] patterns. *)
Definition is_space (c : N) : bool :=
  ((9 <=? c) && (c <=? 13) || (28 <=? c) && (c <=? 32) || (c =? 133) || (c =? 160)
   || (c =? 5760) || (8192 <=? c) && (c <=? 8202) || (c =? 8232) || (c =? 8233)
   || (c =? 8239) || (c =? 8287) || (c =? 12288))%N.

Fixpoint lstrip (s : str) : str :=
  match s with
  | c :: t => if is_space c then lstrip t else s
  | [] => []
  end.

(** [text.strip()] *)
Definition strip (s : str) : str := rev (lstrip (rev (lstrip s))).

(** [text.find(c)] and [text.rfind(c)] for a one-character needle; [None]
    stands for Python's -1. *)
Fixpoint find_from (c : N) (s : str) (i : nat) : option nat :=
  match s with
  | [] => None
  | x :: t => if (x =? c)%N then Some i else find_from c t (S i)
  end.

Definition find (c : N) (s : str) : option nat := find_from c s 0.

Fixpoint rfind_from (c : N) (s : str) (i : nat) (last : option nat) : option nat :=
  match s with
  | [] => last
  | x :: t => rfind_from c t (S i) (if (x =? c)%N then Some i else last)
  end.

Definition rfind (c : N) (s : str) : option nat := rfind_from c s 0 None.

(** [text[a:b]] for [0 <= a <= b]. *)
Definition slice (a b : nat) (s : str) : str := take (b - a) (drop a s).

(* ===================================================================== *)
(** ** The fragment of [re] the script uses: a backtracking matcher *)
(* ===================================================================== *)

Module Re.

Inductive regex :=
| Eps
| Cls (p : N -> bool)      (* one character of a class *)
| Seq (r1 r2 : regex)
| Opt (r : regex)          (* r?  *)
| Star (r : regex)         (* r*  (greedy) *)
| LazyStar (r : regex)     (* r*? (lazy) *)
| Group (r : regex)        (* ( r ), capturing *)
| Eol.                     (* $ under re.MULTILINE *)

Definition chr (c : N) : regex := Cls (N.eqb c).
Definition any : regex := Cls (fun _ => true).                (* . under re.DOTALL *)
Definition any_but_nl : regex := Cls (fun c => negb (c =? 10)%N). (* . otherwise *)
Definition space : regex := Cls is_space.                     (* \s *)
Definition plus (r : regex) : regex := Seq r (Star r).        (* r+ *)

Fixpoint lit (s : str) : regex :=
  match s with
  | [] => Eps
  | c :: t => Seq (chr c) (lit t)
  end.

Fixpoint seqs (rs : list regex) : regex :=
  match rs with
  | [] => Eps
  | r :: t => Seq r (seqs t)
  end.

Section Matcher.
Context {R : Type}.

(** A continuation receives the unread suffix and the groups closed so far. *)
Definition cont := str -> list str -> option R.

Fixpoint iter_greedy (m : str -> list str -> cont -> option R) (fuel : nat)
    (s : str) (caps : list str) (k : cont) : option R :=
  match fuel with
  | O => k s caps
  | S fuel' =>
      match m s caps (fun s' caps' =>
               if length s' <? length s then iter_greedy m fuel' s' caps' k else None) with
      | Some r => Some r
      | None => k s caps
      end
  end.

Fixpoint iter_lazy (m : str -> list str -> cont -> option R) (fuel : nat)
    (s : str) (caps : list str) (k : cont) : option R :=
  match k s caps with
  | Some r => Some r
  | None =>
      match fuel with
      | O => None
      | S fuel' =>
          m s caps (fun s' caps' =>
            if length s' <? length s then iter_lazy m fuel' s' caps' k else None)
      end
  end.

Fixpoint match_re (r : regex) : str -> list str -> cont -> option R :=
  match r with
  | Eps => fun s caps k => k s caps
  | Cls p => fun s caps k =>
      match s with
      | c :: s' => if p c then k s' caps else None
      | [] => None
      end
  | Seq r1 r2 => fun s caps k =>
      match_re r1 s caps (fun s' caps' => match_re r2 s' caps' k)
  | Opt r1 => fun s caps k =>
      match match_re r1 s caps k with
      | Some x => Some x
      | None => k s caps
      end
  | Star r1 => fun s caps k => iter_greedy (match_re r1) (length s) s caps k
  | LazyStar r1 => fun s caps k => iter_lazy (match_re r1) (length s) s caps k
  | Group r1 => fun s caps k =>
      match_re r1 s caps (fun s' caps' =>
        k s' (caps' ++ [take (length s - length s') s]))
  | Eol => fun s caps k =>
      match s with
      | [] => k s caps
      | c :: _ => if (c =? 10)%N then k s caps else None
      end
  end.
End Matcher.

(** A match anchored at the head of [s]: the unread suffix and the groups. *)
Definition match_here (r : regex) (s : str) : option (str * list str) :=
  match_re r s [] (fun s' caps => Some (s', caps)).

Record found := { whole : str; groups : list str; after : str }.

(** [re.search]: the leftmost start position at which the pattern matches. *)
Fixpoint search (r : regex) (s : str) : option found :=
  match match_here r s with
  | Some (s', caps) =>
      Some {| whole := take (length s - length s') s; groups := caps; after := s' |}
  | None =>
      match s with
      | [] => None
      | _ :: t => search r t
      end
  end.

Definition group (n : nat) (m : found) : str :=
  match n with
  | O => whole m
  | S i => default [] (groups m !! i)
  end.

(** [re.sub]: every non-overlapping match, left to right, is replaced. *)
Fixpoint sub_aux (fuel : nat) (r : regex) (repl : list str -> str) (s : str) : str :=
  match fuel with
  | O => s
  | S fuel' =>
      match match_here r s with
      | Some (s', caps) =>
          if length s' <? length s then repl caps ++ sub_aux fuel' r repl s'
          else match s with
               | [] => repl caps
               | c :: t => repl caps ++ c :: sub_aux fuel' r repl t
               end
      | None =>
          match s with
          | [] => []
          | c :: t => c :: sub_aux fuel' r repl t
          end
      end
  end.

Definition sub (r : regex) (repl : list str -> str) (s : str) : str :=
  sub_aux (S (length s)) r repl s.

End Re.

(* ===================================================================== *)
(** ** JSON values, as [json.loads] builds them *)
(* ===================================================================== *)

#[warnings="-register-all"]
Inductive json :=
| JNull
| JBool (b : bool)
| JInt (z : Z)
| JFloat (lexeme : str)
| JStr (s : str)
| JList (l : list json)
| JDict (d : list (str * json)).

(** A Python [dict] with string keys: insertion ordered, keys unique. *)
Definition dict := list (str * json).

Fixpoint dict_get (k : str) (d : dict) : option json :=
  match d with
  | [] => None
  | (k', v) :: t => if str_eqb k' k then Some v else dict_get k t
  end.

(** [key in d] *)
Definition dict_has (k : str) (d : dict) : bool :=
  match dict_get k d with Some _ => true | None => false end.

(** [d[k] = v]: an existing key keeps its position, a new one goes last. *)
Fixpoint dict_set (k : str) (v : json) (d : dict) : dict :=
  match d with
  | [] => [(k, v)]
  | (k', v') :: t => if str_eqb k' k then (k, v) :: t else (k', v') :: dict_set k v t
  end.

(** [del d[k]] *)
Fixpoint dict_del (k : str) (d : dict) : dict :=
  match d with
  | [] => []
  | (k', v') :: t => if str_eqb k' k then t else (k', v') :: dict_del k t
  end.

(** [d.get(k, dflt)] *)
Definition dict_get_default (k : str) (dflt : json) (d : dict) : json :=
  default dflt (dict_get k d).

(** The number a run of decimal digits writes. *)
Definition decimal (digits : str) : Z :=
  fold_left (fun acc c => (acc * 10 + (Z.of_N c - 48))%Z) digits 0%Z.

(** [float(lexeme) == 0.0] for the lexeme of a JSON number with a fraction
    or an exponent ([NaN], [Infinity] and [-Infinity] included).  The
    conversion rounds to the nearest double, ties to even: the decimal
    [m * 10 ^ e] becomes zero exactly when it is at most [2 ^ -1075], half
    of the least positive double.  (A decimal of [n] digits with
    [e < - n - 400] is below that bound; the test is not computed for
    it.) *)
Definition float_is_zero (lexeme : str) : bool :=
  let body := match lexeme with
              | c :: t => if (c =? 45)%N then t else lexeme
              | [] => []
              end in
  match body with
  | c :: _ =>
      if ((48 <=? c) && (c <=? 57))%N then
        let cut := match find 101 body with Some i => Some i | None => find 69 body end in
        let mantissa := take (default (length body) cut) body in
        let exponent := match cut with Some i => drop (S i) body | None => [] end in
        let '(int_digits, frac_digits) :=
          match find 46 mantissa with
          | Some i => (take i mantissa, drop (S i) mantissa)
          | None => (mantissa, [])
          end in
        let exponent :=
          match exponent with
          | x :: t => if (x =? 45)%N then (- decimal t)%Z
                      else if (x =? 43)%N then decimal t else decimal exponent
          | [] => 0%Z
          end in
        let m := decimal (int_digits ++ frac_digits) in
        let e := (exponent - Z.of_nat (length frac_digits))%Z in
        if (m =? 0)%Z then true
        else if (e <? 0)%Z then
          if (Z.of_nat (length (int_digits ++ frac_digits)) + 400 <? - e)%Z then true
          else (m * 2 ^ 1075 <=? 10 ^ (- e))%Z
        else false
      else false
  | [] => false
  end.

(** Python truth value of a decoded JSON value. *)
Definition truthy (j : json) : bool :=
  match j with
  | JNull => false
  | JBool b => b
  | JInt z => negb (z =? 0)%Z
  | JFloat l => negb (float_is_zero l)
  | JStr s => negb (bool_decide (s = []))
  | JList l => match l with [] => false | _ => true end
  | JDict d => match d with [] => false | _ => true end
  end.

(** Outcome of a Python call: a value, or a raised exception. *)
Inductive exn :=
| JSONDecodeError | TypeError | AttributeError | IndexError | UnicodeEncodeError
| OtherError.

Inductive py (A : Type) :=
| Return (a : A)
| Raise (e : exn).
Arguments Return {A} a.
Arguments Raise {A} e.

(* ===================================================================== *)
(** ** A model of the library decoder [json.loads]

    The decoder is library code.  The properties of the parser that hold for
    every decoder are stated over an arbitrary [loads]; this executable model
    of the decoder's grammar evaluates the script on concrete texts. *)
(* ===================================================================== *)

Module JsonDecoder.

Local Open Scope N_scope.

Definition is_json_ws (c : N) : bool := (c =? 32) || (c =? 9) || (c =? 10) || (c =? 13).

Fixpoint skip_ws (s : str) : str :=
  match s with
  | c :: t => if is_json_ws c then skip_ws t else s
  | [] => []
  end.

Definition is_digit (c : N) : bool := (48 <=? c) && (c <=? 57).

Definition hex_val (c : N) : option N :=
  if is_digit c then Some (c - 48)
  else if (97 <=? c) && (c <=? 102) then Some (c - 87)
  else if (65 <=? c) && (c <=? 70) then Some (c - 55)
  else None.

Definition hex4 (s : str) : option (N * str) :=
  match s with
  | a :: b :: c :: d :: t =>
      match hex_val a, hex_val b, hex_val c, hex_val d with
      | Some x, Some y, Some z, Some w => Some (((x * 16 + y) * 16 + z) * 16 + w, t)
      | _, _, _, _ => None
      end
  | _ => None
  end.

(** The escape after a backslash: the decoded character and the rest. *)
Definition unescape (e : N) (t : str) : option (N * str) :=
  if (e =? 34) || (e =? 92) || (e =? 47) then Some (e, t)
  else if e =? 98 then Some (8, t)
  else if e =? 102 then Some (12, t)
  else if e =? 110 then Some (10, t)
  else if e =? 114 then Some (13, t)
  else if e =? 116 then Some (9, t)
  else if e =? 117 then
    match hex4 t with
    | Some (uni, t1) =>
        if (55296 <=? uni) && (uni <=? 56319) then
          match t1 with
          | 92 :: 117 :: t2 =>
              match hex4 t2 with
              | Some (uni2, t3) =>
                  if (56320 <=? uni2) && (uni2 <=? 57343)
                  then Some (65536 + ((uni - 55296) * 1024 + (uni2 - 56320)), t3)
                  else Some (uni, t1)
              | None => None
              end
          | _ => Some (uni, t1)
          end
        else Some (uni, t1)
    | None => None
    end
  else None.

(** The body of a string literal, after its opening quote. *)
Fixpoint scan_string (fuel : nat) (s acc : str) : option (str * str) :=
  match fuel with
  | O => None
  | S fuel' =>
      match s with
      | [] => None
      | c :: t =>
          if c =? 34 then Some (rev acc, t)
          else if c =? 92 then
            match t with
            | e :: t' =>
                match unescape e t' with
                | Some (x, t'') => scan_string fuel' t'' (x :: acc)
                | None => None
                end
            | [] => None
            end
          else if c <? 32 then None
          else scan_string fuel' t (c :: acc)
      end
  end.

Fixpoint span_digits (s : str) : str * str :=
  match s with
  | c :: t => if is_digit c then let '(d, r) := span_digits t in (c :: d, r) else ([], s)
  | [] => ([], [])
  end.

Definition digits_value (d : str) : Z :=
  fold_left (fun acc c => (acc * 10 + Z.of_N (c - 48))%Z) d 0%Z.

(** The integer part: an optional minus sign, then 0 or a digit string
    without leading zero. *)
Definition scan_int (s : str) : option (str * str) :=
  let '(sign, s1) := match s with
                     | c :: t => if c =? 45 then ([45], t) else ([], s)
                     | [] => ([], s)
                     end in
  match s1 with
  | c :: t =>
      if c =? 48 then Some (sign ++ [48], t)
      else if is_digit c then let '(d, r) := span_digits s1 in Some (sign ++ d, r)
      else None
  | [] => None
  end.

Definition scan_frac (s : str) : str * str :=
  match s with
  | c :: t =>
      if c =? 46 then
        match span_digits t with
        | ([], _) => ([], s)
        | (d, r) => (46 :: d, r)
        end
      else ([], s)
  | [] => ([], s)
  end.

Definition scan_exp (s : str) : str * str :=
  match s with
  | c :: t =>
      if (c =? 101) || (c =? 69) then
        let '(sg, t1) := match t with
                         | x :: t' => if (x =? 45) || (x =? 43) then ([x], t') else ([], t)
                         | [] => ([], t)
                         end in
        match span_digits t1 with
        | ([], _) => ([], s)
        | (d, r) => (c :: sg ++ d, r)
        end
      else ([], s)
  | [] => ([], s)
  end.

Definition int_of_lexeme (l : str) : Z :=
  match l with
  | c :: t => if c =? 45 then (- digits_value t)%Z else digits_value l
  | [] => 0%Z
  end.

Fixpoint starts_with (p s : str) : option str :=
  match p, s with
  | [], _ => Some s
  | a :: p', b :: s' => if a =? b then starts_with p' s' else None
  | _ :: _, [] => None
  end.

Definition scan_number (s : str) : option (json * str) :=
  match scan_int s with
  | Some (i, r) =>
      let '(f, r1) := scan_frac r in
      let '(e, r2) := scan_exp r1 in
      match f, e with
      | [], [] => Some (JInt (int_of_lexeme i), r2)
      | _, _ => Some (JFloat (i ++ f ++ e), r2)
      end
  | None =>
      match starts_with (u "NaN") s, starts_with (u "Infinity") s,
            starts_with (u "-Infinity") s with
      | Some r, _, _ => Some (JFloat (u "NaN"), r)
      | _, Some r, _ => Some (JFloat (u "Infinity"), r)
      | _, _, Some r => Some (JFloat (u "-Infinity"), r)
      | _, _, _ => None
      end
  end.

Section Containers.
Variable scan_once : str -> option (json * str).

(** The members of an object, from its first key's opening quote on. *)
Fixpoint members (fuel : nat) (s : str) (acc : dict) : option (json * str) :=
  match fuel with
  | O => None
  | S fuel' =>
      match s with
      | c :: t =>
          if c =? 34 then
            match scan_string (S (length t)) t [] with
            | Some (key, r) =>
                match skip_ws r with
                | c1 :: r1 =>
                    if c1 =? 58 then
                      match scan_once (skip_ws r1) with
                      | Some (v, r2) =>
                          let acc' := dict_set key v acc in
                          match skip_ws r2 with
                          | c2 :: r3 =>
                              if c2 =? 125 then Some (JDict acc', r3)
                              else if c2 =? 44 then members fuel' (skip_ws r3) acc'
                              else None
                          | [] => None
                          end
                      | None => None
                      end
                    else None
                | [] => None
                end
            | None => None
            end
          else None
      | [] => None
      end
  end.

(** The elements of an array, from its first element on. *)
Fixpoint elements (fuel : nat) (s : str) (acc : list json) : option (json * str) :=
  match fuel with
  | O => None
  | S fuel' =>
      match scan_once s with
      | Some (v, r) =>
          match skip_ws r with
          | c :: r1 =>
              if c =? 93 then Some (JList (rev (v :: acc)), r1)
              else if c =? 44 then elements fuel' (skip_ws r1) (v :: acc)
              else None
          | [] => None
          end
      | None => None
      end
  end.
End Containers.

(** One value at the head of [s] (no leading white space). *)
Fixpoint scan_value (fuel : nat) (s : str) : option (json * str) :=
  match fuel with
  | O => None
  | S fuel' =>
      match s with
      | [] => None
      | c :: t =>
          if c =? 34 then
            match scan_string (S (length t)) t [] with
            | Some (x, r) => Some (JStr x, r)
            | None => None
            end
          else if c =? 123 then
            match skip_ws t with
            | c1 :: r1 =>
                if c1 =? 125 then Some (JDict [], r1)
                else members (scan_value fuel') (S (length t)) (c1 :: r1) []
            | [] => None
            end
          else if c =? 91 then
            match skip_ws t with
            | c1 :: r1 =>
                if c1 =? 93 then Some (JList [], r1)
                else elements (scan_value fuel') (S (length t)) (c1 :: r1) []
            | [] => None
            end
          else
            match starts_with (u "null") s, starts_with (u "true") s,
                  starts_with (u "false") s with
            | Some r, _, _ => Some (JNull, r)
            | _, Some r, _ => Some (JBool true, r)
            | _, _, Some r => Some (JBool false, r)
            | _, _, _ => scan_number s
            end
      end
  end.

(** [json.loads(s)] for a [str]: one value, white space around it, nothing
    else; anything else raises [JSONDecodeError]. *)
Definition json_loads (s : str) : py json :=
  match s with
  | 65279 :: _ => Raise JSONDecodeError
  | _ =>
      match scan_value (S (length s)) (skip_ws s) with
      | Some (v, r) =>
          match skip_ws r with
          | [] => Return v
          | _ :: _ => Raise JSONDecodeError
          end
      | None => Raise JSONDecodeError
      end
  end.

End JsonDecoder.

(* ===================================================================== *)
(** ** Exceptions: sequencing and [try] / [except] *)
(* ===================================================================== *)

#[global] Instance py_ret : MRet py := fun A a => Return a.

#[global] Instance py_bind : MBind py := fun A B f m =>
  match m with
  | Return a => f a
  | Raise e => Raise e
  end.

(** [try: body  except: handler] with a handler that catches everything. *)
Definition try_except {A : Type} (body : py A) (handler : exn -> py A) : py A :=
  match body with
  | Return a => Return a
  | Raise e => handler e
  end.

(* ===================================================================== *)
(** ** The tolerant parser: [clean_json_text] and [safe_parse_json] *)
(* ===================================================================== *)

Import Re.

Definition not_in (cs : list N) : regex := Cls (fun c => negb (existsb (N.eqb c) cs)).
Definition one_of (cs : list N) : regex := Cls (fun c => existsb (N.eqb c) cs).

(** The six patterns of [clean_json_text], in the order of their use. *)
Definition re_control : regex := plus (Cls (fun c => (c <=? 31)%N)).
Definition re_trailing_comma : regex :=
  seqs [chr 44; Star space; Group (one_of [125; 93])]%N.
Definition re_quoted_key : regex :=
  seqs [chr 39; Group (Star (not_in [39])); chr 39; chr 58]%N.
Definition re_quoted_value : regex :=
  seqs [chr 58; Star space; chr 39; Group (Star (not_in [39])); chr 39]%N.
Definition re_line_comment : regex :=
  seqs [lit (u "//"); LazyStar any_but_nl; Eol].
Definition re_block_comment : regex :=
  seqs [lit (u "/*"); LazyStar any; lit (u "*/")].

Definition clean_json_text (json_text : str) : str :=
  (* Remove control characters *)
  let json_text := sub re_control (fun _ => []) json_text in
  (* Remove trailing commas before closing braces/brackets *)
  let json_text := sub re_trailing_comma (fun g => default [] (g !! 0)) json_text in
  (* Single quotes to double quotes: keys, then string values *)
  let json_text :=
    sub re_quoted_key (fun g => [34%N] ++ default [] (g !! 0) ++ [34; 58]%N) json_text in
  let json_text :=
    sub re_quoted_value (fun g => [58; 32; 34]%N ++ default [] (g !! 0) ++ [34%N]) json_text in
  (* Remove comments *)
  let json_text := sub re_line_comment (fun _ => []) json_text in
  let json_text := sub re_block_comment (fun _ => []) json_text in
  json_text.

(** Strategy 1: fenced code blocks. *)
Definition fenced_object : regex := Group (seqs [chr 123; LazyStar any; chr 125]%N).

Definition code_block_patterns : list regex :=
  [ seqs [lit (u "```"); Opt (lit (u "json")); Star space; fenced_object;
          Star space; lit (u "```")];
    seqs [lit (u "```"); Star space; fenced_object; Star space; lit (u "```")] ].

(** Strategy 3: an object with at most one level of nested braces. *)
Definition flat_object : regex :=
  seqs [chr 123; Star (not_in [123; 125]);
        Star (seqs [chr 123; Star (not_in [123; 125]); chr 125; Star (not_in [123; 125])]);
        chr 125]%N.

(** The brace counting loop of strategy 2, started at index [i] on the
    suffix [s] of the text: the final [brace_count] and [end]. *)
Fixpoint scan_braces (s : str) (i : nat) (brace_count : Z) (end_ : nat) : Z * nat :=
  match s with
  | [] => (brace_count, end_)
  | c :: t =>
      if (c =? 123)%N then scan_braces t (S i) (brace_count + 1)%Z end_
      else if (c =? 125)%N then
        let brace_count := (brace_count - 1)%Z in
        if (brace_count =? 0)%Z then (brace_count, i)
        else scan_braces t (S i) brace_count end_
      else scan_braces t (S i) brace_count end_
  end.

Section Parser.
(** The decoder: any function from texts to a value or an exception. *)
Variable loads : str -> py json.

(** [json_text = clean_json_text(json_text); return json.loads(json_text)] *)
Definition clean_and_load (json_text : str) : py (option json) :=
  v ← loads (clean_json_text json_text); Return (Some v).

Fixpoint strategy1 (patterns : list regex) (text : str)
    (otherwise : py (option json)) : py (option json) :=
  match patterns with
  | [] => otherwise
  | pattern :: rest =>
      match search pattern text with
      | Some m =>
          try_except (clean_and_load (group 1 m))
                     (fun _ => strategy1 rest text otherwise)
      | None => strategy1 rest text otherwise
      end
  end.

Definition strategy2 (text : str) (otherwise : py (option json)) : py (option json) :=
  match find 123 text with
  | Some start =>
      let '(brace_count, end_) := scan_braces (drop start text) start 0%Z start in
      if (brace_count =? 0)%Z && (start <? end_) then
        try_except (clean_and_load (slice start (end_ + 1) text)) (fun _ => otherwise)
      else otherwise
  | None => otherwise
  end.

Definition strategy3 (text : str) (otherwise : py (option json)) : py (option json) :=
  match search flat_object text with
  | Some json_match =>
      try_except (clean_and_load (group 0 json_match)) (fun _ => otherwise)
  | None => otherwise
  end.

Definition strategy4 (text : str) (otherwise : py (option json)) : py (option json) :=
  match find 123 text, rfind 125 text with
  | Some start, Some end_ =>
      if start <? end_ then
        try_except (clean_and_load (slice start (end_ + 1) text)) (fun _ => otherwise)
      else otherwise
  | _, _ => otherwise
  end.

Definition safe_parse_json (text : str) : py (option json) :=
  match text with
  | [] => Return None
  | _ =>
      let text := strip text in
      strategy1 code_block_patterns text
        (strategy2 text
           (strategy3 text
              (strategy4 text
                 (Return None))))
  end.
End Parser.

(* ===================================================================== *)
(** ** Configuration *)
(* ===================================================================== *)

(** [CURRENT_LANGUAGE], after the validation at start-up. *)
Inductive language := hindi | english | code_mixed.

(** [COMPLEXITY_LEVELS] *)
Inductive complexity := layman | intermediate | professional.

(** The keys of [BUCKETS]. *)
Inductive bucket := A | B | C | D.

Definition language_name (l : language) : str :=
  match l with
  | hindi => u "hindi"
  | english => u "english"
  | code_mixed => u "code_mixed"
  end.

Definition complexity_name (c : complexity) : str :=
  match c with
  | layman => u "layman"
  | intermediate => u "intermediate"
  | professional => u "professional"
  end.

Definition bucket_name (b : bucket) : str :=
  match b with
  | A => u "A"
  | B => u "B"
  | C => u "C"
  | D => u "D"
  end.

Definition COMPLEXITY_LEVELS : list complexity := [layman; intermediate; professional].
Definition BUCKET_KEYS : list bucket := [A; B; C; D].

Definition BUCKETS (b : bucket) : nat * nat :=
  match b with
  | A => (2, 3)
  | B => (3, 4)
  | C => (4, 5)
  | D => (5, 6)
  end.

Definition SAMPLES_PER_LANGUAGE : nat := 400.
Definition TARGET_SAMPLES : nat := SAMPLES_PER_LANGUAGE.

Abbreviation cell := (language * complexity * bucket)%type.

Definition DISTRIBUTION : list (cell * nat) :=
  [ ((hindi, layman, A), 33); ((hindi, layman, B), 33);
    ((hindi, layman, C), 34); ((hindi, layman, D), 33);
    ((hindi, intermediate, A), 34); ((hindi, intermediate, B), 33);
    ((hindi, intermediate, C), 33); ((hindi, intermediate, D), 33);
    ((hindi, professional, A), 33); ((hindi, professional, B), 34);
    ((hindi, professional, C), 33); ((hindi, professional, D), 33);
    ((english, layman, A), 33); ((english, layman, B), 34);
    ((english, layman, C), 33); ((english, layman, D), 33);
    ((english, intermediate, A), 33); ((english, intermediate, B), 33);
    ((english, intermediate, C), 34); ((english, intermediate, D), 33);
    ((english, professional, A), 34); ((english, professional, B), 33);
    ((english, professional, C), 33); ((english, professional, D), 34);
    ((code_mixed, layman, A), 34); ((code_mixed, layman, B), 33);
    ((code_mixed, layman, C), 33); ((code_mixed, layman, D), 33);
    ((code_mixed, intermediate, A), 33); ((code_mixed, intermediate, B), 33);
    ((code_mixed, intermediate, C), 33); ((code_mixed, intermediate, D), 34);
    ((code_mixed, professional, A), 33); ((code_mixed, professional, B), 34);
    ((code_mixed, professional, C), 34); ((code_mixed, professional, D), 33) ].

(** Case indices (0-based) reserved for a language: start and end (excluded). *)
Definition CASE_RANGES (l : language) : nat * nat :=
  match l with
  | hindi => (0, 400)
  | english => (400, 800)
  | code_mixed => (800, 1200)
  end.

#[global] Instance language_eq_dec : EqDecision language.
Proof. solve_decision. Defined.
#[global] Instance complexity_eq_dec : EqDecision complexity.
Proof. solve_decision. Defined.
#[global] Instance bucket_eq_dec : EqDecision bucket.
Proof. solve_decision. Defined.

#[global] Instance language_countable : Countable language.
Proof.
  refine (inj_countable'
            (fun l => match l with hindi => 0 | english => 1 | code_mixed => 2 end)
            (fun n => match n with 0 => hindi | 1 => english | _ => code_mixed end) _).
  intros []; reflexivity.
Defined.
#[global] Instance complexity_countable : Countable complexity.
Proof.
  refine (inj_countable'
            (fun c => match c with layman => 0 | intermediate => 1 | professional => 2 end)
            (fun n => match n with 0 => layman | 1 => intermediate | _ => professional end) _).
  intros []; reflexivity.
Defined.
#[global] Instance bucket_countable : Countable bucket.
Proof.
  refine (inj_countable'
            (fun b => match b with A => 0 | B => 1 | C => 2 | D => 3 end)
            (fun n => match n with 0 => A | 1 => B | 2 => C | _ => D end) _).
  intros []; reflexivity.
Defined.

(** [DISTRIBUTION_FILTERED]: the rows of the current language, in order. *)
Definition DISTRIBUTION_FILTERED (lang : language) : list (cell * nat) :=
  List.filter (fun row => bool_decide (row.1.1.1 = lang)) DISTRIBUTION.

(** [random.randint(lo, hi)] as a function of the generator's draw. *)
Definition randint (lo hi : nat) (draw : nat) : nat := lo + draw mod (hi - lo + 1).

(* ===================================================================== *)
(** ** Dialogue identifiers *)
(* ===================================================================== *)

Fixpoint pad_zeros (k : nat) (d : Decimal.uint) : Decimal.uint :=
  match k with
  | O => d
  | S k' => Decimal.D0 (pad_zeros k' d)
  end.

(** The format [{n:0Wd}] of a non-negative integer. *)
Definition fmt_d (width n : nat) : str :=
  let d := Nat.to_uint n in
  u (NilEmpty.string_of_uint (pad_zeros (width - Decimal.nb_digits d) d)).

Definition lang_prefix (l : language) : str :=
  match l with
  | hindi => u "HN"
  | english => u "EN"
  | code_mixed => u "CM"
  end.

(** [f"{lang_prefix}_{bucket_key}_C{case_id:04d}_{idx:03d}"] *)
Definition dialogue_id_of (l : language) (b : bucket) (case_id idx : nat) : str :=
  lang_prefix l ++ u "_" ++ bucket_name b ++ u "_C" ++ fmt_d 4 case_id
    ++ u "_" ++ fmt_d 3 idx.

(* ===================================================================== *)
(** ** The fallback record *)
(* ===================================================================== *)

Definition fallback_messages (l : language) : str * str :=
  match l with
  | hindi =>
      ([2325; 2371; 2346; 2351; 2366; 32; 2350; 2369; 2333; 2375; 32; 2311; 2360; 32;
        2350; 2366; 2350; 2354; 2375; 32; 2325; 2375; 32; 2348; 2366; 2352; 2375; 32;
        2350; 2375; 2306; 32; 2332; 2366; 2344; 2325; 2366; 2352; 2368; 32; 2342; 2375;
        2306; 2404]%N,
       [2350; 2376; 2306; 32; 2310; 2346; 2325; 2368; 32; 2360; 2361; 2366; 2351; 2340;
        2366; 32; 2325; 2352; 2344; 2375; 32; 2325; 2375; 32; 2354; 2367; 2319; 32; 2351;
        2361; 2366; 2305; 32; 2361; 2370; 2305; 2404; 32; 2325; 2371; 2346; 2351; 2366;
        32; 2309; 2346; 2344; 2375; 32; 2346; 2381; 2352; 2358; 2381; 2344; 32; 2346;
        2370; 2331; 2375; 2306; 2404]%N)
  | english =>
      (u "Please provide me information about this case.",
       u "I am here to help you. Please ask your questions.")
  | code_mixed =>
      (u "Please mujhe is case ke bare me information dijiye.",
       u "Main aapki help karne ke liye yahan hoon. Apne questions puchiye.")
  end.

Definition turn_of (role text : str) : json :=
  JDict [(u "role", JStr role); (u "text", JStr text)].

(** [lst * n] *)
Fixpoint list_times {X : Type} (l : list X) (n : nat) : list X :=
  match n with
  | O => []
  | S n' => l ++ list_times l n'
  end.

Definition create_fallback_dialogue (turns : nat) (c : complexity) (bucket_key : bucket)
    (idx : nat) (l : language) (case_id : nat) : dict :=
  let dialogue_id := dialogue_id_of l bucket_key case_id idx in
  let msg := fallback_messages l in
  [ (u "dialogue_id", JStr dialogue_id);
    (u "language", JStr (language_name l));
    (u "complexity", JStr (complexity_name c));
    (u "turn_count", JInt (Z.of_nat turns));
    (u "turns", JList (list_times [turn_of (u "user") msg.1;
                                   turn_of (u "assistant") msg.2] turns));
    (u "statutes_cited", JList []) ].

(* ===================================================================== *)
(** ** The generation client *)
(* ===================================================================== *)

(** What one request to the endpoint comes to. *)
Inductive api_response :=
| RequestFailed                 (* requests.exceptions.RequestException *)
| OtherFailure                  (* any other exception inside the try block *)
| NoChoices                     (* no non-empty choices list in the envelope *)
| Content (content : option str). (* the content of the first choice; None is null *)

(** The loop over [range(max_retries + 1)]: the text returned, and the
    attempts for which a request was posted. *)
Fixpoint openrouter_loop (endpoint : nat -> api_response) (max_retries : nat)
    (attempts : list nat) (posted : list nat) : option str * list nat :=
  match attempts with
  | [] => (None, posted)
  | attempt :: rest =>
      let posted := posted ++ [attempt] in
      match endpoint attempt with
      | Content (Some (c :: cs)) => (Some (c :: cs), posted)
      | Content _ =>
          (* empty content: retry, or leave the loop after the last attempt *)
          openrouter_loop endpoint max_retries rest posted
      | NoChoices | RequestFailed | OtherFailure =>
          if attempt <? max_retries
          then openrouter_loop endpoint max_retries rest posted
          else (None, posted)
      end
  end.

(** [generate_via_openrouter(prompt, max_retries=2)]; [None] for
    [max_retries] is a call that leaves the argument out. *)
Definition generate_via_openrouter (endpoint : nat -> api_response)
    (max_retries : option nat) : option str * list nat :=
  let max_retries := default 2 max_retries in
  openrouter_loop endpoint max_retries (seq 0 (max_retries + 1)) [].

(* ===================================================================== *)
(** ** [generate_dialogue] *)
(* ===================================================================== *)

(** [len(x)] on a decoded value. *)
Definition py_len (j : json) : py nat :=
  match j with
  | JStr s => Return (length s)
  | JList l => Return (length l)
  | JDict d => Return (length d)
  | _ => Raise TypeError
  end.

(** The items a [for] loop over a decoded value visits. *)
Definition py_iter (j : json) : list json :=
  match j with
  | JList l => l
  | JStr s => List.map (fun c => JStr [c]) s
  | JDict d => List.map (fun kv => JStr kv.1) d
  | _ => []
  end.

Definition is_valid_turn (turn : json) : bool :=
  match turn with
  | JDict t =>
      dict_has (u "role") t && dict_has (u "text") t &&
      match dict_get (u "role") t with
      | Some (JStr r) => str_eqb r (u "user") || str_eqb r (u "assistant")
      | _ => false
      end
  | _ => false
  end.

(** The required fields, defaulted when the decoded output lacks them. *)
Definition with_defaults (data : dict) : dict :=
  let data := if dict_has (u "turns") data then data
              else dict_set (u "turns") (JList []) data in
  let data := if dict_has (u "statutes_cited") data then data
              else dict_set (u "statutes_cited") (JList []) data in
  data.

(** [safety_notes] and [case_summary] are removed if present. *)
Definition without_extras (data : dict) : dict :=
  let data := if dict_has (u "safety_notes") data
              then dict_del (u "safety_notes") data else data in
  let data := if dict_has (u "case_summary") data
              then dict_del (u "case_summary") data else data in
  data.

(** The five assignments that follow. *)
Definition stamped (data : dict) (turns : nat) (bucket_key : bucket) (idx : nat)
    (c : complexity) (l : language) (case_id : nat) : dict :=
  let data := dict_set (u "dialogue_id")
                (JStr (dialogue_id_of l bucket_key case_id idx)) data in
  let data := dict_set (u "language")
                (dict_get_default (u "language") (JStr (language_name l)) data) data in
  let data := dict_set (u "complexity")
                (dict_get_default (u "complexity") (JStr (complexity_name c)) data) data in
  let data := dict_set (u "turn_count")
                (dict_get_default (u "turn_count") (JInt (Z.of_nat turns)) data) data in
  let data := dict_set (u "bucket") (JStr (bucket_name bucket_key)) data in
  data.

Section Generate.
Variable loads : str -> py json.

(** The branch taken when the decoded output is a non-empty mapping. *)
Definition finish_parsed (data : dict) (turns : nat) (bucket_key : bucket) (idx : nat)
    (c : complexity) (l : language) (case_id : nat) : py (option dict) :=
  let data := stamped (without_extras (with_defaults data)) turns bucket_key idx c l case_id in
  (* Validate that we have at least some turns *)
  let the_turns := dict_get_default (u "turns") JNull data in
  if negb (truthy the_turns) then Return None
  else
    n ← py_len the_turns;
    if n =? 0 then Return None
    else
      (* Validate turn structure *)
      let valid_turns := List.filter is_valid_turn (py_iter the_turns) in
      if length valid_turns =? 0 then Return None
      else Return (Some (dict_set (u "turns") (JList valid_turns) data)).

(** [turns] is the exchange count drawn by [random.randint]; the prompt
    built from the case summary only reaches the endpoint, whose answers
    are given by [endpoint]. *)
Definition generate_dialogue (turns : nat) (endpoint : nat -> api_response)
    (bucket_key : bucket) (idx : nat) (c : complexity) (l : language) (case_id : nat)
    : py (option dict) :=
  match (generate_via_openrouter endpoint None).1 with
  | None => Return None
  | Some output =>
      data ← safe_parse_json loads output;
      match data with
      | Some (JDict d) =>
          if truthy (JDict d) then finish_parsed d turns bucket_key idx c l case_id
          else Return (Some (create_fallback_dialogue turns c bucket_key idx l case_id))
      | _ => Return (Some (create_fallback_dialogue turns c bucket_key idx l case_id))
      end
  end.
End Generate.

(* ===================================================================== *)
(** ** The output file and the resume replay *)
(* ===================================================================== *)

(** A line of the output file as the replay sees it: blank after
    [strip()], not decodable, or a JSON document. *)
Inductive line :=
| Blank
| Garbage
| Doc (obj : json).

(** The text [json.dumps(result, ensure_ascii=False)] makes of a value
    holds the characters of its strings as they are.  [f.write] encodes it
    as UTF-8, which has no encoding for a surrogate code point (U+D800 to
    U+DFFF). *)
Definition is_surrogate (c : N) : bool := ((55296 <=? c) && (c <=? 57343))%N.

Definition str_encodable (s : str) : bool := forallb (fun c => negb (is_surrogate c)) s.

Fixpoint encodable (j : json) : bool :=
  match j with
  | JStr s => str_encodable s
  | JList l => forallb encodable l
  | JDict d => forallb (fun kv => let '(k, v) := kv in str_encodable k && encodable v) d
  | _ => true
  end.

(** What [f.write] leaves in the buffer of the open file. *)
Inductive piece :=
| Dumped (result : dict)        (* json.dumps(result, ensure_ascii=False) *)
| Newline.

(** The lines a buffer holds once it is on disk.  Two records on one line
    do not decode. *)
Fixpoint lines_of (p : list piece) (cur : list dict) : list line :=
  match p with
  | [] => match cur with
          | [] => []
          | [r] => [Doc (JDict r)]
          | _ => [Garbage]
          end
  | Dumped r :: t => lines_of t (cur ++ [r])
  | Newline :: t =>
      match cur with
      | [] => Blank
      | [r] => Doc (JDict r)
      | _ => Garbage
      end :: lines_of t []
  end.

Definition count_of (counts : gmap cell nat) (k : cell) : nat := default 0 (counts !! k).

(** [sum(distribution_counts.get((CURRENT_LANGUAGE, c, b), 0)
         for c in COMPLEXITY_LEVELS for b in BUCKETS.keys())] *)
Definition lang_total (lang : language) (counts : gmap cell nat) : nat :=
  list_sum (c ← COMPLEXITY_LEVELS; b ← BUCKET_KEYS; [count_of counts (lang, c, b)]).

(** [comp in COMPLEXITY_LEVELS] *)
Definition complexity_of_json (j : json) : option complexity :=
  List.find (fun c => match j with
                      | JStr s => str_eqb s (complexity_name c)
                      | _ => false
                      end) COMPLEXITY_LEVELS.

(** [buck in BUCKETS]: a list or a mapping cannot be hashed. *)
Definition bucket_of_json (j : json) : py (option bucket) :=
  match j with
  | JList _ | JDict _ => Raise TypeError
  | JStr s => Return (List.find (fun b => str_eqb s (bucket_name b)) BUCKET_KEYS)
  | _ => Return None
  end.

(** [isinstance(cid, int)]: a JSON integer, or a boolean. *)
Definition as_int (j : json) : option Z :=
  match j with
  | JInt z => Some z
  | JBool b => Some (if b then 1 else 0)%Z
  | _ => None
  end.

Record progress := {
  p_counts : gmap cell nat;       (* distribution_counts *)
  p_existing_total : nat;         (* existing_total *)
  p_max_case_id_seen : Z          (* max_case_id_seen *)
}.

(** The body of [for line in rf]. *)
Definition replay_line (lang : language) (ln : line) (p : progress) : py progress :=
  match ln with
  | Blank => Return p
  | Garbage =>
      Return {| p_counts := p_counts p; p_existing_total := p_existing_total p + 1;
                p_max_case_id_seen := p_max_case_id_seen p |}
  | Doc obj =>
      let existing_total := p_existing_total p + 1 in
      match obj with
      | JDict d =>
          let comp := dict_get_default (u "complexity") JNull d in
          let buck := dict_get_default (u "bucket") JNull d in
          counts ←
            match complexity_of_json comp with
            | Some c =>
                ob ← bucket_of_json buck;
                match ob with
                | Some b =>
                    let key := (lang, c, b) in
                    match p_counts p !! key with
                    | Some n => Return (<[key := n + 1]> (p_counts p))
                    | None => Return (p_counts p)
                    end
                | None => Return (p_counts p)
                end
            | None => Return (p_counts p)
            end;
          let cid := dict_get_default (u "case_id") JNull d in
          let max_case_id_seen :=
            match as_int cid with
            | Some z => if (p_max_case_id_seen p <? z)%Z then z else p_max_case_id_seen p
            | None => p_max_case_id_seen p
            end in
          Return {| p_counts := counts; p_existing_total := existing_total;
                    p_max_case_id_seen := max_case_id_seen |}
      | _ => Raise AttributeError             (* obj.get on a non-mapping *)
      end
  end.

(** The loop over the lines.  An exception leaves the loop with the counts
    as the lines before it have left them. *)
Fixpoint replay_lines (lang : language) (lines : list line) (p : progress)
    : progress * option exn :=
  match lines with
  | [] => (p, None)
  | ln :: rest =>
      match replay_line lang ln p with
      | Return p' => replay_lines lang rest p'
      | Raise e => (p, Some e)
      end
  end.

(** [distribution_counts = {key: 0 for key in DISTRIBUTION_FILTERED.keys()}] *)
Definition initial_counts (lang : language) : gmap cell nat :=
  list_to_map (List.map (fun row => (row.1, 0)) (DISTRIBUTION_FILTERED lang)).

(* ===================================================================== *)
(** ** The scheduler state and the main loop *)
(* ===================================================================== *)

Record state := {
  distribution_counts : gmap cell nat;
  case_index : nat;                  (* case_indices[CURRENT_LANGUAGE] *)
  total_generated : nat;
  dataset : list dict;
  pending : list piece;              (* written to f, not yet flushed *)
  disk : list line;                  (* the output file on stable storage: the lines
                                        found at start-up, then what was appended *)
  joined : option nat;               (* the position of the line found without a line
                                        break at its end, after which the file was
                                        opened for appending *)
  uncaught : option exn              (* the exception that ended the program *)
}.

(** Everything from the creation of [distribution_counts] to the first test
    of the [while] loop, for an output file holding the lines [file] (no
    file, or an empty one, is the empty list); [unterminated] tells that the
    last of them has no line break at its end. *)
Definition startup_from (lang : language) (file : list line) (unterminated : bool) : state :=
  let case_start := (CASE_RANGES lang).1 in
  let resume_existing := match file with [] => false | _ :: _ => true end in
  let '(counts, next_case_idx, resume_existing) :=
    if resume_existing then
      match replay_lines lang file
              {| p_counts := initial_counts lang; p_existing_total := 0;
                 p_max_case_id_seen := 0 |} with
      | (p, None) =>
          let next_case_idx := Z.to_nat (p_max_case_id_seen p) in
          let next_case_idx := if next_case_idx <? case_start then case_start
                               else next_case_idx in
          (p_counts p, next_case_idx, true)
      | (p, Some _) =>
          (* Resume read failed, starting fresh *)
          (p_counts p, case_start, false)
      end
    else (initial_counts lang, case_start, false) in
  {| distribution_counts := counts;
     case_index := next_case_idx;
     total_generated := lang_total lang counts;
     dataset := [];
     pending := [];
     (* file_mode: append when resuming, truncate otherwise *)
     disk := if resume_existing then file else [];
     joined := if resume_existing && unterminated then Some (length file - 1) else None;
     uncaught := None |}.

(** The start on a file whose last line ends with a line break. *)
Definition startup (lang : language) (file : list line) : state :=
  startup_from lang file false.

(** What the environment contributes to one iteration of the loop. *)
Record iteration_input := {
  rand_case : nat;                        (* the draw of the case index *)
  rand_turns : nat -> nat;                (* per attempt: the draw of the exchange count *)
  endpoint : nat -> nat -> api_response   (* per attempt, per request: the answer *)
}.

(** The first combination that needs more dialogues. *)
Definition next_combo (lang : language) (counts : gmap cell nat) : option cell :=
  fst <$> List.find (fun row => count_of counts row.1 <? row.2) (DISTRIBUTION_FILTERED lang).

(** [try: x = body  except Exception: x = dflt] *)
Definition caught {X : Type} (body : py X) (dflt : X) : X :=
  match body with
  | Return x => x
  | Raise _ => dflt
  end.

(** [if result:] *)
Definition result_truthy (result : option dict) : bool :=
  match result with
  | Some d => truthy (JDict d)
  | None => false
  end.

(** The statements of the success branch, in program order. *)
Definition op_append (result : dict) (s : state) : state :=
  {| distribution_counts := distribution_counts s; case_index := case_index s;
     total_generated := total_generated s; dataset := dataset s ++ [result];
     pending := pending s; disk := disk s; joined := joined s; uncaught := uncaught s |}.

Definition op_inc_count (combo : cell) (s : state) : state :=
  {| distribution_counts :=
       <[combo := count_of (distribution_counts s) combo + 1]> (distribution_counts s);
     case_index := case_index s; total_generated := total_generated s;
     dataset := dataset s; pending := pending s; disk := disk s;
     joined := joined s; uncaught := uncaught s |}.

Definition op_inc_total (s : state) : state :=
  {| distribution_counts := distribution_counts s; case_index := case_index s;
     total_generated := total_generated s + 1; dataset := dataset s;
     pending := pending s; disk := disk s; joined := joined s; uncaught := uncaught s |}.

(** An exception that no handler catches leaves the [with] block, which
    closes the file (what is in the buffer goes to disk), and ends the
    program. *)
Definition op_raise (e : exn) (s : state) : state :=
  {| distribution_counts := distribution_counts s; case_index := case_index s;
     total_generated := total_generated s; dataset := dataset s;
     pending := []; disk := disk s ++ lines_of (pending s) [];
     joined := joined s; uncaught := Some e |}.

(** [f.write(x)]: the text is encoded when it is written, and goes to the
    buffer; a text that cannot be encoded raises. *)
Definition op_buffer (x : piece) (s : state) : state :=
  {| distribution_counts := distribution_counts s; case_index := case_index s;
     total_generated := total_generated s; dataset := dataset s;
     pending := pending s ++ [x]; disk := disk s;
     joined := joined s; uncaught := uncaught s |}.

Definition op_write (x : piece) (s : state) : state :=
  if match x with
     | Dumped result => encodable (JDict result)
     | Newline => true
     end
  then op_buffer x s
  else op_raise UnicodeEncodeError s.

(** [f.flush()]: the buffered text is appended to the file.  The file was
    opened without writing a line break first: where it ended without one
    ([joined]), the first line appended here continues its old last line;
    [file_lines] gives the lines as a later replay finds them. *)
Definition op_flush (s : state) : state :=
  {| distribution_counts := distribution_counts s; case_index := case_index s;
     total_generated := total_generated s; dataset := dataset s;
     pending := []; disk := disk s ++ lines_of (pending s) [];
     joined := joined s; uncaught := uncaught s |}.

(** The overwrite of the four scheduled fields. *)
Definition finalize (lang : language) (c : complexity) (b : bucket) (case_number : nat)
    (result : dict) : dict :=
  let result := dict_set (u "language") (JStr (language_name lang)) result in
  let result := dict_set (u "complexity") (JStr (complexity_name c)) result in
  let result := dict_set (u "bucket") (JStr (bucket_name b)) result in
  let result := dict_set (u "case_id") (JInt (Z.of_nat case_number)) result in
  result.

Definition success_ops (combo : cell) (result : dict) : list (state -> state) :=
  [ op_append result;
    op_inc_count combo;
    op_inc_total;
    op_write (Dumped result);
    op_write Newline;
    op_flush ].

(** The statements run in order; after an exception the rest is skipped. *)
Definition run_ops (ops : list (state -> state)) (s : state) : state :=
  fold_left (fun s op => match uncaught s with
                         | None => op s
                         | Some _ => s
                         end) ops s.

Section Loop.
Variable loads : str -> py json.
Variable lang : language.          (* CURRENT_LANGUAGE *)
Variable CASES : list str.

(** [for attempt in range(3)]: the value of [result] after the loop. *)
Fixpoint try_attempts (attempts : list nat) (input : iteration_input) (case_idx : nat)
    (b : bucket) (idx : nat) (c : complexity) (case_number : nat) (result : option dict)
    : option dict :=
  match attempts with
  | [] => result
  | attempt :: rest =>
      let result :=
        caught (match CASES !! case_idx with
                | Some _ =>
                    generate_dialogue loads
                      (randint (BUCKETS b).1 (BUCKETS b).2 (rand_turns input attempt))
                      (endpoint input attempt) b idx c lang case_number
                | None => Raise IndexError
                end) None in
      if result_truthy result then result
      else try_attempts rest input case_idx b idx c case_number result
  end.

(** One iteration of [while total_generated < TARGET_SAMPLES]; [None]
    when the loop is left, and when the program has already ended. *)
Definition loop_step (input : iteration_input) (s : state) : option state :=
  if bool_decide (uncaught s = None) && (total_generated s <? TARGET_SAMPLES) then
    match next_combo lang (distribution_counts s) with
    | None => None
    | Some (l, c, b) =>
        let '(case_start, case_end) := CASE_RANGES lang in
        let case_idx := case_index s in
        let '(case_idx, s) :=
          if case_end <=? case_idx
          then (randint case_start (case_end - 1) (rand_case input), s)
          else (case_idx,
                {| distribution_counts := distribution_counts s;
                   case_index := case_index s + 1;
                   total_generated := total_generated s; dataset := dataset s;
                   pending := pending s; disk := disk s;
                   joined := joined s; uncaught := uncaught s |}) in
        let case_number := case_idx + 1 in
        let result :=
          try_attempts (seq 0 3) input case_idx b (total_generated s + 1) c
                       case_number None in
        if result_truthy result then
          match result with
          | Some result =>
              Some (run_ops (success_ops (l, c, b) (finalize lang c b case_number result)) s)
          | None => Some s
          end
        else Some s
    end
  else None.

(** The loop, fed with the environment's inputs iteration by iteration. *)
Fixpoint run (inputs : list iteration_input) (s : state) : state :=
  match inputs with
  | [] => s
  | input :: rest =>
      match loop_step input s with
      | Some s' => run rest s'
      | None => s
      end
  end.

(** The loop has been left: the [while] test fails, or [break]. *)
Definition finished (s : state) : bool :=
  negb (total_generated s <? TARGET_SAMPLES)
  || bool_decide (next_combo lang (distribution_counts s) = None).
End Loop.

(* ===================================================================== *)
(** ** Notions used by the statements *)
(* ===================================================================== *)

(** The values [len] is defined on: strings, lists and mappings. *)
Definition sized (j : json) : bool :=
  match j with
  | JStr _ | JList _ | JDict _ => true
  | _ => false
  end.

(** The case index an iteration works on. *)
Definition scheduled_case_idx (lang : language) (input : iteration_input) (s : state) : nat :=
  let '(case_start, case_end) := CASE_RANGES lang in
  if case_end <=? case_index s
  then randint case_start (case_end - 1) (rand_case input)
  else case_index s.

(** No count is above its target. *)
Definition within_targets (lang : language) (counts : gmap cell nat) : Prop :=
  Forall (fun row => count_of counts row.1 <= row.2) (DISTRIBUTION_FILTERED lang).

(** Every count is exactly its target. *)
Definition all_targets_met (lang : language) (counts : gmap cell nat) : Prop :=
  Forall (fun row => count_of counts row.1 = row.2) (DISTRIBUTION_FILTERED lang).

(** A persisted line that decodes to a record of the cell (complexity,
    bucket). *)
Definition matches_cell (c : complexity) (b : bucket) (ln : line) : bool :=
  match ln with
  | Doc (JDict d) =>
      match dict_get (u "complexity") d, dict_get (u "bucket") d with
      | Some (JStr x), Some (JStr y) =>
          str_eqb x (complexity_name c) && str_eqb y (bucket_name b)
      | _, _ => false
      end
  | _ => false
  end.

Definition persisted_count (c : complexity) (b : bucket) (file : list line) : nat :=
  length (List.filter (matches_cell c b) file).

(** The replay reads the whole file without an exception. *)
Definition replay_completes (lang : language) (file : list line) : Prop :=
  (replay_lines lang file {| p_counts := initial_counts lang; p_existing_total := 0;
                             p_max_case_id_seen := 0 |}).2 = None.

(** The [dialogue_id] of a persisted line. *)
Definition line_dialogue_id (ln : line) : option json :=
  match ln with
  | Doc (JDict d) => dict_get (u "dialogue_id") d
  | _ => None
  end.

(** The lines a later replay finds in the file: the first text appended
    after a line without a line break is on that line.  What the program
    appends is a sequence of JSON objects, each followed by a line break;
    glued to a text that is not blank it does not decode. *)
Definition glued (last appended : line) : line :=
  match last, appended with
  | Blank, _ => appended
  | _, Blank => last
  | _, _ => Garbage
  end.

Definition file_lines (s : state) : list line :=
  match joined s with
  | Some k =>
      match disk s !! k, disk s !! S k with
      | Some last, Some appended =>
          take k (disk s) ++ glued last appended :: drop (S (S k)) (disk s)
      | _, _ => disk s
      end
  | None => disk s
  end.

(** States the program is in between two iterations: a fresh start on no
    file, completed iterations of the main loop, and a restart of the
    process on the file written so far. *)
Inductive reachable (loads : str -> py json) (lang : language) : state -> Prop :=
| reach_fresh : reachable loads lang (startup lang [])
| reach_step CASES input s s' :
    reachable loads lang s ->
    loop_step loads lang CASES input s = Some s' ->
    uncaught s' = None ->
    reachable loads lang s'
| reach_resume s :
    reachable loads lang s ->
    reachable loads lang (startup lang (disk s)).

(** An endpoint that fails every request, and one that always answers. *)
Definition always_failing : nat -> api_response := fun _ => RequestFailed.
Definition always (text : str) : nat -> api_response := fun _ => Content (Some text).

(** An iteration whose first attempt is answered with [text]. *)
Definition answered (text : str) : iteration_input :=
  {| rand_case := 0; rand_turns := fun _ => 0; endpoint := fun _ => always text |}.

(** An iteration that draws [n] for the case index and whose first attempt
    is answered with [text], and one whose requests all fail. *)
Definition answered_at (n : nat) (text : str) : iteration_input :=
  {| rand_case := n; rand_turns := fun _ => 0; endpoint := fun _ => always text |}.

Definition unanswered : iteration_input :=
  {| rand_case := 0; rand_turns := fun _ => 0; endpoint := fun _ => always_failing |}.

(** A persisted record with only the fields the replay reads. *)
Definition bare_record (c : complexity) (b : bucket) : line :=
  Doc (JDict [(u "complexity", JStr (complexity_name c));
              (u "bucket", JStr (bucket_name b))]).


(** A result of the parser: no result, or a value the decoder returned for
    some cleaned text. *)
Definition parsed_or_none (loads : str -> py json) (m : py (option json)) : Prop :=
  exists r, m = Return r /\
    (r = None \/ exists t v, r = Some v /\ loads (clean_json_text t) = Return v).

(** A file in which the line at position i (from 0) is a record of some
    cell whose dialogue_id carries the running index i + 1. *)
Definition well_numbered (lang : language) (file : list line) : Prop :=
  forall i ln, file !! i = Some ln ->
    exists r c b b' case_id,
      ln = Doc (JDict r) /\
      dict_get (u "dialogue_id") r = Some (JStr (dialogue_id_of lang b' case_id (i + 1))) /\
      dict_get (u "complexity") r = Some (JStr (complexity_name c)) /\
      dict_get (u "bucket") r = Some (JStr (bucket_name b)).

(** The file and the counters agree between two iterations: nothing is in
    the buffer, the total is the number of lines, and the lines are
    numbered. *)
Definition consistent (lang : language) (s : state) : Prop :=
  pending s = [] /\ total_generated s = length (disk s) /\ well_numbered lang (disk s).

(** The state once the case index has been picked: the pointer advances
    unless the range of the language is used up. *)
Definition after_pick (lang : language) (s : state) : state :=
  if (CASE_RANGES lang).2 <=? case_index s then s
  else {| distribution_counts := distribution_counts s;
          case_index := case_index s + 1;
          total_generated := total_generated s; dataset := dataset s;
          pending := pending s; disk := disk s;
          joined := joined s; uncaught := uncaught s |}.

(* ===================================================================== *)
(** ** The case file *)
(* ===================================================================== *)

(** [s.startswith(p)] *)
Fixpoint starts_with (p s : str) : bool :=
  match p, s with
  | [], _ => true
  | x :: p', y :: s' => (x =? y)%N && starts_with p' s'
  | _ :: _, [] => false
  end.

(** [s.split(sep)] for a non-empty [sep], scanning from the left: [cur]
    holds the current piece in reverse, [skip] the characters of a
    separator just found that are still to pass. *)
Fixpoint split_go (sep : str) (skip : nat) (cur : str) (s : str) : list str :=
  match s with
  | [] => [rev cur]
  | c :: t =>
      match skip with
      | S k => split_go sep k cur t
      | 0 =>
          if starts_with sep s then rev cur :: split_go sep (length sep - 1) [] t
          else split_go sep 0 (c :: cur) t
      end
  end.

Definition split (sep : str) (s : str) : list str := split_go sep 0 [] s.

(** [s.split(c, 1)] for a one-character separator: the text before the
    first [c] and, when there is one, the text after it. *)
Fixpoint split_once (c : N) (s : str) : str * option str :=
  match s with
  | [] => ([], None)
  | x :: t =>
      if (x =? c)%N then ([], Some t)
      else let '(h, r) := split_once c t in (x :: h, r)
  end.

(** The body of the loop over the pieces: what one piece appends to
    [CASES]. *)
Definition load_case (case_text : str) : list str :=
  match strip case_text with
  | [] => []
  | _ :: _ =>
      match split_once 10 case_text with
      | (_, Some rest) =>
          let case_content := strip rest in
          if 100 <? length case_content then [case_content] else []
      | (_, None) => []
      end
  end.

(** [CASES], from the content of the case file. *)
Definition load_cases (content : str) : list str :=
  case_text ← drop 1 (split (u "[case ") content); load_case case_text.

(** A block of the case file: the marker, the rest of the header line, a
    line break and the body. *)
Definition case_block (hb : str * str) : str :=
  u "[case " ++ hb.1 ++ 10%N :: hb.2.

(** The first and the last character of a text. *)
Definition first_char (s : str) : option N := head s.
Definition last_char (s : str) : option N := last s.

(* ===================================================================== *)
(** ** Further notions used in the statements *)
(* ===================================================================== *)

(** The continuation of a successful match was fed a suffix of the text and
    the old groups followed by new ones cut out of the text. *)
Definition sound {R : Type} (m : str -> list str -> @Re.cont R -> option R) : Prop :=
  forall s caps k res, m s caps k = Some res ->
    exists s' new, k s' (caps ++ new) = Some res /\ s' `suffix_of` s
                   /\ Forall (fun cap => cap ⊆ s) new.

(** A regex that matches only texts holding a character of the class [P]. *)
Inductive needs (P : N -> bool) : Re.regex -> Prop :=
| needs_cls p : (forall x, p x = true -> P x = true) -> needs P (Re.Cls p)
| needs_seq_l r1 r2 : needs P r1 -> needs P (Re.Seq r1 r2)
| needs_seq_r r1 r2 : needs P r2 -> needs P (Re.Seq r1 r2)
| needs_group r : needs P r -> needs P (Re.Group r).

(** The characters [clean_json_text] reacts to: control characters, the
    apostrophe and the slash. *)
Definition is_control (c : N) : bool := (c <=? 31)%N.
Definition cleanup_trigger (c : N) : bool :=
  is_control c || (c =? 39)%N || (c =? 47)%N.

(** No comma is followed, after optional white space, by a closing brace or
    bracket. *)
Definition no_trailing_comma (s : str) : Prop :=
  forall pre ws c post,
    s = pre ++ 44%N :: ws ++ c :: post -> Forall (fun x => is_space x = true) ws ->
    c <> 125%N /\ c <> 93%N.

(** The endpoint answers attempt [a] with a non-empty content. *)
Definition answers_text (ep : nat -> api_response) (a : nat) : bool :=
  match ep a with
  | Content (Some (_ :: _)) => true
  | _ => false
  end.

(** The role of a turn. *)
Definition turn_role (turn : json) : option json :=
  match turn with
  | JDict t => dict_get (u "role") t
  | _ => None
  end.

(** An iteration whose first request is answered with a non-empty text
    that holds no opening brace. *)
Definition cooperative (input : iteration_input) : Prop :=
  exists text, endpoint input 0 0 = Content (Some text) /\ text <> []
               /\ Forall (fun x => (x =? 123)%N = false) text.

(** A decoded value that is no mapping. *)
Definition not_a_mapping (j : json) : Prop :=
  match j with
  | JDict _ => False
  | _ => True
  end.

(** Texts whose braces are balanced. *)
Inductive nested : str -> Prop :=
| nested_nil : nested []
| nested_char c s : c <> 123%N -> c <> 125%N -> nested s -> nested (c :: s)
| nested_braces a b : nested a -> nested b -> nested (123%N :: a ++ 125%N :: b).

(* ===================================================================== *)
(** * Properties *)
(* ===================================================================== *)

(** ** Strings and dictionaries *)

Lemma str_eqb_eq (a b : str) : str_eqb a b = true <-> a = b.
Proof.
  revert b. induction a as [|x a IH]; intros [|y b]; simpl; try (split; congruence).
  rewrite andb_true_iff, N.eqb_eq, IH. split; [intros [-> ->]; done | intros [= -> ->]; done].
Qed.

Lemma str_eqb_refl (a : str) : str_eqb a a = true.
Proof. by apply str_eqb_eq. Qed.

Lemma str_eqb_ne (a b : str) : a <> b -> str_eqb a b = false.
Proof. intros H. destruct (str_eqb a b) eqn:E; [|done]. by apply str_eqb_eq in E. Qed.

Lemma dict_get_set_eq (k : str) (v : json) (d : dict) :
  dict_get k (dict_set k v d) = Some v.
Proof.
  induction d as [|[k' v'] d IH]; simpl.
  - by rewrite str_eqb_refl.
  - destruct (str_eqb k' k) eqn:E; simpl.
    + by rewrite str_eqb_refl.
    + by rewrite E.
Qed.

Lemma dict_get_set_ne (k k' : str) (v : json) (d : dict) :
  k <> k' -> dict_get k' (dict_set k v d) = dict_get k' d.
Proof.
  intros Hne. induction d as [|[k0 v0] d IH]; simpl.
  - by rewrite str_eqb_ne.
  - destruct (str_eqb k0 k) eqn:E; simpl.
    + apply str_eqb_eq in E as ->. by rewrite !str_eqb_ne.
    + by rewrite IH.
Qed.

Lemma dict_get_del_ne (k k' : str) (d : dict) :
  k <> k' -> dict_get k' (dict_del k d) = dict_get k' d.
Proof.
  intros Hne. induction d as [|[k0 v0] d IH]; simpl; [done|].
  destruct (str_eqb k0 k) eqn:E; simpl.
  - apply str_eqb_eq in E as ->. by rewrite str_eqb_ne.
  - by rewrite IH.
Qed.

(** Two distinct literal keys. *)
Ltac key_ne := let H := fresh in intro H; vm_compute in H; discriminate H.

Ltac dict_simpl :=
  repeat first
    [ rewrite dict_get_set_eq
    | rewrite dict_get_set_ne by key_ne
    | rewrite dict_get_del_ne by key_ne ].

Lemma with_defaults_other (k : str) (data : dict) :
  k <> u "turns" -> k <> u "statutes_cited" ->
  dict_get k (with_defaults data) = dict_get k data.
Proof.
  intros H1 H2. unfold with_defaults.
  destruct (dict_has (u "turns") data);
    destruct (dict_has (u "statutes_cited") _);
    rewrite ?dict_get_set_ne by congruence; done.
Qed.

Lemma with_defaults_turns (data : dict) :
  dict_get (u "turns") (with_defaults data)
  = Some (dict_get_default (u "turns") (JList []) data).
Proof.
  unfold with_defaults, dict_get_default, dict_has.
  destruct (dict_get (u "turns") data) as [v|] eqn:E; simpl.
  - destruct (dict_get (u "statutes_cited") data); dict_simpl; by rewrite E.
  - destruct (dict_get (u "statutes_cited") (dict_set _ _ data)); by dict_simpl.
Qed.

Lemma without_extras_other (k : str) (data : dict) :
  k <> u "safety_notes" -> k <> u "case_summary" ->
  dict_get k (without_extras data) = dict_get k data.
Proof.
  intros H1 H2. unfold without_extras.
  destruct (dict_has (u "safety_notes") data);
    destruct (dict_has (u "case_summary") _);
    rewrite ?dict_get_del_ne by congruence; done.
Qed.

Lemma stamped_dialogue_id data turns b idx c l case_id :
  dict_get (u "dialogue_id") (stamped data turns b idx c l case_id)
  = Some (JStr (dialogue_id_of l b case_id idx)).
Proof. unfold stamped. by dict_simpl. Qed.

Lemma stamped_turn_count data turns b idx c l case_id :
  dict_get (u "turn_count") (stamped data turns b idx c l case_id)
  = Some (dict_get_default (u "turn_count") (JInt (Z.of_nat turns)) data).
Proof. unfold stamped, dict_get_default. by dict_simpl. Qed.

Lemma stamped_turns data turns b idx c l case_id :
  dict_get (u "turns") (stamped data turns b idx c l case_id) = dict_get (u "turns") data.
Proof. unfold stamped. by dict_simpl. Qed.

Lemma finalize_fields lang c b n (r : dict) :
  dict_get (u "language") (finalize lang c b n r) = Some (JStr (language_name lang))
  /\ dict_get (u "complexity") (finalize lang c b n r) = Some (JStr (complexity_name c))
  /\ dict_get (u "bucket") (finalize lang c b n r) = Some (JStr (bucket_name b))
  /\ dict_get (u "case_id") (finalize lang c b n r) = Some (JInt (Z.of_nat n)).
Proof. unfold finalize. repeat split; by dict_simpl. Qed.

Lemma finalize_other (k : str) lang c b n (r : dict) :
  k <> u "language" -> k <> u "complexity" -> k <> u "bucket" -> k <> u "case_id" ->
  dict_get k (finalize lang c b n r) = dict_get k r.
Proof.
  intros. unfold finalize. rewrite !dict_get_set_ne by congruence. done.
Qed.

(** What [finish_parsed] returns when it returns a record. *)
Lemma finish_parsed_some data turns b idx c l case_id r :
  finish_parsed data turns b idx c l case_id = Return (Some r) ->
  exists valid_turns,
    valid_turns <> [] /\
    r = dict_set (u "turns") (JList valid_turns)
          (stamped (without_extras (with_defaults data)) turns b idx c l case_id).
Proof.
  unfold finish_parsed. intros H.
  destruct (negb (truthy _)); [discriminate|].
  destruct (py_len _) as [n|e]; simpl in H; [|discriminate].
  destruct (n =? 0); [discriminate|].
  destruct (List.filter _ _) as [|t ts] eqn:E; simpl in H; [discriminate|].
  injection H as <-. by exists (t :: ts).
Qed.

(** ** [generate_dialogue] and the attempts of one iteration *)

Lemma generate_dialogue_some loads turns ep b idx c l case_id r :
  generate_dialogue loads turns ep b idx c l case_id = Return (Some r) ->
  r = create_fallback_dialogue turns c b idx l case_id
  \/ exists data, data <> [] /\ finish_parsed data turns b idx c l case_id = Return (Some r).
Proof.
  unfold generate_dialogue. intros H.
  destruct (generate_via_openrouter ep None).1 as [output|]; [|discriminate].
  destruct (safe_parse_json loads output) as [data|e]; simpl in H; [|discriminate].
  destruct data as [[| | | | | |d]|]; try (left; congruence).
  destruct d as [|kv d]; simpl in H; [left; congruence|].
  right. exists (kv :: d). split; [discriminate|done].
Qed.

Lemma generate_dialogue_id loads turns ep b idx c l case_id r :
  generate_dialogue loads turns ep b idx c l case_id = Return (Some r) ->
  dict_get (u "dialogue_id") r = Some (JStr (dialogue_id_of l b case_id idx)).
Proof.
  intros [->|(data & _ & H)]%generate_dialogue_some; [done|].
  apply finish_parsed_some in H as (vt & _ & ->).
  rewrite dict_get_set_ne by key_ne. apply stamped_dialogue_id.
Qed.

Lemma try_attempts_some loads lang CASES attempts input case_idx b idx c case_number r0 r :
  result_truthy r0 = false ->
  try_attempts loads lang CASES attempts input case_idx b idx c case_number r0 = Some r ->
  result_truthy (Some r) = true ->
  exists attempt,
    In attempt attempts /\
    generate_dialogue loads (randint (BUCKETS b).1 (BUCKETS b).2 (rand_turns input attempt))
      (endpoint input attempt) b idx c lang case_number = Return (Some r).
Proof.
  revert r0. induction attempts as [|a attempts IH]; intros r0 H0 H Ht; simpl in H.
  - subst r0. congruence.
  - set (res := caught _ None) in H.
    destruct (result_truthy res) eqn:E.
    + exists a. split; [by left|].
      subst res. destruct (CASES !! case_idx); [|simpl in H; discriminate].
      destruct (generate_dialogue _ _ _ _ _ _ _ _) as [x|e]; simpl in H; congruence.
    + destruct (IH res E H Ht) as (a' & Hin & Hg). exists a'. split; [by right|done].
Qed.

Lemma loop_step_unfold loads lang CASES input s :
  loop_step loads lang CASES input s =
  if bool_decide (uncaught s = None) && (total_generated s <? TARGET_SAMPLES) then
    match next_combo lang (distribution_counts s) with
    | None => None
    | Some (l, c, b) =>
        let case_number := scheduled_case_idx lang input s + 1 in
        let result :=
          try_attempts loads lang CASES (seq 0 3) input (scheduled_case_idx lang input s) b
            (total_generated s + 1) c case_number None in
        if result_truthy result then
          match result with
          | Some result =>
              Some (run_ops (success_ops (l, c, b) (finalize lang c b case_number result))
                            (after_pick lang s))
          | None => Some (after_pick lang s)
          end
        else Some (after_pick lang s)
    end
  else None.
Proof.
  unfold loop_step, scheduled_case_idx, after_pick.
  destruct (bool_decide (uncaught s = None) && (total_generated s <? TARGET_SAMPLES)); [|done].
  destruct (next_combo lang (distribution_counts s)) as [[[l c] b]|]; [|done].
  destruct (CASE_RANGES lang) as [case_start case_end]. cbn [fst snd].
  destruct (case_end <=? case_index s); reflexivity.
Qed.

Lemma loop_step_alive loads lang CASES input s s' :
  loop_step loads lang CASES input s = Some s' -> uncaught s = None.
Proof.
  rewrite loop_step_unfold. destruct (bool_decide (uncaught s = None)) eqn:E; [|discriminate].
  intros _. by apply bool_decide_eq_true in E.
Qed.

Lemma loop_step_cases loads lang CASES input s s' :
  loop_step loads lang CASES input s = Some s' ->
  total_generated s < TARGET_SAMPLES /\
  exists l c b,
    next_combo lang (distribution_counts s) = Some (l, c, b) /\
    (s' = after_pick lang s
     \/ exists r turns ep,
          generate_dialogue loads turns ep b (total_generated s + 1) c lang
            (scheduled_case_idx lang input s + 1) = Return (Some r) /\
          s' = run_ops (success_ops (l, c, b)
                          (finalize lang c b (scheduled_case_idx lang input s + 1) r))
                       (after_pick lang s)).
Proof.
  rewrite loop_step_unfold. intros H.
  destruct (bool_decide (uncaught s = None)); [|discriminate]. cbn [andb] in H.
  destruct (total_generated s <? TARGET_SAMPLES) eqn:Et; [|discriminate].
  apply Nat.ltb_lt in Et. split; [done|].
  destruct (next_combo lang (distribution_counts s)) as [[[l c] b]|]; [|discriminate].
  exists l, c, b. split; [done|]. cbv zeta in H.
  destruct (result_truthy _) eqn:Er; [|left; congruence].
  destruct (try_attempts _ _ _ _ _ _ _ _ _ _ _) as [r|] eqn:Ea; [|left; congruence].
  right. apply try_attempts_some in Ea as (a & _ & Hg); [|done|done].
  injection H as <-. eauto.
Qed.

Lemma run_ops_live op ops s :
  uncaught s = None -> run_ops (op :: ops) s = run_ops ops (op s).
Proof. intros H. unfold run_ops. cbn [fold_left]. by rewrite H. Qed.

Lemma run_ops_dead ops s e : uncaught s = Some e -> run_ops ops s = s.
Proof.
  intros H. unfold run_ops. induction ops as [|op ops IH]; cbn [fold_left]; [done|].
  by rewrite H.
Qed.

(** The success branch: the counters move in every case; the record
    reaches the file unless its text cannot be encoded, in which case the
    write raises and the rest is skipped. *)
Lemma success_ops_unfold combo result s :
  uncaught s = None ->
  run_ops (success_ops combo result) s =
  let s3 := op_inc_total (op_inc_count combo (op_append result s)) in
  if encodable (JDict result)
  then op_flush (op_buffer Newline (op_buffer (Dumped result) s3))
  else op_raise UnicodeEncodeError s3.
Proof.
  intros Hu. unfold success_ops. cbv zeta.
  do 3 rewrite run_ops_live by exact Hu.
  set (s3 := op_inc_total (op_inc_count combo (op_append result s))).
  assert (H3 : uncaught s3 = None) by exact Hu. clearbody s3.
  rewrite run_ops_live by exact H3. unfold op_write at 2.
  destruct (encodable (JDict result)).
  - do 2 rewrite run_ops_live by exact H3. reflexivity.
  - by apply (run_ops_dead _ _ UnicodeEncodeError).
Qed.

Lemma success_ops_counts combo result s :
  uncaught s = None ->
  let s' := run_ops (success_ops combo result) s in
  distribution_counts s'
    = <[combo := count_of (distribution_counts s) combo + 1]> (distribution_counts s)
  /\ total_generated s' = total_generated s + 1
  /\ case_index s' = case_index s
  /\ dataset s' = dataset s ++ [result]
  /\ joined s' = joined s.
Proof.
  intros Hu. cbv zeta. rewrite success_ops_unfold by exact Hu. cbv zeta.
  destruct (encodable (JDict result)); repeat split; reflexivity.
Qed.

Lemma success_ops_written combo result s :
  uncaught s = None -> pending s = [] -> encodable (JDict result) = true ->
  let s' := run_ops (success_ops combo result) s in
  pending s' = [] /\ disk s' = disk s ++ [Doc (JDict result)] /\ uncaught s' = None.
Proof.
  intros Hu Hp He. cbv zeta. rewrite success_ops_unfold by exact Hu. cbv zeta. rewrite He.
  cbn [op_flush op_buffer op_inc_total op_inc_count op_append pending disk uncaught].
  rewrite Hp. done.
Qed.

Lemma success_ops_raised combo result s :
  uncaught s = None -> pending s = [] -> encodable (JDict result) = false ->
  let s' := run_ops (success_ops combo result) s in
  pending s' = [] /\ disk s' = disk s /\ uncaught s' = Some UnicodeEncodeError.
Proof.
  intros Hu Hp He. cbv zeta. rewrite success_ops_unfold by exact Hu. cbv zeta. rewrite He.
  cbn [op_raise op_inc_total op_inc_count op_append pending disk uncaught].
  rewrite Hp. cbn [lines_of]. by rewrite app_nil_r.
Qed.

Lemma success_ops_effect combo result s :
  uncaught s = None -> pending s = [] -> encodable (JDict result) = true ->
  let s' := run_ops (success_ops combo result) s in
  distribution_counts s'
    = <[combo := count_of (distribution_counts s) combo + 1]> (distribution_counts s)
  /\ total_generated s' = total_generated s + 1
  /\ case_index s' = case_index s
  /\ pending s' = []
  /\ disk s' = disk s ++ [Doc (JDict result)].
Proof.
  intros Hu Hp He.
  destruct (success_ops_counts combo result s Hu) as (? & ? & ? & _).
  destruct (success_ops_written combo result s Hu Hp He) as (? & ? & _). done.
Qed.

Lemma after_pick_same lang s :
  distribution_counts (after_pick lang s) = distribution_counts s
  /\ total_generated (after_pick lang s) = total_generated s
  /\ pending (after_pick lang s) = pending s
  /\ disk (after_pick lang s) = disk s
  /\ case_index s <= case_index (after_pick lang s).
Proof. unfold after_pick. destruct (_ <=? _); simpl; repeat split; lia. Qed.

Lemma after_pick_rest lang s :
  dataset (after_pick lang s) = dataset s
  /\ joined (after_pick lang s) = joined s
  /\ uncaught (after_pick lang s) = uncaught s.
Proof. unfold after_pick. by destruct (_ <=? _). Qed.

Lemma filtered_language lang row :
  In row (DISTRIBUTION_FILTERED lang) -> row.1.1.1 = lang.
Proof.
  unfold DISTRIBUTION_FILTERED. intros Hin. apply filter_In in Hin as [_ Hl].
  by apply bool_decide_eq_true in Hl.
Qed.

Lemma next_combo_row lang counts k :
  next_combo lang counts = Some k ->
  exists target, In (k, target) (DISTRIBUTION_FILTERED lang) /\ count_of counts k < target.
Proof.
  unfold next_combo. destruct (List.find _ _) as [[k' target]|] eqn:E; [|discriminate].
  intros [= ->]. apply find_some in E as [Hin Hlt]. cbn [fst snd] in Hlt.
  apply Nat.ltb_lt in Hlt. eauto.
Qed.

Lemma next_combo_some lang counts l c b :
  next_combo lang counts = Some (l, c, b) ->
  l = lang /\ exists target,
    In ((l, c, b), target) (DISTRIBUTION_FILTERED lang) /\ count_of counts (l, c, b) < target.
Proof.
  intros (target & Hin & Hlt)%next_combo_row. split; [|eauto].
  exact (filtered_language lang _ Hin).
Qed.

(** What an iteration does to the state: nothing but the advance of the
    case pointer, or the success branch on an accepted record, which ends
    with the record on disk or, when its text cannot be encoded, with the
    exception of the write. *)
Lemma loop_step_outcome loads lang CASES input s s' :
  pending s = [] ->
  loop_step loads lang CASES input s = Some s' ->
  uncaught s = None /\
  exists c b,
    next_combo lang (distribution_counts s) = Some (lang, c, b) /\
    (s' = after_pick lang s
     \/ exists r turns ep,
          generate_dialogue loads turns ep b (total_generated s + 1) c lang
            (scheduled_case_idx lang input s + 1) = Return (Some r) /\
          let result := finalize lang c b (scheduled_case_idx lang input s + 1) r in
          distribution_counts s'
            = <[(lang, c, b) := count_of (distribution_counts s) (lang, c, b) + 1]>
                (distribution_counts s)
          /\ total_generated s' = total_generated s + 1
          /\ case_index s' = case_index (after_pick lang s)
          /\ dataset s' = dataset s ++ [result]
          /\ joined s' = joined s
          /\ pending s' = []
          /\ (encodable (JDict result) = true /\ uncaught s' = None
               /\ disk s' = disk s ++ [Doc (JDict result)]
              \/ encodable (JDict result) = false
                 /\ uncaught s' = Some UnicodeEncodeError /\ disk s' = disk s)).
Proof.
  intros Hp Hstep. pose proof (loop_step_alive _ _ _ _ _ _ Hstep) as Hu.
  split; [exact Hu|].
  apply loop_step_cases in Hstep as (_ & l & c & b & Hn & Hs).
  destruct (next_combo_some _ _ _ _ _ Hn) as [-> _].
  exists c, b. split; [exact Hn|].
  destruct Hs as [->|(r & turns & ep & Hg & ->)]; [by left|right].
  exists r, turns, ep. split; [exact Hg|]. cbv zeta.
  destruct (after_pick_same lang s) as (Hc0 & Ht0 & Hp0 & Hd0 & _).
  destruct (after_pick_rest lang s) as (Hds0 & Hj0 & Hu0).
  set (result := finalize lang c b (scheduled_case_idx lang input s + 1) r).
  destruct (success_ops_counts (lang, c, b) result (after_pick lang s))
    as (-> & -> & -> & -> & ->); [congruence|].
  rewrite Hc0, Ht0, Hds0, Hj0. do 5 (split; [reflexivity|]).
  destruct (encodable (JDict result)) eqn:He.
  - destruct (success_ops_written (lang, c, b) result (after_pick lang s))
      as (-> & -> & ->); [congruence|congruence|exact He|].
    rewrite Hd0. split; [reflexivity|]. by left.
  - destruct (success_ops_raised (lang, c, b) result (after_pick lang s))
      as (-> & -> & ->); [congruence|congruence|exact He|].
    rewrite Hd0. split; [reflexivity|]. by right.
Qed.

(** ** The fields the scheduler stamps on a record *)

(** Claim C2.  Whenever an iteration of the main loop appends a record to
    the output file, that record's language is the active language, its
    complexity and bucket are those of the combination the scheduler picked
    for the iteration, and its case_id is the case number the scheduler
    picked, whatever the endpoint answered and whatever the decoder made of
    the answer. *)
Theorem scheduled_fields_authoritative loads lang CASES input s s' :
  pending s = [] ->
  loop_step loads lang CASES input s = Some s' ->
  disk s' = disk s
  \/ exists c b r,
       next_combo lang (distribution_counts s) = Some (lang, c, b) /\
       disk s' = disk s ++ [Doc (JDict r)] /\
       dict_get (u "language") r = Some (JStr (language_name lang)) /\
       dict_get (u "complexity") r = Some (JStr (complexity_name c)) /\
       dict_get (u "bucket") r = Some (JStr (bucket_name b)) /\
       dict_get (u "case_id") r
         = Some (JInt (Z.of_nat (scheduled_case_idx lang input s + 1))).
Proof.
  intros Hp Hstep.
  destruct (loop_step_outcome _ _ _ _ _ _ Hp Hstep) as (_ & c & b & Hn & Hs).
  destruct Hs as [->|(r & turns & ep & _ & Hs)].
  { left. by destruct (after_pick_same lang s) as (_ & _ & _ & -> & _). }
  cbv zeta in Hs. destruct Hs as (_ & _ & _ & _ & _ & _ & [(_ & _ & Hd)|(_ & _ & Hd)]);
    [right|by left].
  eexists c, b, _. split; [done|]. split; [exact Hd|]. apply finalize_fields.
Qed.

Lemma scheduled_fields_authoritative_witness :
  let s := startup hindi [] in
  let input := answered (uq "{'language': 'fr', 'complexity': 'x', 'bucket': 'Z', 'case_id': 77, 'turns': [{'role': 'user', 'text': 'hi'}]}") in
  let s' := run JsonDecoder.json_loads hindi [u "case"] [input] s in
  disk s' = disk s
  \/ exists c b r,
       next_combo hindi (distribution_counts s) = Some (hindi, c, b) /\
       disk s' = disk s ++ [Doc (JDict r)] /\
       dict_get (u "language") r = Some (JStr (language_name hindi)) /\
       dict_get (u "complexity") r = Some (JStr (complexity_name c)) /\
       dict_get (u "bucket") r = Some (JStr (bucket_name b)) /\
       dict_get (u "case_id") r
         = Some (JInt (Z.of_nat (scheduled_case_idx hindi input s + 1))).
Proof.
  intros s input s'.
  apply (scheduled_fields_authoritative JsonDecoder.json_loads hindi [u "case"] input s s').
  - reflexivity.
  - vm_compute. reflexivity.
Defined.

(** ** The turn count of a parsed record *)

(** Claim C10.  When the answer of the endpoint decodes to a non-empty
    mapping and is accepted as a record, the turn_count the scheduler
    persists is the value the decoded mapping carried under turn_count if it
    carried one, and the drawn exchange count otherwise; the scheduler's
    overwrite of the four scheduled fields leaves it alone.  Hence it can
    differ both from the drawn exchange count and from the number of turns
    kept. *)
Theorem turn_count_self_reported :
  (forall loads turns ep b idx c l case_id output data r lang' c' b' n,
     (generate_via_openrouter ep None).1 = Some output ->
     safe_parse_json loads output = Return (Some (JDict data)) ->
     data <> [] ->
     generate_dialogue loads turns ep b idx c l case_id = Return (Some r) ->
     dict_get (u "turn_count") (finalize lang' c' b' n r)
     = Some (match dict_get (u "turn_count") data with
             | Some reported => reported
             | None => JInt (Z.of_nat turns)
             end))
  /\ (exists output r kept,
        generate_dialogue JsonDecoder.json_loads 2 (always output) A 1 layman hindi 1
          = Return (Some r) /\
        dict_get (u "turns") r = Some (JList kept) /\
        dict_get (u "turn_count") (finalize hindi layman A 1 r) = Some (JInt 9) /\
        9%Z <> Z.of_nat 2 /\ 9%Z <> Z.of_nat (length kept)).
Proof.
  split.
  - intros loads turns ep b idx c l case_id output data r lang' c' b' n Ho Hparse Hne Hg.
    rewrite finalize_other by key_ne.
    unfold generate_dialogue in Hg. rewrite Ho in Hg. rewrite Hparse in Hg. simpl in Hg.
    destruct data as [|kv data]; [done|]. simpl in Hg.
    apply finish_parsed_some in Hg as (vt & _ & ->).
    rewrite dict_get_set_ne by key_ne. rewrite stamped_turn_count.
    unfold dict_get_default.
    rewrite without_extras_other by key_ne. rewrite with_defaults_other by key_ne.
    by destruct (dict_get _ _).
  - exists (uq "{'turn_count': 9, 'turns': [{'role': 'user', 'text': 'hi'}]}").
    eexists. eexists. split; [vm_compute; reflexivity|].
    split; [vm_compute; reflexivity|]. split; [vm_compute; reflexivity|].
    split; vm_compute; discriminate.
Qed.

Lemma turn_count_self_reported_witness :
  dict_get (u "turn_count")
    (finalize hindi layman A 1
       (default []
          (caught (generate_dialogue JsonDecoder.json_loads 2
                     (always (uq "{'turn_count': 9, 'turns': [{'role': 'user', 'text': 'hi'}]}"))
                     A 1 layman hindi 1) None)))
  = Some (JInt 9).
Proof.
  apply (proj1 turn_count_self_reported JsonDecoder.json_loads 2
           (always (uq "{'turn_count': 9, 'turns': [{'role': 'user', 'text': 'hi'}]}"))
           A 1 layman hindi 1
           (uq "{'turn_count': 9, 'turns': [{'role': 'user', 'text': 'hi'}]}")
           [(u "turn_count", JInt 9); (u "turns", JList [turn_of (u "user") (u "hi")])]
           _ hindi layman A 1).
  - reflexivity.
  - vm_compute. reflexivity.
  - discriminate.
  - vm_compute. reflexivity.
Defined.

(** ** The fallback record *)

Lemma finish_parsed_no_valid data turns b idx c l case_id :
  let the_turns := dict_get_default (u "turns") (JList []) data in
  List.filter is_valid_turn (py_iter the_turns) = [] ->
  finish_parsed data turns b idx c l case_id
  = if truthy the_turns && negb (sized the_turns) then Raise TypeError else Return None.
Proof.
  intros the_turns Hnone. unfold finish_parsed.
  replace (dict_get_default (u "turns") JNull
             (stamped (without_extras (with_defaults data)) turns b idx c l case_id))
    with the_turns.
  - clearbody the_turns. destruct the_turns as [|[|]|z|lexeme|t|ts|d]; cbn [truthy sized negb].
    + reflexivity.
    + reflexivity.
    + reflexivity.
    + by destruct (z =? 0)%Z.
    + by destruct (float_is_zero lexeme).
    + destruct t as [|x t]; [reflexivity|].
      rewrite bool_decide_eq_false_2 by discriminate.
      cbn [negb andb py_len mbind py_bind length Nat.eqb]. by rewrite Hnone.
    + destruct ts as [|x ts]; [reflexivity|].
      cbn [negb andb py_len mbind py_bind length Nat.eqb]. by rewrite Hnone.
    + destruct d as [|x d]; [reflexivity|].
      cbn [negb andb py_len mbind py_bind length Nat.eqb]. by rewrite Hnone.
  - subst the_turns. unfold dict_get_default at 2. rewrite stamped_turns.
    rewrite without_extras_other by key_ne. by rewrite with_defaults_turns.
Qed.

(** Claim C3, as the code has it.  When the answer of the endpoint decodes
    to a non-empty mapping of which no structurally valid turn remains, the
    attempt yields no record and no fallback record is made:
    [generate_dialogue] returns None; only when the turns value is true or a
    non-zero number does it leave by the TypeError of [len] instead, which
    the caller catches as a failed attempt.  The fallback record, whose
    turn_count is the requested exchange count and whose language is the
    requested language, is substituted exactly when the answer does not
    decode to a non-empty mapping. *)
Theorem fallback_only_for_undecodable loads turns ep b idx c l case_id output res :
  (generate_via_openrouter ep None).1 = Some output ->
  safe_parse_json loads output = Return res ->
  match res with
  | Some (JDict (kv :: data)) =>
      let the_turns := dict_get_default (u "turns") (JList []) (kv :: data) in
      List.filter is_valid_turn (py_iter the_turns) = [] ->
      generate_dialogue loads turns ep b idx c l case_id
      = (if truthy the_turns && negb (sized the_turns)
         then Raise TypeError else Return None)
      /\ caught (generate_dialogue loads turns ep b idx c l case_id) None = None
  | _ =>
      exists r,
        generate_dialogue loads turns ep b idx c l case_id = Return (Some r) /\
        r = create_fallback_dialogue turns c b idx l case_id /\
        dict_get (u "turn_count") r = Some (JInt (Z.of_nat turns)) /\
        dict_get (u "language") r = Some (JStr (language_name l))
  end.
Proof.
  intros Ho Hp. unfold generate_dialogue. rewrite Ho, Hp. cbn [mbind py_bind].
  destruct res as [[| | | | | |[|kv data]]|];
    try (eexists; split; [reflexivity|]; split; [reflexivity|]; split; reflexivity).
  intros Hnone. cbn [truthy].
  rewrite (finish_parsed_no_valid (kv :: data) turns b idx c l case_id Hnone).
  cbv zeta. split; [reflexivity|].
  by destruct (truthy _ && negb (sized _)).
Qed.

Lemma fallback_only_for_undecodable_witness :
  let answer := uq "{'turns': [{'role': 'system', 'text': 'hello'}]}" in
  generate_dialogue JsonDecoder.json_loads 2 (always answer) A 1 layman english 1
  = Return None
  /\ caught (generate_dialogue JsonDecoder.json_loads 2 (always answer) A 1 layman english 1)
       None = None.
Proof.
  intros answer.
  apply (fallback_only_for_undecodable JsonDecoder.json_loads 2 (always answer)
           A 1 layman english 1 answer
           (Some (JDict [(u "turns", JList [turn_of (u "system") (u "hello")])]))).
  - reflexivity.
  - vm_compute. reflexivity.
  - vm_compute. reflexivity.
Defined.

(** Claim C3 as stated fails: an answer that decodes to a mapping whose only
    turn has the role system leaves no valid turn, and the attempt reports
    failure instead of a fallback record. *)
Lemma zero_valid_turns_is_failure :
  let output := uq "{'turns': [{'role': 'system', 'text': 'hello'}]}" in
  safe_parse_json JsonDecoder.json_loads output
    = Return (Some (JDict [(u "turns", JList [turn_of (u "system") (u "hello")])]))
  /\ List.filter is_valid_turn [turn_of (u "system") (u "hello")] = []
  /\ generate_dialogue JsonDecoder.json_loads 2 (always output) A 1 layman english 1
     = Return None
  /\ Return None
     <> Return (Some (create_fallback_dialogue 2 layman A 1 english 1)).
Proof. repeat split; try (vm_compute; reflexivity). discriminate. Qed.

(** ** The retry budget of the generation client *)

Lemma openrouter_loop_posted ep max_retries attempts posted :
  length (openrouter_loop ep max_retries attempts posted).2
  <= length posted + length attempts.
Proof.
  revert posted. induction attempts as [|a attempts IH]; intros posted; simpl; [lia|].
  assert (Hrec : length (openrouter_loop ep max_retries attempts (posted ++ [a])).2
                 <= length posted + S (length attempts)).
  { etrans; [apply IH|]. rewrite length_app. simpl. lia. }
  assert (Hnow : length (posted ++ [a]) <= length posted + S (length attempts)).
  { rewrite length_app. simpl. lia. }
  destruct (ep a) as [| | |[[|x xs]|]]; simpl; try done;
    destruct (a <? max_retries); simpl; done.
Qed.

(** Claim C9, as the code has it.  Called without a retry budget, the
    generation client uses a budget of two retries: it posts at most three
    requests, and when none of them brings a non-empty content it has posted
    exactly three (attempts 0, 1 and 2) and returns the no-result value. *)
Theorem default_budget_is_two_retries (ep : nat -> api_response) :
  length (generate_via_openrouter ep None).2 <= 3
  /\ ((forall attempt, match ep attempt with
                       | Content (Some (_ :: _)) => False
                       | _ => True
                       end) ->
      generate_via_openrouter ep None = (None, [0; 1; 2])).
Proof.
  split.
  - unfold generate_via_openrouter. etrans; [apply openrouter_loop_posted|]. simpl. lia.
  - intros H. unfold generate_via_openrouter. simpl.
    pose proof (H 0) as H0. pose proof (H 1) as H1. pose proof (H 2) as H2.
    destruct (ep 0) as [| | |[[|? ?]|]]; try done;
      destruct (ep 1) as [| | |[[|? ?]|]]; try done;
      destruct (ep 2) as [| | |[[|? ?]|]]; done.
Qed.

Lemma default_budget_is_two_retries_witness :
  generate_via_openrouter always_failing None = (None, [0; 1; 2]).
Proof.
  apply (proj2 (default_budget_is_two_retries always_failing)).
  intros attempt. simpl. exact I.
Defined.

(** Claim C9 as stated fails: against an endpoint that fails every request,
    the client called without a retry budget posts three requests, not two. *)
Lemma default_budget_exceeds_two_attempts :
  generate_via_openrouter always_failing None = (None, [0; 1; 2])
  /\ length (generate_via_openrouter always_failing None).2 = 3
  /\ ~ length (generate_via_openrouter always_failing None).2 <= 2.
Proof. repeat split. simpl. lia. Qed.

(** ** The tolerant parser *)

Section ParserTotal.
Variable loads : str -> py json.

Lemma try_clean_and_load t otherwise :
  parsed_or_none loads otherwise ->
  parsed_or_none loads (try_except (clean_and_load loads t) (fun _ => otherwise)).
Proof.
  intros Ho. unfold clean_and_load.
  destruct (loads (clean_json_text t)) as [v|e] eqn:E; cbn; [|done].
  exists (Some v). split; [done|]. right. eauto.
Qed.

Lemma strategy1_total patterns text otherwise :
  parsed_or_none loads otherwise -> parsed_or_none loads (strategy1 loads patterns text otherwise).
Proof.
  intros Ho. induction patterns as [|p ps IH]; simpl; [done|].
  destruct (search p text); [|done]. by apply try_clean_and_load.
Qed.

Lemma strategy2_total text otherwise :
  parsed_or_none loads otherwise -> parsed_or_none loads (strategy2 loads text otherwise).
Proof.
  intros Ho. unfold strategy2. destruct (find 123 text); [|done].
  destruct (scan_braces _ _ _ _) as [brace_count end_].
  destruct (_ && _); [|done]. by apply try_clean_and_load.
Qed.

Lemma strategy3_total text otherwise :
  parsed_or_none loads otherwise -> parsed_or_none loads (strategy3 loads text otherwise).
Proof.
  intros Ho. unfold strategy3. destruct (search flat_object text); [|done].
  by apply try_clean_and_load.
Qed.

Lemma strategy4_total text otherwise :
  parsed_or_none loads otherwise -> parsed_or_none loads (strategy4 loads text otherwise).
Proof.
  intros Ho. unfold strategy4. destruct (find 123 text); [|done].
  destruct (rfind 125 text); [|done]. destruct (_ <? _); [|done].
  by apply try_clean_and_load.
Qed.
End ParserTotal.

(** Claim C4.  Whatever the decoder does on the texts it is given (return a
    value or raise any exception), [safe_parse_json] returns on every text:
    it never raises, and what it returns is either the no-result value or a
    value the decoder returned.  On the empty text, on prose without JSON
    and on a truncated JSON text it returns no result. *)
Theorem safe_parse_json_never_raises (loads : str -> py json) (text : str) :
  (exists r, safe_parse_json loads text = Return r /\
     (r = None \/ exists t v, r = Some v /\ loads (clean_json_text t) = Return v))
  /\ safe_parse_json loads [] = Return None
  /\ safe_parse_json JsonDecoder.json_loads (u "I cannot help with that.") = Return None
  /\ safe_parse_json JsonDecoder.json_loads (uq "{'turns': [{'role': 'user', 'te")
     = Return None.
Proof.
  split; [|split; [reflexivity|split; vm_compute; reflexivity]].
  change (parsed_or_none loads (safe_parse_json loads text)).
  unfold safe_parse_json. destruct text as [|c text].
  - exists None. split; [done|by left].
  - apply strategy1_total, strategy2_total, strategy3_total, strategy4_total.
    exists None. split; [done|by left].
Qed.

(** Claim C8, evaluated at the input on which the code departs from it.  The
    object below is valid JSON with an opening brace inside a string value.
    Wrapped in a json fence with a trailing comma it is parsed whole; bare
    and comma-clean, the brace counting of strategy 2 never returns to zero,
    and strategy 3 returns the nested empty object instead. *)
Theorem fenced_and_bare_disagree :
  let bare := uq "{'b': {}, 'a': '{'}" in
  let fenced := uq "```json
{'b': {}, 'a': '{',}
```" in
  let whole := JDict [(u "b", JDict []); (u "a", JStr (u "{"))] in
  JsonDecoder.json_loads bare = Return whole
  /\ safe_parse_json JsonDecoder.json_loads fenced = Return (Some whole)
  /\ safe_parse_json JsonDecoder.json_loads bare = Return (Some (JDict []))
  /\ safe_parse_json JsonDecoder.json_loads fenced
     <> safe_parse_json JsonDecoder.json_loads bare.
Proof. repeat split; try (vm_compute; reflexivity). vm_compute. discriminate. Qed.

(** ** The order of the success branch *)

Lemma run_ops_app ops1 ops2 s : run_ops (ops1 ++ ops2) s = run_ops ops2 (run_ops ops1 s).
Proof. unfold run_ops. apply fold_left_app. Qed.

Lemma prefix_states combo result s0 k :
  pending s0 = [] -> uncaught s0 = None ->
  let sk := run_ops (take k (success_ops combo result)) s0 in
  pending sk <> [] \/ disk sk <> disk s0 ->
  total_generated sk = total_generated s0 + 1
  /\ distribution_counts sk
     = <[combo := count_of (distribution_counts s0) combo + 1]> (distribution_counts s0).
Proof.
  intros Hp Hu. destruct s0 as [dc ci tg ds pd dk jn un].
  cbn [pending uncaught] in Hp, Hu. subst pd un.
  unfold success_ops, run_ops, op_write.
  destruct (encodable (JDict result));
    destruct k as [|[|[|[|[|[|k]]]]]]; cbn [take]; rewrite ?take_nil;
    cbn [fold_left op_append op_inc_count op_inc_total op_buffer op_raise op_flush
           uncaught pending disk total_generated distribution_counts lines_of app];
    rewrite ?app_nil_r; try (intros [?|?]; done); done.
Qed.

(** Claim C6, as the code has it.  In every iteration that accepts a record
    the success branch runs in this order: the per-cell count and the
    running total are incremented first, then the record and its newline are
    written, then the file is flushed.  So at every point of the branch at
    which the record has reached the buffer or the disk, both counters are
    already incremented; and when the iteration ends, before the next
    combination is looked for, the record is on disk and nothing is left in
    the buffer. *)
Theorem counters_before_write_and_flush loads lang CASES input s s' :
  pending s = [] ->
  loop_step loads lang CASES input s = Some s' ->
  disk s' <> disk s ->
  exists combo result,
    let s0 := after_pick lang s in
    let ops := success_ops combo result in
    s' = run_ops ops s0
    /\ (forall k,
          let sk := run_ops (take k ops) s0 in
          pending sk <> [] \/ disk sk <> disk s ->
          total_generated sk = total_generated s + 1
          /\ distribution_counts sk
             = <[combo := count_of (distribution_counts s) combo + 1]>
                 (distribution_counts s))
    /\ disk s' = disk s ++ [Doc (JDict result)]
    /\ pending s' = [].
Proof.
  intros Hp Hstep Hd. pose proof (loop_step_alive _ _ _ _ _ _ Hstep) as Hu.
  apply loop_step_cases in Hstep as (_ & l & c & b & Hn & Hs).
  destruct (after_pick_same lang s) as (Hc0 & Ht0 & Hp0 & Hd0 & _).
  destruct (after_pick_rest lang s) as (_ & _ & Hu0).
  rewrite Hp in Hp0. rewrite Hu in Hu0.
  destruct Hs as [->|(r & turns & ep & _ & ->)]; [congruence|].
  eexists (l, c, b), _. cbv zeta. split; [reflexivity|].
  set (result := finalize lang c b (scheduled_case_idx lang input s + 1) r) in *.
  destruct (encodable (JDict result)) eqn:He.
  - destruct (success_ops_written (l, c, b) result (after_pick lang s) Hu0 Hp0 He)
      as (Hp' & Hd' & _).
    split; [|split; [by rewrite Hd', Hd0|exact Hp']].
    intros k. rewrite <- Hd0, <- Ht0, <- Hc0. by apply prefix_states.
  - destruct (success_ops_raised (l, c, b) result (after_pick lang s) Hu0 Hp0 He)
      as (_ & Hd' & _).
    exfalso. apply Hd. by rewrite Hd', Hd0.
Qed.

Lemma counters_before_write_and_flush_witness :
  let s := startup hindi [] in
  let s' := run JsonDecoder.json_loads hindi [u "case"] [answered (u "sorry")] s in
  exists combo result,
    let s0 := after_pick hindi s in
    let ops := success_ops combo result in
    s' = run_ops ops s0
    /\ (forall k,
          let sk := run_ops (take k ops) s0 in
          pending sk <> [] \/ disk sk <> disk s ->
          total_generated sk = total_generated s + 1
          /\ distribution_counts sk
             = <[combo := count_of (distribution_counts s) combo + 1]>
                 (distribution_counts s))
    /\ disk s' = disk s ++ [Doc (JDict result)]
    /\ pending s' = [].
Proof.
  intros s s'.
  apply (counters_before_write_and_flush JsonDecoder.json_loads hindi [u "case"]
           (answered (u "sorry")) s s').
  - reflexivity.
  - vm_compute. reflexivity.
  - vm_compute. discriminate.
Defined.

(** Claim C6 as stated fails: after the first three statements of the
    success branch both counters are incremented while the record is neither
    in the buffer nor on disk. *)
Lemma counters_incremented_before_write :
  let s := startup hindi [] in
  let combo := (hindi, layman, A) in
  let result := finalize hindi layman A 1 (create_fallback_dialogue 2 layman A 1 hindi 1) in
  let mid := run_ops (take 3 (success_ops combo result)) s in
  let s' := run_ops (success_ops combo result) s in
  total_generated mid = total_generated s + 1
  /\ count_of (distribution_counts mid) combo = count_of (distribution_counts s) combo + 1
  /\ pending mid = []
  /\ disk mid = disk s
  /\ disk s' = disk s ++ [Doc (JDict result)].
Proof. repeat split; vm_compute; reflexivity. Qed.

(** ** The resume replay *)

Lemma complexity_name_inj c c' : complexity_name c = complexity_name c' -> c = c'.
Proof. destruct c, c'; intros H; try reflexivity; vm_compute in H; discriminate H. Qed.

Lemma bucket_name_inj b b' : bucket_name b = bucket_name b' -> b = b'.
Proof. destruct b, b'; intros H; try reflexivity; vm_compute in H; discriminate H. Qed.

Lemma complexity_of_json_spec j :
  match complexity_of_json j with
  | Some c => j = JStr (complexity_name c)
  | None => forall c, j <> JStr (complexity_name c)
  end.
Proof.
  unfold complexity_of_json, COMPLEXITY_LEVELS.
  destruct j as [| | | |s| |]; try (simpl; intros c; discriminate).
  cbn [List.find].
  destruct (str_eqb s (complexity_name layman)) eqn:E1;
    [apply str_eqb_eq in E1; by subst|].
  destruct (str_eqb s (complexity_name intermediate)) eqn:E2;
    [apply str_eqb_eq in E2; by subst|].
  destruct (str_eqb s (complexity_name professional)) eqn:E3;
    [apply str_eqb_eq in E3; by subst|].
  intros c [= ->]. destruct c; rewrite str_eqb_refl in *; discriminate.
Qed.

Lemma bucket_of_json_spec j :
  match bucket_of_json j with
  | Return (Some b) => j = JStr (bucket_name b)
  | Return None => forall b, j <> JStr (bucket_name b)
  | Raise _ => forall s, j <> JStr s
  end.
Proof.
  unfold bucket_of_json, BUCKET_KEYS.
  destruct j as [| | | |s| |]; try (simpl; intros c; discriminate).
  cbn [List.find].
  destruct (str_eqb s (bucket_name A)) eqn:E1; [apply str_eqb_eq in E1; by subst|].
  destruct (str_eqb s (bucket_name B)) eqn:E2; [apply str_eqb_eq in E2; by subst|].
  destruct (str_eqb s (bucket_name C)) eqn:E3; [apply str_eqb_eq in E3; by subst|].
  destruct (str_eqb s (bucket_name D)) eqn:E4; [apply str_eqb_eq in E4; by subst|].
  intros b [= ->]. destruct b; rewrite str_eqb_refl in *; discriminate.
Qed.

Lemma initial_counts_keys lang c b : initial_counts lang !! (lang, c, b) = Some 0.
Proof. destruct lang, c, b; vm_compute; reflexivity. Qed.

Lemma count_of_insert (m : gmap cell nat) k k' v :
  count_of (<[k := v]> m) k' = if decide (k = k') then v else count_of m k'.
Proof. unfold count_of. rewrite lookup_insert. by destruct (decide (k = k')). Qed.

(** The effect of one line on the counts. *)
Lemma replay_line_counts lang ln p p' :
  (forall c b, is_Some (p_counts p !! (lang, c, b))) ->
  replay_line lang ln p = Return p' ->
  (forall c b, is_Some (p_counts p' !! (lang, c, b)))
  /\ (forall c b, count_of (p_counts p') (lang, c, b)
                  = count_of (p_counts p) (lang, c, b)
                    + (if matches_cell c b ln then 1 else 0))
  /\ (p_max_case_id_seen p <= p_max_case_id_seen p')%Z.
Proof.
  intros Hkeys. destruct ln as [| |obj]; simpl.
  - intros [= <-]. repeat split; [done| |lia]. intros; simpl; lia.
  - intros [= <-]. simpl. repeat split; [done| |lia]. intros; simpl; lia.
  - destruct obj as [| | | | | |d]; try discriminate.
    unfold dict_get_default.
    set (newmax := match as_int _ with Some z => _ | None => _ end).
    assert (Hmax : (p_max_case_id_seen p <= newmax)%Z).
    { subst newmax. destruct (as_int _); [|lia]. destruct (_ <? _)%Z eqn:E; lia. }
    pose proof (complexity_of_json_spec (default JNull (dict_get (u "complexity") d))) as Hc.
    pose proof (bucket_of_json_spec (default JNull (dict_get (u "bucket") d))) as Hb.
    destruct (complexity_of_json _) as [c0|].
    + destruct (bucket_of_json _) as [[b0|]|e]; cbn [mbind py_bind]; [| |discriminate].
      * destruct (Hkeys c0 b0) as [n Hn]. rewrite Hn. intros [= <-]. cbn [p_counts p_max_case_id_seen].
        split; [|split; [|done]].
        -- intros c b. rewrite lookup_insert. case_decide; [eauto|apply Hkeys].
        -- intros c b. rewrite count_of_insert.
           destruct (dict_get (u "complexity") d) as [jc|]; [|discriminate].
           destruct (dict_get (u "bucket") d) as [jb|]; [|discriminate].
           simpl in Hc, Hb. subst jc jb.
           case_decide as Hd.
           ++ injection Hd as <- <-. rewrite !str_eqb_refl. unfold count_of. rewrite Hn.
              simpl. lia.
           ++ destruct (str_eqb (complexity_name c0) (complexity_name c)) eqn:E1;
                destruct (str_eqb (bucket_name b0) (bucket_name b)) eqn:E2; simpl; try lia.
              apply str_eqb_eq, complexity_name_inj in E1.
              apply str_eqb_eq, bucket_name_inj in E2. congruence.
      * intros [= <-]. cbn [p_counts p_max_case_id_seen]. split; [done|]. split; [|done].
        intros c b.
        destruct (dict_get (u "complexity") d) as [jc|]; [|discriminate].
        simpl in Hc. subst jc.
        destruct (dict_get (u "bucket") d) as [jb|]; simpl in Hb |- *.
        -- destruct jb; try lia.
           destruct (str_eqb s (bucket_name b)) eqn:E; [|rewrite andb_false_r; lia].
           apply str_eqb_eq in E. subst. by destruct (Hb b).
        -- lia.
    + cbn [mbind py_bind]. intros [= <-]. cbn [p_counts p_max_case_id_seen].
      split; [done|]. split; [|done]. intros c b.
      destruct (dict_get (u "complexity") d) as [jc|]; simpl in Hc |- *; [|lia].
      destruct jc; try lia. destruct (dict_get (u "bucket") d) as [[]|]; try lia.
      destruct (str_eqb s (complexity_name c)) eqn:E; [|simpl; lia].
      apply str_eqb_eq in E. subst. by destruct (Hc c).
Qed.

Lemma replay_lines_counts lang file p p' :
  (forall c b, is_Some (p_counts p !! (lang, c, b))) ->
  replay_lines lang file p = (p', None) ->
  (forall c b, count_of (p_counts p') (lang, c, b)
               = count_of (p_counts p) (lang, c, b) + persisted_count c b file)
  /\ (p_max_case_id_seen p <= p_max_case_id_seen p')%Z.
Proof.
  revert p. induction file as [|ln file IH]; intros p Hkeys; simpl.
  - intros [= <-]. split; [|lia]. intros c b. unfold persisted_count. simpl. lia.
  - destruct (replay_line lang ln p) as [p1|e] eqn:E; [|discriminate].
    intros Hrest.
    destruct (replay_line_counts lang ln p p1 Hkeys E) as (Hk1 & Hc1 & Hm1).
    destruct (IH p1 Hk1 Hrest) as [Hc Hm]. split; [|lia].
    intros c b. rewrite Hc, Hc1. unfold persisted_count. simpl.
    destruct (matches_cell c b ln); simpl; lia.
Qed.

Lemma startup_case_index lang file : (CASE_RANGES lang).1 <= case_index (startup lang file).
Proof.
  unfold startup, startup_from. destruct file as [|ln file]; [simpl; lia|].
  destruct (replay_lines _ _ _) as [p [e|]]; simpl; [lia|].
  destruct (_ <? _) eqn:E; [lia|]. apply Nat.ltb_ge in E. lia.
Qed.

(** When the replay reads the whole file without an exception, each cell's
    count after the start-up equals exactly the number of persisted lines
    that decode to a record whose complexity and bucket are those of the
    cell (so no count is below the zero it started from).  In every case,
    also when the replay is abandoned, the next-case pointer is at least the
    start of the case range of the active language. *)
Theorem replay_counts_persisted_records lang file :
  (replay_completes lang file ->
   forall c b,
     count_of (distribution_counts (startup lang file)) (lang, c, b)
     = persisted_count c b file)
  /\ (CASE_RANGES lang).1 <= case_index (startup lang file).
Proof.
  split; [|apply startup_case_index].
  unfold replay_completes, startup, startup_from. intros Hdone c b.
  destruct file as [|ln file]; [simpl; unfold count_of; by rewrite initial_counts_keys|].
  destruct (replay_lines _ _ _) as [p oe] eqn:E. simpl in Hdone. subst oe.
  cbn [distribution_counts].
  apply replay_lines_counts in E as [Hc _].
  - rewrite Hc. cbn [p_counts]. unfold count_of. by rewrite initial_counts_keys.
  - intros c' b'. cbn [p_counts]. rewrite initial_counts_keys. eauto.
Qed.

Lemma replay_counts_persisted_records_witness :
  let file := [bare_record layman A; Garbage; Blank; bare_record intermediate C;
               bare_record layman A] in
  count_of (distribution_counts (startup hindi file)) (hindi, layman, A)
  = persisted_count layman A file.
Proof.
  intros file. apply (proj1 (replay_counts_persisted_records hindi file)).
  vm_compute. reflexivity.
Defined.

(** Claim C5, evaluated at the input on which the code departs from it.  A
    line that is valid JSON but no mapping (here the number 5) makes
    [obj.get] raise.  The handler around the replay gives the replay up:
    the record on the third line is never counted, so the count of its cell
    is 1 where the file holds 2 such records; the run then opens the file
    for writing, which empties it, and yet keeps the count of the first
    line. *)
Theorem replay_abandoned_on_non_mapping :
  let file := [bare_record layman A; Doc (JInt 5); bare_record layman A] in
  let s := startup hindi file in
  count_of (distribution_counts s) (hindi, layman, A) = 1
  /\ persisted_count layman A file = 2
  /\ ~ replay_completes hindi file
  /\ total_generated s = 1
  /\ disk s = []
  /\ case_index s = (CASE_RANGES hindi).1.
Proof. repeat split; try (vm_compute; reflexivity). vm_compute. discriminate. Qed.

(** ** The quota invariant of the main loop *)

Lemma filtered_rows lang :
  DISTRIBUTION_FILTERED lang =
  match lang with
  | hindi =>
      [ ((hindi, layman, A), 33); ((hindi, layman, B), 33);
        ((hindi, layman, C), 34); ((hindi, layman, D), 33);
        ((hindi, intermediate, A), 34); ((hindi, intermediate, B), 33);
        ((hindi, intermediate, C), 33); ((hindi, intermediate, D), 33);
        ((hindi, professional, A), 33); ((hindi, professional, B), 34);
        ((hindi, professional, C), 33); ((hindi, professional, D), 33) ]
  | english =>
      [ ((english, layman, A), 33); ((english, layman, B), 34);
        ((english, layman, C), 33); ((english, layman, D), 33);
        ((english, intermediate, A), 33); ((english, intermediate, B), 33);
        ((english, intermediate, C), 34); ((english, intermediate, D), 33);
        ((english, professional, A), 34); ((english, professional, B), 33);
        ((english, professional, C), 33); ((english, professional, D), 34) ]
  | code_mixed =>
      [ ((code_mixed, layman, A), 34); ((code_mixed, layman, B), 33);
        ((code_mixed, layman, C), 33); ((code_mixed, layman, D), 33);
        ((code_mixed, intermediate, A), 33); ((code_mixed, intermediate, B), 33);
        ((code_mixed, intermediate, C), 33); ((code_mixed, intermediate, D), 34);
        ((code_mixed, professional, A), 33); ((code_mixed, professional, B), 34);
        ((code_mixed, professional, C), 34); ((code_mixed, professional, D), 33) ]
  end.
Proof. destruct lang; reflexivity. Qed.

Lemma lang_total_unfold lang counts :
  lang_total lang counts =
  count_of counts (lang, layman, A) + count_of counts (lang, layman, B)
  + count_of counts (lang, layman, C) + count_of counts (lang, layman, D)
  + count_of counts (lang, intermediate, A) + count_of counts (lang, intermediate, B)
  + count_of counts (lang, intermediate, C) + count_of counts (lang, intermediate, D)
  + count_of counts (lang, professional, A) + count_of counts (lang, professional, B)
  + count_of counts (lang, professional, C) + count_of counts (lang, professional, D).
Proof. unfold lang_total. cbn. lia. Qed.

Lemma lang_total_insert (lang : language) (c : complexity) (b : bucket) (v : nat) (m : gmap cell nat) :
  lang_total lang (<[(lang, c, b) := v]> m) + count_of m (lang, c, b)
  = lang_total lang m + v.
Proof.
  rewrite !lang_total_unfold, !count_of_insert.
  destruct c, b;
    repeat first [rewrite decide_True by reflexivity | rewrite decide_False by congruence];
    lia.
Qed.

Lemma filtered_functional lang k t1 t2 :
  In (k, t1) (DISTRIBUTION_FILTERED lang) -> In (k, t2) (DISTRIBUTION_FILTERED lang) ->
  t1 = t2.
Proof.
  rewrite filtered_rows. destruct lang; cbn [In]; intros H1 H2;
    repeat (destruct H1 as [H1|H1]; [injection H1 as <- <-|]); try done;
    repeat (destruct H2 as [H2|H2]; [try (injection H2 as <-; done); try discriminate|]);
    done.
Qed.

Lemma success_ops_counters combo result s :
  uncaught s = None ->
  let s' := run_ops (success_ops combo result) s in
  distribution_counts s'
    = <[combo := count_of (distribution_counts s) combo + 1]> (distribution_counts s)
  /\ total_generated s' = total_generated s + 1.
Proof. intros Hu. by destruct (success_ops_counts combo result s Hu) as (? & ? & _). Qed.

Lemma after_pick_alive lang s : uncaught s = None -> uncaught (after_pick lang s) = None.
Proof. intros H. by destruct (after_pick_rest lang s) as (_ & _ & ->). Qed.

Lemma within_targets_insert (lang : language) (counts : gmap cell nat) (k : cell)
    (target : nat) :
  within_targets lang counts ->
  In (k, target) (DISTRIBUTION_FILTERED lang) ->
  count_of counts k < target ->
  within_targets lang (<[k := count_of counts k + 1]> counts).
Proof.
  unfold within_targets. rewrite !Forall_forall. intros Hw Hin Hlt [k' t'] Hin'.
  cbn [fst snd]. rewrite count_of_insert. case_decide as Hk.
  - subst k'. apply list_elem_of_In in Hin'.
    rewrite (filtered_functional lang k t' target Hin' Hin). lia.
  - apply (Hw (k', t') Hin').
Qed.

(** One iteration keeps the counts within the targets and the running total
    equal to their sum. *)
Lemma loop_step_invariant loads lang CASES input s s' :
  within_targets lang (distribution_counts s) ->
  total_generated s = lang_total lang (distribution_counts s) ->
  loop_step loads lang CASES input s = Some s' ->
  within_targets lang (distribution_counts s')
  /\ total_generated s' = lang_total lang (distribution_counts s').
Proof.
  intros Hw Ht Hstep. pose proof (loop_step_alive _ _ _ _ _ _ Hstep) as Hu.
  apply loop_step_cases in Hstep as (_ & l & c & b & Hn & Hs).
  destruct (after_pick_same lang s) as (Hc0 & Ht0 & _).
  destruct Hs as [->|(r & turns & ep & _ & ->)]; [by rewrite Hc0, Ht0|].
  destruct (next_combo_some _ _ _ _ _ Hn) as (-> & target & Hin & Hlt).
  destruct (success_ops_counters (lang, c, b)
              (finalize lang c b (scheduled_case_idx lang input s + 1) r)
              (after_pick lang s) (after_pick_alive lang s Hu)) as [-> ->].
  rewrite Hc0, Ht0. split.
  - by apply within_targets_insert with target.
  - pose proof (lang_total_insert lang c b
                  (count_of (distribution_counts s) (lang, c, b) + 1)
                  (distribution_counts s)). lia.
Qed.

Lemma run_invariant loads lang CASES inputs s :
  within_targets lang (distribution_counts s) ->
  total_generated s = lang_total lang (distribution_counts s) ->
  within_targets lang (distribution_counts (run loads lang CASES inputs s))
  /\ total_generated (run loads lang CASES inputs s)
     = lang_total lang (distribution_counts (run loads lang CASES inputs s)).
Proof.
  revert s. induction inputs as [|input inputs IH]; intros s Hw Ht; simpl; [done|].
  destruct (loop_step loads lang CASES input s) as [s'|] eqn:E; [|done].
  destruct (loop_step_invariant _ _ _ _ _ _ Hw Ht E). by apply IH.
Qed.

Lemma next_combo_none lang counts :
  next_combo lang counts = None ->
  Forall (fun row => row.2 <= count_of counts row.1) (DISTRIBUTION_FILTERED lang).
Proof.
  unfold next_combo. destruct (List.find _ _) as [row|] eqn:E; [discriminate|]. intros _.
  apply Forall_forall. intros row Hin%list_elem_of_In.
  pose proof (find_none _ _ E row Hin) as H. cbn beta in H. apply Nat.ltb_ge in H. done.
Qed.

(** When the loop is left with the counts within the targets, every target
    is met, and the counts add up to the sum of the targets of the table. *)
Lemma finished_targets_met lang s :
  within_targets lang (distribution_counts s) ->
  total_generated s = lang_total lang (distribution_counts s) ->
  finished lang s = true ->
  all_targets_met lang (distribution_counts s)
  /\ lang_total lang (distribution_counts s)
     = list_sum (List.map snd (DISTRIBUTION_FILTERED lang)).
Proof.
  unfold finished, within_targets, all_targets_met. intros Hw Ht Hf.
  assert (Hge : TARGET_SAMPLES <= lang_total lang (distribution_counts s)
                \/ Forall (fun row => row.2 <= count_of (distribution_counts s) row.1)
                     (DISTRIBUTION_FILTERED lang)).
  { apply orb_true_iff in Hf as [Hf|Hf].
    - left. apply negb_true_iff, Nat.ltb_ge in Hf. by rewrite <- Ht.
    - right. by apply bool_decide_eq_true, next_combo_none in Hf. }
  clear Hf Ht. rewrite lang_total_unfold in *.
  unfold TARGET_SAMPLES, SAMPLES_PER_LANGUAGE in *.
  rewrite filtered_rows in *.
  destruct lang; rewrite !Forall_cons in Hw; cbn [fst snd] in Hw;
    (destruct Hge as [Hge|Hge];
     [|rewrite !Forall_cons in Hge; cbn [fst snd] in Hge]);
    (split; [|cbv [List.map list_sum fold_right snd]; lia]);
    repeat (apply Forall_cons; split; [cbn [fst snd]; lia|]); apply Forall_nil_2.
Qed.

Lemma startup_fresh lang :
  startup lang [] =
  {| distribution_counts := initial_counts lang;
     case_index := (CASE_RANGES lang).1;
     total_generated := lang_total lang (initial_counts lang);
     dataset := []; pending := []; disk := []; joined := None; uncaught := None |}.
Proof. reflexivity. Qed.

Lemma fresh_within_targets lang :
  within_targets lang (distribution_counts (startup lang []))
  /\ total_generated (startup lang [])
     = lang_total lang (distribution_counts (startup lang [])).
Proof.
  rewrite startup_fresh. cbn [distribution_counts total_generated]. split; [|reflexivity].
  unfold within_targets. apply Forall_forall. intros [[[l c] b] t] Hin.
  apply list_elem_of_In in Hin. pose proof (filtered_language lang _ Hin) as Hl.
  cbn [fst snd] in Hl |- *. subst l. unfold count_of.
  rewrite initial_counts_keys. simpl. lia.
Qed.

(** From a start within the targets (a fresh run in particular) no count
    ever exceeds its target, and a run that leaves the loop has met every
    target. *)
Lemma quota_invariant loads lang CASES inputs s :
  within_targets lang (distribution_counts s) ->
  total_generated s = lang_total lang (distribution_counts s) ->
  let s' := run loads lang CASES inputs s in
  within_targets lang (distribution_counts s')
  /\ (finished lang s' = true ->
      all_targets_met lang (distribution_counts s')
      /\ total_generated s' = list_sum (List.map snd (DISTRIBUTION_FILTERED lang))).
Proof.
  intros Hw Ht s'. destruct (run_invariant loads lang CASES inputs s Hw Ht) as [Hw' Ht'].
  split; [done|]. intros Hf. fold s' in Ht'. rewrite Ht'.
  by apply finished_targets_met.
Qed.

Lemma table_sums :
  list_sum (List.map snd (DISTRIBUTION_FILTERED hindi)) = 399
  /\ list_sum (List.map snd (DISTRIBUTION_FILTERED english)) = 400
  /\ list_sum (List.map snd (DISTRIBUTION_FILTERED code_mixed)) = 400.
Proof. repeat split. Qed.

(** Claim C1, evaluated at the input on which the code departs from it.  A
    fresh run for the language hindi whose every attempt is accepted leaves
    the loop through the break, with every cell at its target, after 399
    records: the twelve targets of the hindi rows of the table add up to 399,
    not to the total target of 400 that the table's comment and
    [SAMPLES_PER_LANGUAGE] announce.  (For english and code_mixed the rows
    add up to 400, see [table_sums] and [quota_invariant].) *)
Theorem hindi_run_ends_one_short :
  let CASES := repeat (u "case") 400 in
  let inputs := repeat (answered (u "sorry")) 400 in
  let s := run JsonDecoder.json_loads hindi CASES inputs (startup hindi []) in
  finished hindi s = true
  /\ all_targets_met hindi (distribution_counts s)
  /\ lang_total hindi (distribution_counts s) = 399
  /\ total_generated s = 399
  /\ length (disk s) = 399
  /\ TARGET_SAMPLES = 400.
Proof.
  intros CASES inputs s.
  assert (Hs : finished hindi s = true /\ total_generated s = 399 /\ length (disk s) = 399
               /\ lang_total hindi (distribution_counts s) = 399).
  { apply (bool_decide_unpack _). vm_compute. exact I. }
  destruct Hs as (Hf & Ht & Hd & Hl).
  split; [exact Hf|]. split; [|split; [exact Hl|split; [exact Ht|split; [exact Hd|reflexivity]]]].
  destruct (fresh_within_targets hindi) as [Hw0 Ht0].
  destruct (quota_invariant JsonDecoder.json_loads hindi CASES inputs _ Hw0 Ht0) as [_ H].
  apply H. exact Hf.
Qed.

(** ** Dialogue identifiers are injective in the running index *)

Lemma N_of_ascii_inj a b : N_of_ascii a = N_of_ascii b -> a = b.
Proof. intros H. rewrite <- (ascii_N_embedding a), <- (ascii_N_embedding b). by rewrite H. Qed.

Lemma u_inj s t : u s = u t -> s = t.
Proof.
  unfold u. intros H.
  rewrite <- (string_of_list_ascii_of_string s), <- (string_of_list_ascii_of_string t).
  f_equal. revert H. generalize (list_ascii_of_string t).
  induction (list_ascii_of_string s) as [|a l IH]; intros [|b l']; simpl; try discriminate.
  - done.
  - intros [= Hab Hl]. f_equal; [by apply N_of_ascii_inj|by apply IH].
Qed.

Lemma u_cons c s : u (String c s) = N_of_ascii c :: u s.
Proof. reflexivity. Qed.

Lemma string_of_uint_digits d :
  Forall (fun c => c <> 95%N) (u (NilEmpty.string_of_uint d)).
Proof.
  induction d; cbn [NilEmpty.string_of_uint]; rewrite ?u_cons;
    [apply Forall_nil_2|..]; (apply Forall_cons; split; [vm_compute; discriminate|done]).
Qed.

Lemma of_uint_pad k d : Nat.of_uint (pad_zeros k d) = Nat.of_uint d.
Proof. induction k as [|k IH]; [done|]. exact IH. Qed.

Lemma fmt_d_inj w w' n m : fmt_d w n = fmt_d w' m -> n = m.
Proof.
  unfold fmt_d. intros H%u_inj.
  apply (f_equal NilEmpty.uint_of_string) in H. rewrite !NilEmpty.usu in H.
  injection H as H. apply (f_equal Nat.of_uint) in H.
  by rewrite !of_uint_pad, !Unsigned.of_to in H.
Qed.

Lemma fmt_d_no_sep w n : Forall (fun c => c <> 95%N) (fmt_d w n).
Proof. apply string_of_uint_digits. Qed.

Lemma prefix_before_sep (sep : N) (a b x y : str) :
  Forall (fun c => c <> sep) a -> Forall (fun c => c <> sep) b ->
  a ++ sep :: x = b ++ sep :: y -> a = b.
Proof.
  revert b. induction a as [|c a IH]; intros [|c' b] Ha Hb; simpl; intros H.
  - done.
  - injection H as <- _. apply Forall_cons in Hb as [Hb _]. done.
  - injection H as -> _. apply Forall_cons in Ha as [Ha _]. done.
  - injection H as -> H. apply Forall_cons in Ha as [_ Ha]. apply Forall_cons in Hb as [_ Hb].
    f_equal. by apply IH.
Qed.

Lemma suffix_after_sep (sep : N) (a b x y : str) :
  Forall (fun c => c <> sep) a -> Forall (fun c => c <> sep) b ->
  x ++ sep :: a = y ++ sep :: b -> a = b.
Proof.
  intros Ha Hb H. apply (f_equal (@rev N)) in H.
  rewrite !rev_app_distr in H. simpl in H. rewrite <- !app_assoc in H. simpl in H.
  apply prefix_before_sep in H; [|by apply Forall_rev..].
  rewrite <- (rev_involutive a), <- (rev_involutive b). by rewrite H.
Qed.

Lemma dialogue_id_split l b case_id idx :
  dialogue_id_of l b case_id idx
  = (lang_prefix l ++ u "_" ++ bucket_name b ++ u "_C" ++ fmt_d 4 case_id)
      ++ 95%N :: fmt_d 3 idx.
Proof. unfold dialogue_id_of. by rewrite <- !app_assoc. Qed.

Lemma dialogue_id_inj_idx l b case_id idx l' b' case_id' idx' :
  dialogue_id_of l b case_id idx = dialogue_id_of l' b' case_id' idx' -> idx = idx'.
Proof.
  rewrite !dialogue_id_split. intros H%suffix_after_sep; [|apply fmt_d_no_sep..].
  by apply fmt_d_inj in H.
Qed.

(** ** The file written by the program *)

Lemma lang_total_initial lang : lang_total lang (initial_counts lang) = 0.
Proof.
  rewrite lang_total_unfold. unfold count_of. by rewrite !initial_counts_keys.
Qed.

(** A record of some cell is counted once by the replay. *)
Lemma replay_line_record lang (d : dict) c0 b0 p :
  (forall c b, is_Some (p_counts p !! (lang, c, b))) ->
  dict_get (u "complexity") d = Some (JStr (complexity_name c0)) ->
  dict_get (u "bucket") d = Some (JStr (bucket_name b0)) ->
  exists p',
    replay_line lang (Doc (JDict d)) p = Return p' /\
    (forall c b, is_Some (p_counts p' !! (lang, c, b))) /\
    lang_total lang (p_counts p') = lang_total lang (p_counts p) + 1.
Proof.
  intros Hkeys Hc Hb.
  assert (Hret : exists p', replay_line lang (Doc (JDict d)) p = Return p').
  { cbn [replay_line]. unfold dict_get_default. rewrite Hc, Hb. cbn [default from_option id].
    pose proof (complexity_of_json_spec (JStr (complexity_name c0))) as Hcs.
    destruct (complexity_of_json _) as [c|]; [|by destruct (Hcs c0)].
    pose proof (bucket_of_json_spec (JStr (bucket_name b0))) as Hbs.
    destruct (bucket_of_json _) as [[b|]|e];
      [|by destruct (Hbs b0)|by destruct (Hbs (bucket_name b0))].
    cbn [mbind py_bind]. destruct (Hkeys c b) as [n ->]. cbn [mbind py_bind]. eauto. }
  destruct Hret as [p' Hp']. exists p'. split; [done|].
  destruct (replay_line_counts lang _ p p' Hkeys Hp') as (Hk & Hcnt & _).
  split; [done|]. rewrite !lang_total_unfold, !Hcnt. cbn [matches_cell]. rewrite Hc, Hb.
  destruct c0, b0; vm_compute str_eqb; cbn [andb]; lia.
Qed.

(** The replay of a file of records completes, and counts every line. *)
Lemma replay_records lang file p :
  (forall c b, is_Some (p_counts p !! (lang, c, b))) ->
  Forall (fun ln => exists r c b, ln = Doc (JDict r)
            /\ dict_get (u "complexity") r = Some (JStr (complexity_name c))
            /\ dict_get (u "bucket") r = Some (JStr (bucket_name b))) file ->
  exists p',
    replay_lines lang file p = (p', None) /\
    lang_total lang (p_counts p') = lang_total lang (p_counts p) + length file.
Proof.
  intros Hkeys Hall. revert p Hkeys.
  induction Hall as [|ln file (r & c & b & -> & Hc & Hb) _ IH]; intros p Hkeys.
  - exists p. split; [done|]. simpl. lia.
  - destruct (replay_line_record lang r c b p Hkeys Hc Hb) as (p1 & Hp1 & Hk1 & Ht1).
    destruct (IH p1 Hk1) as (p' & Hp' & Ht').
    exists p'. cbn [replay_lines]. rewrite Hp1. split; [done|]. rewrite Ht', Ht1. simpl. lia.
Qed.

Lemma well_numbered_records lang file :
  well_numbered lang file ->
  Forall (fun ln => exists r c b, ln = Doc (JDict r)
            /\ dict_get (u "complexity") r = Some (JStr (complexity_name c))
            /\ dict_get (u "bucket") r = Some (JStr (bucket_name b))) file.
Proof.
  intros H. apply Forall_lookup. intros i ln Hi.
  destruct (H i ln Hi) as (r & c & b & b' & case_id & -> & _ & Hc & Hb).
  by exists r, c, b.
Qed.

Lemma startup_resumed lang ln file p :
  replay_lines lang (ln :: file)
    {| p_counts := initial_counts lang; p_existing_total := 0; p_max_case_id_seen := 0 |}
  = (p, None) ->
  startup lang (ln :: file) =
  {| distribution_counts := p_counts p;
     case_index := if Z.to_nat (p_max_case_id_seen p) <? (CASE_RANGES lang).1
                   then (CASE_RANGES lang).1 else Z.to_nat (p_max_case_id_seen p);
     total_generated := lang_total lang (p_counts p);
     dataset := []; pending := []; disk := ln :: file; joined := None;
     uncaught := None |}.
Proof. intros H. unfold startup, startup_from. rewrite H. reflexivity. Qed.

Lemma startup_consistent_nil lang : consistent lang (startup lang []).
Proof.
  rewrite startup_fresh. unfold consistent. cbn [pending total_generated disk].
  split; [reflexivity|]. split; [apply lang_total_initial|].
  intros i ln Hi. by rewrite lookup_nil in Hi.
Qed.

Lemma initial_keys lang :
  forall c b, is_Some (p_counts {| p_counts := initial_counts lang; p_existing_total := 0;
                   p_max_case_id_seen := 0 |} !! (lang, c, b)).
Proof. intros c b. cbn [p_counts]. rewrite initial_counts_keys. eauto. Qed.

Lemma replay_written lang file :
  well_numbered lang file ->
  exists p',
    replay_lines lang file {| p_counts := initial_counts lang; p_existing_total := 0;
                   p_max_case_id_seen := 0 |} = (p', None) /\
    lang_total lang (p_counts p') = length file.
Proof.
  intros Hwn.
  destruct (replay_records lang file _ (initial_keys lang) (well_numbered_records lang file Hwn))
    as (p' & Hp' & Ht').
  exists p'. split; [exact Hp'|]. rewrite Ht'. cbn [p_counts]. rewrite lang_total_initial.
  reflexivity.
Qed.

Lemma startup_consistent_cons lang ln file :
  well_numbered lang (ln :: file) -> consistent lang (startup lang (ln :: file)).
Proof.
  intros Hwn. destruct (replay_written lang _ Hwn) as (p' & Hp' & Ht').
  rewrite (startup_resumed lang ln file p' Hp'). unfold consistent.
  cbn [pending total_generated disk distribution_counts].
  split; [reflexivity|]. split; [exact Ht'|exact Hwn].
Qed.

(** A restart on a well numbered file resumes with the total at its length. *)
Lemma startup_consistent lang file :
  well_numbered lang file -> consistent lang (startup lang file).
Proof.
  destruct file as [|ln file]; [intros _; apply startup_consistent_nil|].
  apply startup_consistent_cons.
Qed.

(** A completed iteration keeps the file well numbered. *)
Lemma loop_step_consistent loads lang CASES input s s' :
  consistent lang s ->
  loop_step loads lang CASES input s = Some s' ->
  uncaught s' = None ->
  consistent lang s'.
Proof.
  intros (Hp & Ht & Hwn) Hstep Hu'.
  destruct (loop_step_outcome _ _ _ _ _ _ Hp Hstep) as (_ & c & b & Hn & Hs).
  destruct (after_pick_same lang s) as (Hc0 & Ht0 & Hp0 & Hd0 & _).
  destruct Hs as [->|(r & turns & ep & Hg & Hs)].
  - unfold consistent. by rewrite Hp0, Ht0, Hd0.
  - cbv zeta in Hs.
    destruct Hs as (_ & Ht' & _ & _ & _ & Hp' & [(_ & _ & Hd')|(_ & Hx & _)]);
      [|congruence].
    unfold consistent. rewrite Hp', Ht', Hd'. split; [done|]. split.
    { rewrite length_app. simpl. lia. }
    intros i ln Hi. apply lookup_app_Some in Hi as [Hi|[Hge Hi]]; [by apply Hwn|].
    apply list_lookup_singleton_Some in Hi as [Hi <-].
    assert (i = length (disk s)) as -> by lia.
    destruct (finalize_fields lang c b (scheduled_case_idx lang input s + 1) r)
      as (_ & Hfc & Hfb & _).
    eexists _, c, b, b, _. split; [reflexivity|]. split; [|done].
    rewrite finalize_other by key_ne. rewrite <- Ht.
    exact (generate_dialogue_id _ _ _ _ _ _ _ _ _ Hg).
Qed.

Lemma reachable_consistent loads lang s : reachable loads lang s -> consistent lang s.
Proof.
  induction 1 as [|CASES input s s' _ IH Hstep Hu'|s _ IH].
  - apply startup_consistent. intros i ln Hi. by rewrite lookup_nil in Hi.
  - by apply loop_step_consistent with loads CASES input s.
  - apply startup_consistent. apply IH.
Qed.

(** In every state the program is in between two iterations (from a fresh
    start on no file, through completed iterations of the main loop, and
    through restarts of the process that resume on the file written so far)
    every line of the output file carries a dialogue_id, and these
    identifiers are pairwise distinct: the line at position i carries the
    running index i + 1, which the identifier determines. *)
Theorem dialogue_ids_distinct loads lang s :
  reachable loads lang s ->
  Forall (fun ln => is_Some (line_dialogue_id ln)) (disk s)
  /\ NoDup (line_dialogue_id <$> disk s).
Proof.
  intros (_ & _ & Hwn)%reachable_consistent. split.
  - apply Forall_lookup. intros i ln Hi.
    destruct (Hwn i ln Hi) as (r & c & b & b' & case_id & -> & Hid & _). simpl. eauto.
  - apply NoDup_alt. intros i j x Hi Hj.
    apply list_lookup_fmap_Some in Hi as (ln1 & -> & Hi).
    apply list_lookup_fmap_Some in Hj as (ln2 & Hx & Hj).
    destruct (Hwn i ln1 Hi) as (r1 & ? & ? & b1 & k1 & -> & Hid1 & _).
    destruct (Hwn j ln2 Hj) as (r2 & ? & ? & b2 & k2 & -> & Hid2 & _).
    simpl in Hx. rewrite Hid1, Hid2 in Hx. injection Hx as Hx.
    apply dialogue_id_inj_idx in Hx. lia.
Qed.

Lemma dialogue_ids_distinct_witness :
  let CASES := [u "case one"; u "case two"] in
  let s1 := run JsonDecoder.json_loads hindi CASES [answered (u "sorry")] (startup hindi []) in
  let s2 := startup hindi (disk s1) in
  let s3 := run JsonDecoder.json_loads hindi CASES [answered (u "sorry")] s2 in
  Forall (fun ln => is_Some (line_dialogue_id ln)) (disk s3)
  /\ NoDup (line_dialogue_id <$> disk s3).
Proof.
  intros CASES s1 s2 s3.
  apply (dialogue_ids_distinct JsonDecoder.json_loads hindi s3).
  apply (reach_step _ _ CASES (answered (u "sorry")) s2 s3);
    [|vm_compute; reflexivity|vm_compute; reflexivity].
  apply reach_resume.
  apply (reach_step _ _ CASES (answered (u "sorry")) (startup hindi []) s1);
    [apply reach_fresh|vm_compute; reflexivity|vm_compute; reflexivity].
Defined.

(** Claim C7, evaluated at the input on which the code departs from it.  The
    index of an identifier is the running total plus one, and a resumed run
    starts the total at the number of lines the replay counted, not at the
    number of lines of the file.  Here a first run has written one record
    (case 400, after 399 iterations without an answer) and is killed while
    it writes the next, which leaves a cut line without a line break.  The
    second run skips the cut line in its replay, and the first record it
    appends stands on that line; past the case range it draws case 9 twice
    and writes the indices 002 and 003.  The third run finds two decodable
    lines, so it numbers its first record 003 again, and with the same draw
    writes the identifier HN_A_C0009_003 a second time. *)
Theorem resumed_run_repeats_an_id :
  let CASES := replicate 400 (u "case") in
  let first_run :=
    run JsonDecoder.json_loads hindi CASES
      (replicate 399 unanswered ++ [answered (u "sorry")]) (startup hindi []) in
  let cut := disk first_run ++ [Garbage] in
  let second_run :=
    run JsonDecoder.json_loads hindi CASES
      [answered_at 8 (u "sorry"); answered_at 8 (u "sorry")]
      (startup_from hindi cut true) in
  let third_run :=
    run JsonDecoder.json_loads hindi CASES [answered_at 8 (u "sorry")]
      (startup hindi (file_lines second_run)) in
  line_dialogue_id <$> file_lines second_run
  = [Some (JStr (u "HN_A_C0400_001")); None; Some (JStr (u "HN_A_C0009_003"))]
  /\ line_dialogue_id <$> disk third_run
     = [Some (JStr (u "HN_A_C0400_001")); None; Some (JStr (u "HN_A_C0009_003"));
        Some (JStr (u "HN_A_C0009_003"))]
  /\ ~ NoDup (line_dialogue_id <$> disk third_run).
Proof.
  intros CASES first_run cut second_run third_run.
  assert (H : line_dialogue_id <$> disk third_run
              = [Some (JStr (u "HN_A_C0400_001")); None; Some (JStr (u "HN_A_C0009_003"));
                 Some (JStr (u "HN_A_C0009_003"))]) by (vm_compute; reflexivity).
  split; [vm_compute; reflexivity|]. split; [exact H|].
  rewrite H. intros Hnd. apply NoDup_cons in Hnd as [_ Hnd].
  apply NoDup_cons in Hnd as [_ Hnd]. apply NoDup_cons in Hnd as [Hin _].
  apply Hin. by left.
Qed.

(* ===================================================================== *)
(** * Further properties of the code *)
(* ===================================================================== *)

(** ** The matcher: where a match can end and what it can capture *)

Section MatcherFacts.
Context {R : Type}.
Implicit Types (k : @cont R) (s : str) (caps : list str).

(** A matcher fails when its continuation fails on every suffix. *)
Lemma iter_greedy_none (m : str -> list str -> cont -> option R) fuel s caps k :
  (forall s0 caps0 k0, s0 `suffix_of` s ->
     (forall s' caps', s' `suffix_of` s0 -> k0 s' caps' = None) -> m s0 caps0 k0 = None) ->
  (forall s' caps', s' `suffix_of` s -> k s' caps' = None) ->
  iter_greedy m fuel s caps k = None.
Proof.
  revert s caps. induction fuel as [|fuel IH]; intros s caps Hm Hk; simpl.
  - by apply Hk.
  - rewrite Hm; [by apply Hk|done|]. intros s' caps' Hs'.
    destruct (length s' <? length s); [|done]. apply IH.
    + intros s0 caps0 k0 Hs0 Hk0. apply Hm; [by etrans|done].
    + intros s'' caps'' Hs''. apply Hk. by etrans.
Qed.

Lemma iter_lazy_none (m : str -> list str -> cont -> option R) fuel s caps k :
  (forall s0 caps0 k0, s0 `suffix_of` s ->
     (forall s' caps', s' `suffix_of` s0 -> k0 s' caps' = None) -> m s0 caps0 k0 = None) ->
  (forall s' caps', s' `suffix_of` s -> k s' caps' = None) ->
  iter_lazy m fuel s caps k = None.
Proof.
  revert s caps. induction fuel as [|fuel IH]; intros s caps Hm Hk; simpl.
  - by rewrite Hk.
  - rewrite Hk by done. apply Hm; [done|]. intros s' caps' Hs'.
    destruct (length s' <? length s); [|done]. apply IH.
    + intros s0 caps0 k0 Hs0 Hk0. apply Hm; [by etrans|done].
    + intros s'' caps'' Hs''. apply Hk. by etrans.
Qed.

Lemma match_re_none r s caps k :
  (forall s' caps', s' `suffix_of` s -> k s' caps' = None) -> match_re r s caps k = None.
Proof.
  revert s caps k. induction r as [|p|r1 IH1 r2 IH2|r1 IH1|r1 IH1|r1 IH1|r1 IH1|];
    intros s caps k Hk; cbn [match_re].
  - by apply Hk.
  - destruct s as [|c s']; [done|]. destruct (p c); [|done]. apply Hk. by apply suffix_cons_r.
  - apply IH1. intros s' caps' Hs'. apply IH2. intros s'' caps'' Hs''. apply Hk. by etrans.
  - rewrite IH1 by done. by apply Hk.
  - apply iter_greedy_none; [|done]. intros s0 caps0 k0 _ Hk0. by apply IH1.
  - apply iter_lazy_none; [|done]. intros s0 caps0 k0 _ Hk0. by apply IH1.
  - apply IH1. intros s' caps' Hs'. by apply Hk.
  - destruct s as [|c s']; [by apply Hk|]. destruct (c =? 10)%N; [by apply Hk|done].
Qed.

(** A regex that needs a character of [P] fails on a text without one. *)
Lemma match_re_needs P r s caps k :
  needs P r -> Forall (fun x => P x = false) s -> match_re r s caps k = None.
Proof.
  intros Hn. revert s caps k.
  induction Hn as [p Hp|r1 r2 _ IH|r1 r2 _ IH|r1 _ IH]; intros s caps k Hs; cbn [match_re].
  - destruct s as [|c s']; [done|]. apply Forall_cons in Hs as [Hc _].
    destruct (p c) eqn:E; [|done]. apply Hp in E. congruence.
  - by apply IH.
  - apply match_re_none. intros s' caps' [pre ->]. apply IH.
    by apply Forall_app in Hs as [_ ?].
  - by apply IH.
Qed.
End MatcherFacts.

Lemma search_none r s :
  (forall s', s' `suffix_of` s -> match_here r s' = None) -> search r s = None.
Proof.
  induction s as [|c s IH]; intros H; cbn [search]; rewrite (H _ (reflexivity _)); [done|].
  apply IH. intros s' Hs'. apply H. by apply suffix_cons_r.
Qed.

Lemma search_needs P r s :
  needs P r -> Forall (fun x => P x = false) s -> search r s = None.
Proof.
  intros Hn Hs. apply search_none. intros s' [pre ->]. apply (match_re_needs P); [done|].
  by apply Forall_app in Hs as [_ ?].
Qed.

Lemma sub_aux_no_match fuel r repl s :
  (forall s', s' `suffix_of` s -> match_here r s' = None) -> sub_aux fuel r repl s = s.
Proof.
  revert s. induction fuel as [|fuel IH]; intros s H; [done|]. cbn [sub_aux].
  rewrite (H _ (reflexivity _)). destruct s as [|c s]; [done|]. f_equal. apply IH.
  intros s' Hs'. apply H. by apply suffix_cons_r.
Qed.

Lemma sub_needs P r repl s :
  needs P r -> Forall (fun x => P x = false) s -> sub r repl s = s.
Proof.
  intros Hn Hs. apply sub_aux_no_match. intros s' [pre ->]. apply (match_re_needs P); [done|].
  by apply Forall_app in Hs as [_ ?].
Qed.

(** ** Texts without braces *)

Lemma lstrip_suffix s : lstrip s `suffix_of` s.
Proof.
  induction s as [|c s IH]; simpl; [done|]. destruct (is_space c); [|done].
  by apply suffix_cons_r.
Qed.

Lemma strip_forall (Q : N -> Prop) s : Forall Q s -> Forall Q (strip s).
Proof.
  intros H. unfold strip. apply Forall_rev.
  destruct (lstrip_suffix (rev (lstrip s))) as [pre Hpre].
  assert (Forall Q (rev (lstrip s))) as H'.
  { apply Forall_rev. destruct (lstrip_suffix s) as [pre' Hs]. rewrite Hs in H.
    by apply Forall_app in H as [_ ?]. }
  rewrite Hpre in H'. by apply Forall_app in H' as [_ ?].
Qed.

Lemma find_from_absent c s i : Forall (fun x => (x =? c)%N = false) s -> find_from c s i = None.
Proof.
  revert i. induction s as [|x s IH]; intros i H; simpl; [done|].
  apply Forall_cons in H as [-> H]. by apply IH.
Qed.

Lemma rfind_from_absent c s i last :
  Forall (fun x => (x =? c)%N = false) s -> rfind_from c s i last = last.
Proof.
  revert i last. induction s as [|x s IH]; intros i last H; simpl; [done|].
  apply Forall_cons in H as [-> H]. by apply IH.
Qed.

Lemma scan_braces_no_closing s i brace_count end_ :
  Forall (fun x => (x =? 125)%N = false) s -> (scan_braces s i brace_count end_).2 = end_.
Proof.
  revert i brace_count. induction s as [|x s IH]; intros i bc H; simpl; [done|].
  apply Forall_cons in H as [Hx H]. rewrite Hx. destruct (x =? 123)%N; by apply IH.
Qed.

Lemma needs_open_fenced : needs (N.eqb 123) fenced_object.
Proof. apply needs_group, needs_seq_l, needs_cls. intros x. by rewrite N.eqb_sym. Qed.

Lemma needs_close_fenced : needs (N.eqb 125) fenced_object.
Proof.
  apply needs_group, needs_seq_r, needs_seq_r, needs_seq_l, needs_cls.
  intros x. by rewrite N.eqb_sym.
Qed.

Lemma needs_in_code_blocks P :
  needs P fenced_object -> Forall (needs P) code_block_patterns.
Proof.
  intros H. repeat apply Forall_cons_2; [| |apply Forall_nil_2].
  - by apply needs_seq_r, needs_seq_r, needs_seq_r, needs_seq_l.
  - by apply needs_seq_r, needs_seq_r, needs_seq_l.
Qed.

Lemma needs_open_flat : needs (N.eqb 123) flat_object.
Proof. apply needs_seq_l, needs_cls. intros x. by rewrite N.eqb_sym. Qed.

Lemma needs_close_flat : needs (N.eqb 125) flat_object.
Proof.
  apply needs_seq_r, needs_seq_r, needs_seq_r, needs_seq_l, needs_cls.
  intros x. by rewrite N.eqb_sym.
Qed.

Lemma strategy1_no_match loads patterns P text otherwise :
  Forall (needs P) patterns -> Forall (fun x => P x = false) text ->
  strategy1 loads patterns text otherwise = otherwise.
Proof.
  intros Hn Ht. induction Hn as [|p ps Hp _ IH]; simpl; [done|].
  by rewrite (search_needs P p text Hp Ht).
Qed.

(** Without an opening brace, or without a closing one, no strategy finds a
    candidate: the result is no result, and the decoder is not consulted. *)
Lemma safe_parse_json_braceless loads text :
  Forall (fun x => (x =? 123)%N = false) text \/ Forall (fun x => (x =? 125)%N = false) text ->
  safe_parse_json loads text = Return None.
Proof.
  intros H. unfold safe_parse_json. destruct text as [|c0 text0]; [done|].
  set (text := c0 :: text0) in *. clearbody text.
  destruct H as [H|H]; apply (strip_forall _ text) in H.
  - rewrite (strategy1_no_match loads _ (N.eqb 123));
      [|apply needs_in_code_blocks, needs_open_fenced
       |eapply Forall_impl; [exact H|intros x Hx; by rewrite N.eqb_sym]].
    unfold strategy2, strategy3, strategy4, find.
    rewrite (find_from_absent 123 _ 0 H).
    rewrite (search_needs (N.eqb 123) flat_object); [done|apply needs_open_flat|].
    eapply Forall_impl; [exact H|intros x Hx; by rewrite N.eqb_sym].
  - rewrite (strategy1_no_match loads _ (N.eqb 125));
      [|apply needs_in_code_blocks, needs_close_fenced
       |eapply Forall_impl; [exact H|intros x Hx; by rewrite N.eqb_sym]].
    unfold strategy2, strategy3, strategy4, rfind.
    rewrite (rfind_from_absent 125 _ 0 None H).
    rewrite (search_needs (N.eqb 125) flat_object);
      [|apply needs_close_flat|eapply Forall_impl; [exact H|intros x Hx; by rewrite N.eqb_sym]].
    destruct (find 123 (strip text)) as [start|] eqn:Ef; [|done].
    destruct (scan_braces _ _ _ _) as [bc e] eqn:Es.
    assert (e = start) as ->.
    { pose proof (scan_braces_no_closing (drop start (strip text)) start 0 start) as Hsc.
      rewrite Es in Hsc. apply Hsc.
      rewrite <- (take_drop start (strip text)) in H. by apply Forall_app in H as [_ ?]. }
    rewrite Nat.ltb_irrefl, andb_false_r. done.
Qed.

(** ** Where a successful match ends and what its groups hold *)

Section MatcherInversion.
Context {R : Type}.
Implicit Types (k : @cont R) (s : str) (caps : list str).

Lemma sound_continue s s' caps new k res :
  s' `suffix_of` s -> Forall (fun cap => cap ⊆ s) new ->
  (exists s'' new', k s'' ((caps ++ new) ++ new') = Some res /\ s'' `suffix_of` s'
                    /\ Forall (fun cap => cap ⊆ s') new') ->
  exists s'' new', k s'' (caps ++ new') = Some res /\ s'' `suffix_of` s
                   /\ Forall (fun cap => cap ⊆ s) new'.
Proof.
  intros Hs Hn (s'' & new' & Hk & Hs'' & Hn'). exists s'', (new ++ new').
  rewrite app_assoc. split; [done|]. split; [by etrans|].
  apply Forall_app. split; [done|]. eapply Forall_impl; [exact Hn'|].
  intros cap Hc x Hx. destruct Hs as [pre ->]. apply elem_of_app. right. by apply Hc.
Qed.

Lemma iter_greedy_sound (m : str -> list str -> @cont R -> option R) fuel :
  sound m -> sound (iter_greedy m fuel).
Proof.
  intros Hm. induction fuel as [|fuel IH]; intros s caps k res; simpl.
  - intros H. exists s, []. rewrite app_nil_r. done.
  - destruct (m s caps _) as [r|] eqn:E.
    + intros [= ->]. apply Hm in E as (s' & new & Hk & Hs' & Hn).
      destruct (length s' <? length s); [|discriminate].
      apply IH in Hk. exact (sound_continue s s' caps new k res Hs' Hn Hk).
    + intros H. exists s, []. rewrite app_nil_r. done.
Qed.

Lemma iter_lazy_sound (m : str -> list str -> @cont R -> option R) fuel :
  sound m -> sound (iter_lazy m fuel).
Proof.
  intros Hm. induction fuel as [|fuel IH]; intros s caps k res; simpl.
  - destruct (k s caps) eqn:E; [|discriminate]. intros [= ->].
    exists s, []. rewrite app_nil_r. done.
  - destruct (k s caps) eqn:E.
    + intros [= ->]. exists s, []. rewrite app_nil_r. done.
    + intros H. apply Hm in H as (s' & new & Hk & Hs' & Hn).
      destruct (length s' <? length s); [|discriminate].
      apply IH in Hk. exact (sound_continue s s' caps new k res Hs' Hn Hk).
Qed.

Lemma match_re_sound r : sound (@match_re R r).
Proof.
  induction r as [|p|r1 IH1 r2 IH2|r1 IH1|r1 IH1|r1 IH1|r1 IH1|];
    intros s caps k res; cbn [match_re].
  - intros H. exists s, []. rewrite app_nil_r. done.
  - destruct s as [|c s']; [discriminate|]. destruct (p c); [|discriminate].
    intros H. exists s', []. rewrite app_nil_r. split; [done|]. split; [|done].
    by apply suffix_cons_r.
  - intros H. apply IH1 in H as (s' & new & Hk & Hs' & Hn). apply IH2 in Hk.
    exact (sound_continue s s' caps new k res Hs' Hn Hk).
  - destruct (match_re r1 s caps k) as [x|] eqn:E.
    + intros [= ->]. by apply IH1.
    + intros H. exists s, []. rewrite app_nil_r. done.
  - by apply iter_greedy_sound.
  - by apply iter_lazy_sound.
  - intros H. apply IH1 in H as (s' & new & Hk & Hs' & Hn).
    exists s', (new ++ [take (length s - length s') s]). rewrite app_assoc.
    split; [done|]. split; [done|]. apply Forall_app. split; [done|].
    apply Forall_singleton. apply subseteq_take.
  - destruct s as [|c s']; [|destruct (c =? 10)%N; [|discriminate]];
      intros H; eexists _, []; rewrite app_nil_r; done.
Qed.
End MatcherInversion.

Lemma match_here_sound r s s' caps :
  match_here r s = Some (s', caps) -> s' `suffix_of` s /\ Forall (fun cap => cap ⊆ s) caps.
Proof.
  unfold match_here. intros H. apply match_re_sound in H as (s0 & new & [= <- <-] & Hs & Hn).
  done.
Qed.

(** [re.sub] builds its result from characters of the text and of the
    replacements. *)
Lemma sub_aux_forall (Q : N -> Prop) fuel r repl s :
  (forall caps, Forall (Forall Q) caps -> Forall Q (repl caps)) ->
  Forall Q s -> Forall Q (sub_aux fuel r repl s).
Proof.
  intros Hrepl. revert s. induction fuel as [|fuel IH]; intros s Hs; [done|]. cbn [sub_aux].
  destruct (match_here r s) as [[s' caps]|] eqn:E.
  - apply match_here_sound in E as [[pre ->] Hcaps].
    assert (Forall Q (repl caps)) as Hr.
    { apply Hrepl. eapply Forall_impl; [exact Hcaps|]. intros cap Hc.
      apply Forall_forall. intros x Hx. rewrite Forall_forall in Hs. by apply Hs, Hc. }
    destruct (length s' <? length (pre ++ s')).
    + apply Forall_app. split; [done|]. apply IH. by apply Forall_app in Hs as [_ ?].
    + destruct (pre ++ s') as [|c t] eqn:Ept; [done|]. apply Forall_app. split; [done|].
      apply Forall_cons in Hs as [Hc Ht]. apply Forall_cons. split; [done|]. by apply IH.
  - destruct s as [|c t]; [done|]. apply Forall_cons in Hs as [Hc Ht].
    apply Forall_cons. split; [done|]. by apply IH.
Qed.

Lemma iter_greedy_total {R} (m : str -> list str -> cont -> option R) fuel s caps k :
  (forall s' caps', is_Some (k s' caps')) -> is_Some (iter_greedy m fuel s caps k).
Proof.
  intros Hk. destruct fuel as [|fuel]; simpl; [done|]. destruct (m s caps _); [eauto|done].
Qed.

Lemma match_here_plus p s :
  match_here (plus (Cls p)) s =
  match s with
  | [] => None
  | c :: t =>
      if p c then iter_greedy (match_re (Cls p)) (length t) t []
                    (fun s' caps => Some (s', caps))
      else None
  end.
Proof. by destruct s. Qed.

(** The first pass removes every control character. *)
Lemma sub_control_free fuel s :
  length s < fuel ->
  Forall (fun c => is_control c = false) (sub_aux fuel re_control (fun _ => []) s).
Proof.
  revert s. induction fuel as [|fuel IH]; intros s Hf; [lia|]. cbn [sub_aux].
  unfold re_control at 1. rewrite match_here_plus.
  destruct s as [|c t]; [done|]. fold (is_control c). destruct (is_control c) eqn:Ec.
  - destruct (iter_greedy_total (match_re (Cls (fun c0 => (c0 <=? 31)%N))) (length t) t []
                (fun s' caps => Some (s', caps))) as [[s' caps] Hx]; [eauto|].
    rewrite Hx.
    pose proof Hx as Hy.
    apply (iter_greedy_sound _ _ (match_re_sound _)) in Hy as (s0 & new & [= -> _] & Hs & _).
    apply suffix_length in Hs.
    replace (length s' <? length (c :: t)) with true
      by (symmetry; apply Nat.ltb_lt; simpl; lia).
    simpl. apply IH. simpl in Hf. lia.
  - apply Forall_cons. split; [done|]. apply IH. simpl in Hf. lia.
Qed.

Lemma clean_json_text_control_free json_text :
  Forall (fun c => is_control c = false) (clean_json_text json_text).
Proof.
  unfold clean_json_text, sub.
  do 5 (apply sub_aux_forall;
          [intros caps Hcaps; cbn [app]; repeat first
             [ apply Forall_nil_2
             | apply Forall_cons; split; [reflexivity|]
             | apply Forall_app; split ];
           try (destruct caps as [|cap caps]; [apply Forall_nil_2|];
                by apply Forall_cons in Hcaps as [? _])|]).
  apply sub_control_free. lia.
Qed.

(** ** Texts the cleanup leaves alone *)

Lemma iter_greedy_class_none {R} p fuel s caps (k : @cont R) :
  (forall pre s', s = pre ++ s' -> Forall (fun x => p x = true) pre ->
     forall caps', k s' caps' = None) ->
  iter_greedy (match_re (Cls p)) fuel s caps k = None.
Proof.
  revert s. induction fuel as [|fuel IH]; intros s Hk; cbn [iter_greedy match_re].
  - by apply (Hk [] s).
  - destruct s as [|c t]; [by apply (Hk [] [])|].
    destruct (p c) eqn:Ec; [|by apply (Hk [] (c :: t))].
    replace (length t <? length (c :: t)) with true by (symmetry; apply Nat.ltb_lt; simpl; lia).
    rewrite IH; [by apply (Hk [] (c :: t))|].
    intros pre s' -> Hpre caps'. apply (Hk (c :: pre) s'); [done|]. by apply Forall_cons.
Qed.

Lemma trailing_comma_no_match s s' :
  no_trailing_comma s -> s' `suffix_of` s -> match_here re_trailing_comma s' = None.
Proof.
  intros Hs [pre0 ->]. unfold match_here, re_trailing_comma. cbn [seqs match_re chr].
  destruct s' as [|c0 t]; [done|]. destruct (44 =? c0)%N eqn:E0; [|done].
  apply N.eqb_eq in E0 as <-. apply iter_greedy_class_none.
  intros pre s'' -> Hpre caps'. cbn [match_re]. destruct s'' as [|c post]; [done|].
  destruct (Hs pre0 pre c post eq_refl Hpre) as [H1 H2].
  unfold one_of. cbn [match_re existsb].
  apply N.eqb_neq in H1, H2. by rewrite H1, H2.
Qed.

Lemma needs_trigger_control : needs cleanup_trigger re_control.
Proof.
  apply needs_seq_l, needs_cls. intros x Hx. unfold cleanup_trigger, is_control. by rewrite Hx.
Qed.

Lemma needs_trigger_chr c r : cleanup_trigger c = true -> needs cleanup_trigger (Seq (chr c) r).
Proof. intros Hc. apply needs_seq_l, needs_cls. by intros x ->%N.eqb_eq. Qed.

Lemma clean_json_text_untouched json_text :
  Forall (fun c => cleanup_trigger c = false) json_text ->
  no_trailing_comma json_text ->
  clean_json_text json_text = json_text.
Proof.
  intros Hc Hcomma. unfold clean_json_text.
  rewrite (sub_needs cleanup_trigger re_control) by (apply needs_trigger_control || done).
  unfold sub at 5. rewrite sub_aux_no_match by (intros; by eapply trailing_comma_no_match).
  rewrite (sub_needs cleanup_trigger re_quoted_key); [|by apply needs_trigger_chr|done].
  rewrite (sub_needs cleanup_trigger re_quoted_value);
    [|by apply needs_seq_r, needs_seq_r, needs_trigger_chr|done].
  rewrite (sub_needs cleanup_trigger re_line_comment);
    [|by apply needs_seq_l, needs_trigger_chr|done].
  rewrite (sub_needs cleanup_trigger re_block_comment);
    [|by apply needs_seq_l, needs_trigger_chr|done].
  done.
Qed.

(** ** The generation client, for any retry budget *)

Lemma seq_snoc i : seq 0 i ++ [i] = seq 0 (S i).
Proof. by rewrite seq_S. Qed.

Lemma openrouter_loop_spec ep max_retries m i :
  i + m = max_retries + 1 ->
  let out := openrouter_loop ep max_retries (seq i m) (seq 0 i) in
  exists n, out.2 = seq 0 n /\ i <= n <= max_retries + 1 /\
    (forall a, i <= a < n - 1 -> answers_text ep a = false) /\
    match out.1 with
    | Some c => c <> [] /\ i < n /\ ep (n - 1) = Content (Some c)
    | None => n = max_retries + 1 /\ (i < n -> answers_text ep (n - 1) = false)
    end.
Proof.
  revert i. induction m as [|m IH]; intros i Him; cbn [seq openrouter_loop].
  - exists i. cbn [fst snd]. repeat split; intros; lia.
  - rewrite seq_snoc.
    assert (Hrec : let out := openrouter_loop ep max_retries (seq (S i) m) (seq 0 (S i)) in
              answers_text ep i = false ->
              exists n, out.2 = seq 0 n /\ i <= n <= max_retries + 1 /\
                (forall a, i <= a < n - 1 -> answers_text ep a = false) /\
                match out.1 with
                | Some c => c <> [] /\ i < n /\ ep (n - 1) = Content (Some c)
                | None => n = max_retries + 1 /\ (i < n -> answers_text ep (n - 1) = false)
                end).
    { intros out Hi. destruct (IH (S i) ltac:(lia)) as (n & Hp & Hn & Hbefore & Hres).
      exists n. fold out in Hp, Hres. split; [done|]. split; [lia|]. split.
      - intros a Ha. destruct (decide (a = i)) as [->|]; [done|]. apply Hbefore. lia.
      - destruct out.1 as [c|]; [destruct Hres as (? & ? & ?); repeat split; [done|lia|done]|].
        destruct Hres as [Hn' Hlast]. split; [done|]. intros _.
        destruct (decide (S i < n)) as [Hlt|Hge]; [by apply Hlast|].
        by replace (n - 1) with i by lia. }
    assert (Hstop : answers_text ep i = false -> (i <? max_retries) = false ->
              exists n, seq 0 (S i) = seq 0 n /\ i <= n <= max_retries + 1 /\
                (forall a, i <= a < n - 1 -> answers_text ep a = false) /\
                n = max_retries + 1 /\ (i < n -> answers_text ep (n - 1) = false)).
    { intros Hi Hlt%Nat.ltb_ge. exists (S i). split; [done|]. split; [lia|]. split; [intros; lia|].
      split; [lia|]. intros _. by replace (S i - 1) with i by lia. }
    unfold answers_text in Hrec, Hstop.
    destruct (ep i) as [| | |[[|c cs]|]] eqn:Ei; cbn [fst snd];
      try (destruct (i <? max_retries) eqn:Elt; [by apply Hrec|by apply Hstop]);
      try (by apply Hrec).
    exists (S i). cbn [fst snd]. split; [done|]. split; [lia|]. split; [intros; lia|].
    split; [done|]. split; [lia|]. by replace (S i - 1) with i by lia.
Qed.

(** For every retry budget: the requests are posted in order, at most
    budget + 1 of them; the text returned is the non-empty content of the
    first attempt that has one, and the client stops there; no result is
    returned only after budget + 1 requests without a non-empty content. *)
Theorem client_returns_first_text (ep : nat -> api_response) (budget : option nat) :
  let max_retries := default 2 budget in
  let out := generate_via_openrouter ep budget in
  exists n, out.2 = seq 0 n /\ n <= max_retries + 1 /\
    (forall a, a < n - 1 -> answers_text ep a = false) /\
    match out.1 with
    | Some c => c <> [] /\ 0 < n /\ ep (n - 1) = Content (Some c)
    | None => n = max_retries + 1 /\ answers_text ep (n - 1) = false
    end.
Proof.
  intros max_retries out.
  destruct (openrouter_loop_spec ep max_retries (max_retries + 1) 0 ltac:(lia))
    as (n & Hp & Hn & Hbefore & Hres).
  change (openrouter_loop ep max_retries (seq 0 (max_retries + 1)) (seq 0 0)) with out in *.
  exists n. split; [exact Hp|]. split; [lia|]. split; [intros a Ha; apply Hbefore; lia|].
  destruct out.1 as [c|].
  - destruct Hres as (? & ? & ?). by repeat split.
  - destruct Hres as [-> Hlast]. split; [done|]. apply Hlast. lia.
Qed.

(** ** The fallback record *)

Lemma list_times_length {X} (l : list X) n : length (list_times l n) = n * length l.
Proof. induction n as [|n IH]; simpl; [done|]. rewrite length_app, IH. lia. Qed.

Lemma list_times_forall {X} (Q : X -> Prop) (l : list X) n :
  Forall Q l -> Forall Q (list_times l n).
Proof. intros H. induction n as [|n IH]; simpl; [done|]. by apply Forall_app. Qed.

Lemma list_times_pair_lookup {X} (a b : X) n i x :
  list_times [a; b] n !! i = Some x -> x = if Nat.even i then a else b.
Proof.
  revert i. induction n as [|n IH]; intros i; simpl; [done|].
  destruct i as [|[|i]]; simpl; [by intros [= <-]..|]. apply IH.
Qed.

(** The fallback record holds the requested number of exchanges: twice as
    many turns, user and assistant in alternation, each structurally valid,
    and no statutes; it carries the identifier of its slot and the requested
    language, complexity and exchange count. *)
Theorem fallback_record_shape turns c b idx l case_id :
  let r := create_fallback_dialogue turns c b idx l case_id in
  exists ts,
    dict_get (u "turns") r = Some (JList ts)
    /\ length ts = 2 * turns
    /\ Forall (fun t => is_valid_turn t = true) ts
    /\ (forall i t, ts !! i = Some t ->
          turn_role t = Some (JStr (if Nat.even i then u "user" else u "assistant")))
    /\ dict_get (u "statutes_cited") r = Some (JList [])
    /\ dict_get (u "dialogue_id") r = Some (JStr (dialogue_id_of l b case_id idx))
    /\ dict_get (u "language") r = Some (JStr (language_name l))
    /\ dict_get (u "complexity") r = Some (JStr (complexity_name c))
    /\ dict_get (u "turn_count") r = Some (JInt (Z.of_nat turns)).
Proof.
  intros r. eexists. split; [reflexivity|]. split.
  { rewrite list_times_length. simpl. lia. }
  split.
  { apply list_times_forall. repeat constructor. }
  split; [|by repeat split].
  intros i t Hi. apply list_times_pair_lookup in Hi as ->. by destruct (Nat.even i).
Qed.

(** ** What [generate_dialogue] makes of an answer *)

Lemma client_first_answer ep output :
  ep 0 = Content (Some output) -> output <> [] ->
  (generate_via_openrouter ep None).1 = Some output.
Proof.
  intros H Hne. unfold generate_via_openrouter. cbn [default from_option id seq Nat.add].
  cbn [openrouter_loop]. rewrite H. by destruct output.
Qed.

Lemma braceless_answer_fallback loads turns ep b idx c l case_id output :
  ep 0 = Content (Some output) -> output <> [] ->
  Forall (fun x => (x =? 123)%N = false) output
  \/ Forall (fun x => (x =? 125)%N = false) output ->
  generate_dialogue loads turns ep b idx c l case_id
  = Return (Some (create_fallback_dialogue turns c b idx l case_id)).
Proof.
  intros Hep Hne Hb. unfold generate_dialogue.
  rewrite (client_first_answer ep output Hep Hne).
  by rewrite (safe_parse_json_braceless loads output Hb).
Qed.

(** An answer without an opening brace, or without a closing one, becomes
    the fallback record, whatever the decoder is. *)
Theorem prose_answer_gives_fallback loads turns ep b idx c l case_id output :
  ep 0 = Content (Some output) -> output <> [] ->
  Forall (fun x => (x =? 123)%N = false) output
  \/ Forall (fun x => (x =? 125)%N = false) output ->
  generate_dialogue loads turns ep b idx c l case_id
  = Return (Some (create_fallback_dialogue turns c b idx l case_id)).
Proof. apply braceless_answer_fallback. Qed.

Lemma prose_answer_gives_fallback_witness :
  generate_dialogue JsonDecoder.json_loads 3 (always (u "I am sorry, I cannot do that."))
    B 7 layman english 405
  = Return (Some (create_fallback_dialogue 3 layman B 7 english 405)).
Proof.
  apply (prose_answer_gives_fallback JsonDecoder.json_loads 3
           (always (u "I am sorry, I cannot do that.")) B 7 layman english 405
           (u "I am sorry, I cannot do that.")).
  - reflexivity.
  - discriminate.
  - left. vm_compute. repeat constructor.
Defined.

(** Of the turns of a decoded answer the structurally valid ones are kept,
    in their order, and the others dropped; one valid turn is enough for
    the answer to be accepted. *)
Theorem invalid_turns_dropped loads turns ep b idx c l case_id output data ts :
  (generate_via_openrouter ep None).1 = Some output ->
  safe_parse_json loads output = Return (Some (JDict data)) ->
  dict_get (u "turns") data = Some (JList ts) ->
  List.filter is_valid_turn ts <> [] ->
  exists r,
    generate_dialogue loads turns ep b idx c l case_id = Return (Some r)
    /\ dict_get (u "turns") r = Some (JList (List.filter is_valid_turn ts)).
Proof.
  intros Ho Hp Hts Hvalid. unfold generate_dialogue. rewrite Ho, Hp. cbn [mbind py_bind].
  destruct data as [|kv data]; [discriminate|]. cbn [truthy].
  unfold finish_parsed.
  replace (dict_get_default (u "turns") JNull
             (stamped (without_extras (with_defaults (kv :: data))) turns b idx c l case_id))
    with (JList ts).
  2:{ unfold dict_get_default at 1. rewrite stamped_turns.
      rewrite without_extras_other by key_ne. rewrite with_defaults_turns.
      unfold dict_get_default. by rewrite Hts. }
  destruct ts as [|t ts]; [done|]. cbn [truthy negb py_len mbind py_bind length Nat.eqb py_iter].
  destruct (List.filter is_valid_turn (t :: ts)) as [|v vs] eqn:Ef; [done|].
  cbn [length Nat.eqb]. eexists. split; [reflexivity|]. by rewrite dict_get_set_eq.
Qed.

Lemma invalid_turns_dropped_witness :
  exists r,
    generate_dialogue JsonDecoder.json_loads 2
      (always (uq "{'turns': [{'role': 'user', 'text': 'a'}, {'text': 'no role'}, {'role': 'assistant', 'text': 'b'}]}"))
      A 1 layman english 401 = Return (Some r)
    /\ dict_get (u "turns") r
       = Some (JList (List.filter is_valid_turn
                        [turn_of (u "user") (u "a");
                         JDict [(u "text", JStr (u "no role"))];
                         turn_of (u "assistant") (u "b")])).
Proof.
  apply (invalid_turns_dropped JsonDecoder.json_loads 2 _ A 1 layman english 401
           (uq "{'turns': [{'role': 'user', 'text': 'a'}, {'text': 'no role'}, {'role': 'assistant', 'text': 'b'}]}")
           [(u "turns", JList [turn_of (u "user") (u "a");
                               JDict [(u "text", JStr (u "no role"))];
                               turn_of (u "assistant") (u "b")])]).
  - reflexivity.
  - vm_compute. reflexivity.
  - reflexivity.
  - vm_compute. discriminate.
Defined.

(** ** Iterations of the main loop *)

Lemma randint_range lo hi draw : lo <= hi -> lo <= randint lo hi draw <= hi.
Proof.
  intros H. unfold randint. pose proof (Nat.mod_upper_bound draw (hi - lo + 1)). lia.
Qed.

Lemma scheduled_case_in_range lang input s :
  (CASE_RANGES lang).1 <= case_index s ->
  (CASE_RANGES lang).1 <= scheduled_case_idx lang input s < (CASE_RANGES lang).2.
Proof.
  unfold scheduled_case_idx. intros H.
  destruct (CASE_RANGES lang) as [case_start case_end] eqn:E. cbn [fst snd] in *.
  assert (case_start <= case_end - 1 /\ 0 < case_end) as [Hr Hpos]
    by (destruct lang; injection E as <- <-; lia).
  destruct (case_end <=? case_index s) eqn:Ec.
  - pose proof (randint_range case_start (case_end - 1) (rand_case input) Hr). lia.
  - apply Nat.leb_gt in Ec. lia.
Qed.

Lemma try_attempts_out_of_corpus loads lang CASES attempts input case_idx b idx c n r0 :
  CASES !! case_idx = None -> result_truthy r0 = false ->
  result_truthy (try_attempts loads lang CASES attempts input case_idx b idx c n r0) = false.
Proof.
  intros Hc. revert r0. induction attempts as [|a attempts IH]; intros r0 H0; cbn [try_attempts].
  - done.
  - rewrite Hc. cbn [caught result_truthy]. by apply IH.
Qed.

(** When the scheduled case index lies outside the loaded corpus, every
    attempt ends in the index error: the iteration accepts nothing, whatever
    the endpoint would answer, and only the case pointer moves. *)
Theorem out_of_corpus_iteration loads lang CASES input s s' :
  CASES !! scheduled_case_idx lang input s = None ->
  loop_step loads lang CASES input s = Some s' ->
  s' = after_pick lang s.
Proof.
  intros Hc. rewrite loop_step_unfold.
  destruct (bool_decide (uncaught s = None) && (total_generated s <? TARGET_SAMPLES));
    [|discriminate].
  destruct (next_combo lang (distribution_counts s)) as [[[l c] b]|]; [|discriminate].
  cbv zeta. rewrite try_attempts_out_of_corpus by done. by intros [= <-].
Qed.

Lemma out_of_corpus_iteration_witness :
  run JsonDecoder.json_loads english [] [answered (u "sorry")] (startup english [])
  = after_pick english (startup english []).
Proof.
  apply (out_of_corpus_iteration JsonDecoder.json_loads english []
           (answered (u "sorry")) (startup english [])).
  - reflexivity.
  - vm_compute. reflexivity.
Defined.

Lemma loop_step_effect loads lang CASES input s s' :
  pending s = [] ->
  loop_step loads lang CASES input s = Some s' ->
  (disk s' = disk s /\ dataset s' = dataset s
   /\ distribution_counts s' = distribution_counts s
   /\ total_generated s' = total_generated s
   /\ uncaught s' = None)
  \/ (exists r,
        dataset s' = dataset s ++ [r]
        /\ total_generated s' = total_generated s + 1
        /\ lang_total lang (distribution_counts s')
           = lang_total lang (distribution_counts s) + 1
        /\ (encodable (JDict r) = true
             /\ disk s' = disk s ++ [Doc (JDict r)] /\ uncaught s' = None
            \/ encodable (JDict r) = false
               /\ disk s' = disk s /\ uncaught s' = Some UnicodeEncodeError)).
Proof.
  intros Hp Hstep.
  destruct (loop_step_outcome _ _ _ _ _ _ Hp Hstep) as (Hu & c & b & Hn & Hs).
  destruct (after_pick_same lang s) as (Hc0 & Ht0 & Hp0 & Hd0 & _).
  destruct (after_pick_rest lang s) as (Hds0 & _ & Hu0).
  destruct Hs as [->|(r & turns & ep & _ & Hs)];
    [left; rewrite Hd0, Hds0, Hc0, Ht0, Hu0; done|right].
  cbv zeta in Hs. destruct Hs as (Hc' & Ht' & _ & Hds' & _ & _ & Hw).
  eexists. split; [exact Hds'|]. split; [exact Ht'|]. split.
  - rewrite Hc'.
    pose proof (lang_total_insert lang c b
                  (count_of (distribution_counts s) (lang, c, b) + 1)
                  (distribution_counts s)).
    lia.
  - destruct Hw as [(He & Hx & Hd)|(He & Hx & Hd)]; [left|right]; done.
Qed.

(** The counters and the file move together unless the write fails.  An
    iteration either accepts nothing, and then leaves the counts, the total,
    the data set and the file as they were, or it accepts one record: it
    appends the record to the data set and adds one to the total and to one
    count, and then appends the record to the file.  When the text of the
    record cannot be encoded (a string of it holds a surrogate code point)
    the write raises instead: nothing reaches the file, the counters stay
    incremented and the program ends with that exception. *)
Theorem counters_move_with_the_file loads lang CASES input s s' :
  pending s = [] ->
  loop_step loads lang CASES input s = Some s' ->
  (disk s' = disk s /\ dataset s' = dataset s
   /\ distribution_counts s' = distribution_counts s
   /\ total_generated s' = total_generated s
   /\ uncaught s' = None)
  \/ (exists r,
        dataset s' = dataset s ++ [r]
        /\ total_generated s' = total_generated s + 1
        /\ lang_total lang (distribution_counts s')
           = lang_total lang (distribution_counts s) + 1
        /\ (encodable (JDict r) = true
             /\ disk s' = disk s ++ [Doc (JDict r)] /\ uncaught s' = None
            \/ encodable (JDict r) = false
               /\ disk s' = disk s /\ uncaught s' = Some UnicodeEncodeError)).
Proof. apply loop_step_effect. Qed.

Lemma counters_move_with_the_file_witness :
  let s := startup code_mixed [] in
  let answer := uq "{'turns': [{'role': 'user', 'text': '\ud83d'}]}" in
  let s' := run JsonDecoder.json_loads code_mixed (repeat (u "case") 801) [answered answer] s in
  (disk s' = disk s /\ dataset s' = dataset s
   /\ distribution_counts s' = distribution_counts s
   /\ total_generated s' = total_generated s
   /\ uncaught s' = None)
  \/ (exists r,
        dataset s' = dataset s ++ [r]
        /\ total_generated s' = total_generated s + 1
        /\ lang_total code_mixed (distribution_counts s')
           = lang_total code_mixed (distribution_counts s) + 1
        /\ (encodable (JDict r) = true
             /\ disk s' = disk s ++ [Doc (JDict r)] /\ uncaught s' = None
            \/ encodable (JDict r) = false
               /\ disk s' = disk s /\ uncaught s' = Some UnicodeEncodeError)).
Proof.
  intros s answer s'.
  apply (counters_move_with_the_file JsonDecoder.json_loads code_mixed
           (repeat (u "case") 801) (answered answer) s s').
  - reflexivity.
  - vm_compute. reflexivity.
Defined.

(** The case pointer never falls below the start of the range of the
    language, the case an iteration works on lies inside the range, and so
    the case number written into a record is one of the numbers reserved
    for the language. *)
Theorem case_number_in_range loads lang CASES input s s' :
  pending s = [] ->
  (CASE_RANGES lang).1 <= case_index s ->
  loop_step loads lang CASES input s = Some s' ->
  (CASE_RANGES lang).1 <= case_index s'
  /\ (disk s' = disk s
      \/ exists r n,
           disk s' = disk s ++ [Doc (JDict r)]
           /\ dict_get (u "case_id") r = Some (JInt (Z.of_nat n))
           /\ (CASE_RANGES lang).1 < n <= (CASE_RANGES lang).2).
Proof.
  intros Hp Hlo Hstep.
  destruct (loop_step_outcome _ _ _ _ _ _ Hp Hstep) as (_ & c & b & Hn & Hs).
  destruct (after_pick_same lang s) as (Hc0 & Ht0 & Hp0 & Hd0 & Hi0).
  pose proof (scheduled_case_in_range lang input s Hlo) as Hr.
  destruct Hs as [->|(r & turns & ep & _ & Hs)]; [split; [lia|by left]|].
  cbv zeta in Hs. destruct Hs as (_ & _ & -> & _ & _ & _ & Hw).
  split; [lia|]. destruct Hw as [(_ & _ & Hd)|(_ & _ & Hd)]; [right|by left].
  eexists _, (scheduled_case_idx lang input s + 1).
  split; [exact Hd|]. split; [apply finalize_fields|lia].
Qed.

Lemma case_number_in_range_witness :
  let s := startup code_mixed [] in
  let s' := run JsonDecoder.json_loads code_mixed (repeat (u "case") 801)
              [answered (u "sorry")] s in
  (CASE_RANGES code_mixed).1 <= case_index s'
  /\ (disk s' = disk s
      \/ exists r n,
           disk s' = disk s ++ [Doc (JDict r)]
           /\ dict_get (u "case_id") r = Some (JInt (Z.of_nat n))
           /\ (CASE_RANGES code_mixed).1 < n <= (CASE_RANGES code_mixed).2).
Proof.
  intros s s'.
  apply (case_number_in_range JsonDecoder.json_loads code_mixed
           (repeat (u "case") 801) (answered (u "sorry")) s s').
  - reflexivity.
  - vm_compute. lia.
  - vm_compute. reflexivity.
Defined.

(** ** Records that can be written *)

Lemma u_encodable (t : string) : str_encodable (u t) = true.
Proof.
  unfold str_encodable, u. apply forallb_forall. intros c Hc.
  apply in_map_iff in Hc as (a & <- & _). unfold is_surrogate.
  pose proof (N_ascii_bounded a). apply negb_true_iff, andb_false_intro1, N.leb_gt. lia.
Qed.

Lemma str_encodable_app a b :
  str_encodable (a ++ b) = str_encodable a && str_encodable b.
Proof. apply forallb_app. Qed.

Lemma dialogue_id_encodable l b case_id idx :
  str_encodable (dialogue_id_of l b case_id idx) = true.
Proof.
  unfold dialogue_id_of, fmt_d. rewrite !str_encodable_app, !u_encodable.
  destruct l, b; reflexivity.
Qed.

Lemma encodable_dict_set k v d :
  str_encodable k = true -> encodable v = true -> encodable (JDict d) = true ->
  encodable (JDict (dict_set k v d)) = true.
Proof.
  intros Hk Hv. induction d as [|[k' v'] d IH]; cbn [dict_set encodable forallb].
  - by rewrite Hk, Hv.
  - intros [[Hk' Hv']%andb_true_iff Hd]%andb_true_iff.
    destruct (str_eqb k' k); cbn [encodable forallb].
    + by rewrite Hk, Hv, Hd.
    + rewrite Hk', Hv'. cbn [andb]. by apply IH.
Qed.

Lemma finalize_encodable lang c b n r :
  encodable (JDict r) = true -> encodable (JDict (finalize lang c b n r)) = true.
Proof.
  intros Hr. unfold finalize.
  repeat (apply encodable_dict_set; [apply u_encodable| |]); try exact Hr;
    first [reflexivity | destruct lang; reflexivity | destruct c; reflexivity
          | destruct b; reflexivity].
Qed.

Lemma list_times_encodable l n :
  forallb encodable l = true -> forallb encodable (list_times l n) = true.
Proof.
  intros H. induction n as [|n IH]; cbn [list_times]; [done|].
  by rewrite forallb_app, H, IH.
Qed.

Lemma fallback_encodable turns c b idx l case_id :
  encodable (JDict (create_fallback_dialogue turns c b idx l case_id)) = true.
Proof.
  unfold create_fallback_dialogue. cbn [encodable forallb].
  rewrite !u_encodable, dialogue_id_encodable. cbn [andb].
  rewrite list_times_encodable by (destruct l; reflexivity).
  destruct l, c; reflexivity.
Qed.

(** ** Runs of the main loop *)

Lemma loop_step_none loads lang CASES input s :
  uncaught s = None ->
  loop_step loads lang CASES input s = None <-> finished lang s = true.
Proof.
  intros Hu. rewrite loop_step_unfold. unfold finished.
  rewrite (bool_decide_eq_true_2 _ Hu). cbn [andb].
  destruct (total_generated s <? TARGET_SAMPLES); [|by split].
  cbn [negb orb]. rewrite bool_decide_eq_true.
  destruct (next_combo lang (distribution_counts s)) as [[[l c] b]|]; [|by split].
  cbv zeta. split; [|discriminate].
  destruct (result_truthy _); [destruct (try_attempts _ _ _ _ _ _ _ _ _ _ _)|]; discriminate.
Qed.

Lemma loop_step_pending loads lang CASES input s s' :
  pending s = [] -> loop_step loads lang CASES input s = Some s' -> pending s' = [].
Proof.
  intros Hp Hstep.
  destruct (loop_step_outcome _ _ _ _ _ _ Hp Hstep) as (_ & c & b & _ & Hs).
  destruct (after_pick_same lang s) as (_ & _ & Hp0 & _).
  destruct Hs as [->|(r & turns & ep & _ & Hs)]; [congruence|].
  cbv zeta in Hs. by destruct Hs as (_ & _ & _ & _ & _ & ? & _).
Qed.

Lemma loop_step_joined loads lang CASES input s s' :
  pending s = [] -> loop_step loads lang CASES input s = Some s' -> joined s' = joined s.
Proof.
  intros Hp Hstep.
  destruct (loop_step_outcome _ _ _ _ _ _ Hp Hstep) as (_ & c & b & _ & Hs).
  destruct (after_pick_rest lang s) as (_ & Hj0 & _).
  destruct Hs as [->|(r & turns & ep & _ & Hs)]; [congruence|].
  cbv zeta in Hs. by destruct Hs as (_ & _ & _ & _ & ? & _).
Qed.

Lemma run_ended loads lang CASES inputs s e :
  uncaught s = Some e -> run loads lang CASES inputs s = s.
Proof.
  intros Hu. destruct inputs as [|input inputs]; cbn [run]; [done|].
  rewrite loop_step_unfold. destruct (bool_decide_reflect (uncaught s = None)) as [H|_];
    [congruence|done].
Qed.

Lemma run_appends loads lang CASES inputs s :
  pending s = [] -> uncaught s = None ->
  let s' := run loads lang CASES inputs s in
  disk s `prefix_of` disk s'
  /\ pending s' = []
  /\ joined s' = joined s
  /\ length (disk s') + total_generated s
       + match uncaught s' with Some _ => 1 | None => 0 end
     = length (disk s) + total_generated s'.
Proof.
  revert s. induction inputs as [|input inputs IH]; intros s Hp Hu; cbn [run].
  - rewrite Hu. split; [done|]. split; [done|]. split; [done|lia].
  - destruct (loop_step loads lang CASES input s) as [s1|] eqn:E;
      [|rewrite Hu; split; [done|split; [done|split; [done|lia]]]].
    pose proof (loop_step_pending _ _ _ _ _ _ Hp E) as Hp1.
    pose proof (loop_step_joined _ _ _ _ _ _ Hp E) as Hj1.
    destruct (loop_step_effect _ _ _ _ _ _ Hp E)
      as [(Hd & _ & _ & Ht & Hu1)
         |(r & _ & Ht & _ & [(_ & Hd & Hu1)|(_ & Hd & Hu1)])].
    + destruct (IH s1 Hp1 Hu1) as (Hpre & Hpend & Hj & Hlen).
      rewrite Hd, Ht, Hj1 in *. done.
    + destruct (IH s1 Hp1 Hu1) as (Hpre & Hpend & Hj & Hlen).
      split; [|split; [done|split; [congruence|]]].
      * etrans; [|exact Hpre]. rewrite Hd. by apply prefix_app_r.
      * rewrite Hd, length_app in Hlen. simpl in Hlen. lia.
    + rewrite (run_ended loads lang CASES inputs s1 _ Hu1), Hu1, Hd.
      split; [done|]. split; [done|]. split; [done|lia].
Qed.

(** The lines of a file that had no line break at its end, once something
    has been appended to it. *)
Lemma file_lines_joined s k last appended rest :
  joined s = Some k -> disk s = take (S k) (disk s) ++ appended :: rest ->
  length (take (S k) (disk s)) = S k -> disk s !! k = Some last ->
  file_lines s = take k (disk s) ++ glued last appended :: rest.
Proof.
  intros Hj Hd Hlen Hlast. unfold file_lines. rewrite Hj, Hlast.
  assert (Hnext : disk s !! S k = Some appended).
  { rewrite Hd, lookup_app_r by lia. rewrite Hlen, Nat.sub_diag. done. }
  rewrite Hnext. do 2 f_equal.
  rewrite Hd at 1. rewrite drop_app_ge by lia. rewrite Hlen.
  replace (S (S k) - S k) with 1 by lia. done.
Qed.

Lemma run_glues loads lang CASES inputs s k last :
  pending s = [] -> uncaught s = None ->
  joined s = Some k -> length (disk s) = S k -> disk s !! k = Some last ->
  let s' := run loads lang CASES inputs s in
  length (disk s) < length (disk s') ->
  exists appended rest,
    disk s' = disk s ++ appended :: rest
    /\ file_lines s' = take k (disk s) ++ glued last appended :: rest.
Proof.
  intros Hp Hu Hj Hlen Hlast. cbv zeta.
  destruct (run_appends loads lang CASES inputs s Hp Hu) as ([ext Hext] & _ & Hj' & _).
  revert Hext Hj'. generalize (run loads lang CASES inputs s). intros s' Hext Hj' Hlt.
  rewrite Hext, length_app in Hlt. destruct ext as [|appended rest]; [simpl in Hlt; lia|].
  exists appended, rest. split; [exact Hext|].
  assert (Htake : take (S k) (disk s') = disk s).
  { rewrite Hext, take_app_le by lia. apply take_ge. lia. }
  rewrite (file_lines_joined s' k last appended rest).
  - f_equal. rewrite Hext, take_app_le by lia. done.
  - congruence.
  - by rewrite Htake.
  - by rewrite Htake.
  - rewrite Hext. apply lookup_app_l_Some. exact Hlast.
Qed.

(** The loop only ever appends to the file: what was there stays as a
    prefix, nothing is left in the buffer, and the file grows by as many
    records as the running total grows, except that a write that raises
    leaves the total one ahead of the file.  The loop writes no line break
    before its first record: on a file that ended without one, the first
    record appended stands on the old last line, which then decodes only if
    that line was blank. *)
Theorem file_is_append_only loads lang CASES inputs s :
  pending s = [] -> uncaught s = None ->
  let s' := run loads lang CASES inputs s in
  disk s `prefix_of` disk s'
  /\ pending s' = []
  /\ length (disk s') + total_generated s
       + match uncaught s' with Some _ => 1 | None => 0 end
     = length (disk s) + total_generated s'
  /\ (joined s = None -> file_lines s' = disk s')
  /\ (forall k last,
        joined s = Some k -> length (disk s) = S k -> disk s !! k = Some last ->
        length (disk s) < length (disk s') ->
        exists appended rest,
          disk s' = disk s ++ appended :: rest
          /\ file_lines s' = take k (disk s) ++ glued last appended :: rest).
Proof.
  intros Hp Hu. cbv zeta.
  destruct (run_appends loads lang CASES inputs s Hp Hu) as (Hpre & Hpend & Hj & Hlen).
  split; [exact Hpre|]. split; [exact Hpend|]. split; [exact Hlen|]. split.
  - intros Hn. unfold file_lines. by rewrite Hj, Hn.
  - intros k last Hk Hl Hlast. by apply (run_glues loads lang CASES inputs s k last).
Qed.

Lemma file_is_append_only_witness :
  let s := startup_from english [bare_record layman A; Garbage] true in
  let s' := run JsonDecoder.json_loads english (repeat (u "case") 401)
              [answered (u "sorry"); answered (u "sorry")] s in
  disk s `prefix_of` disk s'
  /\ pending s' = []
  /\ length (disk s') + total_generated s
       + match uncaught s' with Some _ => 1 | None => 0 end
     = length (disk s) + total_generated s'
  /\ (joined s = None -> file_lines s' = disk s')
  /\ (forall k last,
        joined s = Some k -> length (disk s) = S k -> disk s !! k = Some last ->
        length (disk s) < length (disk s') ->
        exists appended rest,
          disk s' = disk s ++ appended :: rest
          /\ file_lines s' = take k (disk s) ++ glued last appended :: rest).
Proof.
  intros s s'.
  apply (file_is_append_only JsonDecoder.json_loads english (repeat (u "case") 401)
           [answered (u "sorry"); answered (u "sorry")] s).
  - reflexivity.
  - reflexivity.
Defined.

(** A cooperative iteration on a case of the corpus accepts a record. *)
Lemma cooperative_step loads lang CASES input s s' :
  (CASE_RANGES lang).2 <= length CASES ->
  (CASE_RANGES lang).1 <= case_index s ->
  cooperative input ->
  loop_step loads lang CASES input s = Some s' ->
  total_generated s' = total_generated s + 1
  /\ (CASE_RANGES lang).1 <= case_index s'
  /\ uncaught s' = None.
Proof.
  intros Hcorpus Hlo (text & Hep & Hne & Hb) Hstep.
  pose proof (loop_step_alive _ _ _ _ _ _ Hstep) as Hu. revert Hstep.
  rewrite loop_step_unfold. rewrite (bool_decide_eq_true_2 _ Hu). cbn [andb].
  destruct (total_generated s <? TARGET_SAMPLES); [|discriminate].
  destruct (next_combo lang (distribution_counts s)) as [[[l c] b]|]; [|discriminate].
  cbv zeta. cbn [seq try_attempts].
  pose proof (scheduled_case_in_range lang input s Hlo) as Hr.
  destruct (CASES !! scheduled_case_idx lang input s) as [case|] eqn:Ec.
  2:{ apply lookup_ge_None in Ec. lia. }
  rewrite (braceless_answer_fallback loads _ (endpoint input 0) b _ c lang _ text Hep Hne
             (or_introl Hb)).
  cbn [caught result_truthy truthy create_fallback_dialogue].
  intros H. apply (inj Some) in H. subst s'.
  destruct (after_pick_same lang s) as (_ & Ht0 & _ & _ & Hi0).
  pose proof (after_pick_alive lang s Hu) as Hu0.
  rewrite success_ops_unfold by exact Hu0. cbv zeta.
  rewrite finalize_encodable by apply fallback_encodable.
  cbn [op_flush op_buffer op_inc_total op_inc_count op_append total_generated case_index
         uncaught].
  split; [lia|]. split; [lia|exact Hu0].
Qed.

(** With a corpus that covers the case range of the language and an
    endpoint that answers the first request of every iteration with prose,
    the loop is left once as many iterations have run as records were
    missing at the start. *)
Lemma cooperative_run_finishes loads lang CASES inputs s :
  (CASE_RANGES lang).2 <= length CASES ->
  (CASE_RANGES lang).1 <= case_index s ->
  uncaught s = None ->
  Forall cooperative inputs ->
  TARGET_SAMPLES - total_generated s <= length inputs ->
  finished lang (run loads lang CASES inputs s) = true
  /\ uncaught (run loads lang CASES inputs s) = None.
Proof.
  intros Hcorpus. revert s.
  induction inputs as [|input inputs IH]; intros s Hlo Hu Hall Hlen; cbn [run].
  - split; [|exact Hu]. unfold finished. simpl in Hlen.
    replace (total_generated s <? TARGET_SAMPLES) with false; [done|].
    symmetry. apply Nat.ltb_ge. lia.
  - apply Forall_cons in Hall as [Hin Hall].
    destruct (loop_step loads lang CASES input s) as [s1|] eqn:E;
      [|split; [by apply (loop_step_none loads lang CASES input)|exact Hu]].
    destruct (cooperative_step _ _ _ _ _ _ Hcorpus Hlo Hin E) as (Ht & Hlo1 & Hu1).
    destruct (IH s1 Hlo1 Hu1 Hall) as [Hf Hu']; [simpl in Hlen; lia|]. done.
Qed.

(** End to end: a fresh run on a corpus that covers the case range, with an
    endpoint that answers every first request with prose, ends after at most
    [TARGET_SAMPLES] iterations with every target met and as many lines on
    disk as the targets of the language add up to. *)
Theorem cooperative_run_fills_the_quota loads lang CASES inputs :
  (CASE_RANGES lang).2 <= length CASES ->
  Forall cooperative inputs ->
  TARGET_SAMPLES <= length inputs ->
  let s' := run loads lang CASES inputs (startup lang []) in
  finished lang s' = true
  /\ all_targets_met lang (distribution_counts s')
  /\ length (disk s') = list_sum (List.map snd (DISTRIBUTION_FILTERED lang)).
Proof.
  intros Hcorpus Hall Hlen. cbv zeta.
  assert (Hlo : (CASE_RANGES lang).1 <= case_index (startup lang [])).
  { rewrite startup_fresh. cbn [case_index]. lia. }
  assert (Hp0 : pending (startup lang []) = []) by (by rewrite startup_fresh).
  assert (Hd0 : length (disk (startup lang [])) = 0) by (by rewrite startup_fresh).
  assert (Hz : total_generated (startup lang []) = 0).
  { rewrite startup_fresh. cbn [total_generated]. apply lang_total_initial. }
  destruct (fresh_within_targets lang) as [Hw0 Ht0].
  assert (Hu0 : uncaught (startup lang []) = None) by (by rewrite startup_fresh).
  destruct (cooperative_run_finishes loads lang CASES inputs (startup lang [])
              Hcorpus Hlo Hu0 Hall ltac:(lia)) as [Hf Hu].
  destruct (run_invariant loads lang CASES inputs _ Hw0 Ht0) as [Hw Ht].
  destruct (run_appends loads lang CASES inputs (startup lang []) Hp0 Hu0)
    as (_ & _ & _ & Hd).
  revert Hf Hu Hw Ht Hd. generalize (run loads lang CASES inputs (startup lang [])).
  intros s' Hf Hu Hw Ht Hd. rewrite Hu in Hd.
  destruct (finished_targets_met lang s' Hw Ht Hf) as [Hall' Hsum].
  split; [exact Hf|]. split; [exact Hall'|]. rewrite <- Hsum, <- Ht. lia.
Qed.

Lemma cooperative_run_fills_the_quota_witness :
  let s' := run JsonDecoder.json_loads english (replicate 800 (u "case"))
              (replicate 400 (answered (u "Sorry, no."))) (startup english []) in
  finished english s' = true
  /\ all_targets_met english (distribution_counts s')
  /\ length (disk s') = list_sum (List.map snd (DISTRIBUTION_FILTERED english)).
Proof.
  apply (cooperative_run_fills_the_quota JsonDecoder.json_loads english
           (replicate 800 (u "case")) (replicate 400 (answered (u "Sorry, no.")))).
  - rewrite length_replicate. simpl. lia.
  - apply Forall_replicate. exists (u "Sorry, no.").
    split; [reflexivity|]. split; [discriminate|]. vm_compute. repeat constructor.
  - rewrite length_replicate. unfold TARGET_SAMPLES, SAMPLES_PER_LANGUAGE. lia.
Defined.

(** ** Restarting on the file *)

(** Between two iterations the program is alive and its file ends with a
    line break: the lines of the file are the entries of [disk]. *)
Lemma reachable_alive loads lang s :
  reachable loads lang s ->
  uncaught s = None /\ joined s = None /\ file_lines s = disk s.
Proof.
  intros Hr.
  assert (H : uncaught s = None /\ joined s = None).
  { induction Hr as [|CASES input s s' Hr IH Hstep Hu'|s Hr IH].
    - by rewrite startup_fresh.
    - split; [exact Hu'|].
      destruct (reachable_consistent loads lang s Hr) as (Hp & _ & _).
      rewrite (loop_step_joined _ _ _ _ _ _ Hp Hstep). apply IH.
    - destruct (reachable_consistent loads lang s Hr) as (_ & _ & Hwn).
      destruct (disk s) as [|ln file] eqn:Ed; [by rewrite startup_fresh|].
      destruct (replay_written lang _ Hwn) as (p' & Hp' & _).
      by rewrite (startup_resumed lang ln file p' Hp'). }
  destruct H as [Hu Hj]. split; [exact Hu|]. split; [exact Hj|].
  unfold file_lines. by rewrite Hj.
Qed.

Lemma persisted_count_app c b file1 file2 :
  persisted_count c b (file1 ++ file2) = persisted_count c b file1 + persisted_count c b file2.
Proof. unfold persisted_count. by rewrite List.filter_app, List.length_app. Qed.

Lemma persisted_count_single c b ln :
  persisted_count c b [ln] = if matches_cell c b ln then 1 else 0.
Proof. unfold persisted_count. cbn [List.filter]. by destruct (matches_cell c b ln). Qed.

Lemma matches_cell_finalized lang c b n r c' b' :
  matches_cell c' b' (Doc (JDict (finalize lang c b n r)))
  = bool_decide (c = c' /\ b = b').
Proof.
  destruct (finalize_fields lang c b n r) as (_ & Hc & Hb & _).
  cbn [matches_cell]. rewrite Hc, Hb.
  destruct c, c', b, b'; vm_compute; reflexivity.
Qed.

(** Between two iterations each count is the number of records of its cell
    on disk. *)
Lemma reachable_counts loads lang s :
  reachable loads lang s ->
  forall c b, count_of (distribution_counts s) (lang, c, b) = persisted_count c b (disk s).
Proof.
  intros Hr. pose proof (reachable_consistent loads lang s Hr) as Hcons.
  induction Hr as [|CASES input s s' Hr IH Hstep Hu'|s Hr IH].
  - intros c b. rewrite startup_fresh. cbn [distribution_counts disk].
    unfold count_of. by rewrite initial_counts_keys.
  - pose proof (reachable_consistent loads lang s Hr) as (Hp & _ & _).
    specialize (IH (reachable_consistent loads lang s Hr)).
    destruct (loop_step_outcome _ _ _ _ _ _ Hp Hstep) as (_ & c0 & b0 & Hn & Hs).
    destruct (after_pick_same lang s) as (Hc0 & _ & Hp0 & Hd0 & _).
    destruct Hs as [->|(r & turns & ep & _ & Hs)]; [intros c b; by rewrite Hc0, Hd0|].
    cbv zeta in Hs.
    destruct Hs as (-> & _ & _ & _ & _ & _ & [(_ & _ & ->)|(_ & Hx & _)]); [|congruence].
    intros c b. rewrite persisted_count_app, count_of_insert, !IH.
    rewrite persisted_count_single, matches_cell_finalized.
    destruct (decide (c0 = c /\ b0 = b)) as [[-> ->]|Hne].
    + rewrite decide_True by done. rewrite bool_decide_eq_true_2 by done. lia.
    + rewrite decide_False by (intros [= -> ->]; by apply Hne).
      rewrite bool_decide_eq_false_2 by done. lia.
  - specialize (IH (reachable_consistent loads lang s Hr)).
    pose proof (reachable_consistent loads lang s Hr) as (_ & _ & Hwn).
    intros c b. destruct (disk s) as [|ln file] eqn:Ed.
    + rewrite startup_fresh. cbn [distribution_counts disk].
      unfold count_of. by rewrite initial_counts_keys.
    + destruct (replay_written lang _ Hwn) as (p' & Hp' & _).
      rewrite (startup_resumed lang ln file p' Hp'). cbn [distribution_counts disk].
      destruct (replay_lines_counts lang _ _ _ (initial_keys lang) Hp') as [Hc _].
      rewrite Hc. cbn [p_counts]. unfold count_of. by rewrite initial_counts_keys.
Qed.

(** A restart of the process between two iterations loses nothing: the
    replay of the file the program wrote restores every count and the
    running total, and keeps the file. *)
Theorem restart_restores_progress loads lang s :
  reachable loads lang s ->
  let s2 := startup lang (disk s) in
  (forall c b, count_of (distribution_counts s2) (lang, c, b)
               = count_of (distribution_counts s) (lang, c, b))
  /\ total_generated s2 = total_generated s
  /\ disk s2 = disk s
  /\ pending s2 = [].
Proof.
  intros Hr s2.
  pose proof (reachable_counts loads lang s Hr) as Hs.
  pose proof (reachable_counts loads lang s2 (reach_resume loads lang s Hr)) as Hs2.
  pose proof (reachable_consistent loads lang s Hr) as (_ & Ht & Hwn).
  pose proof (reachable_consistent loads lang s2 (reach_resume loads lang s Hr))
    as (Hp2 & Ht2 & _).
  assert (Hd : disk s2 = disk s).
  { subst s2. destruct (disk s) as [|ln file] eqn:Ed; [by rewrite startup_fresh|].
    destruct (replay_written lang _ Hwn) as (p' & Hp' & _).
    by rewrite (startup_resumed lang ln file p' Hp'). }
  split; [|split; [|split; [exact Hd|exact Hp2]]].
  - intros c b. by rewrite Hs2, Hd, Hs.
  - by rewrite Ht2, Hd, Ht.
Qed.

Lemma restart_restores_progress_witness :
  let s := run JsonDecoder.json_loads hindi [u "one"; u "two"]
             [answered (u "sorry"); answered (u "sorry")] (startup hindi []) in
  let s2 := startup hindi (disk s) in
  (forall c b, count_of (distribution_counts s2) (hindi, c, b)
               = count_of (distribution_counts s) (hindi, c, b))
  /\ total_generated s2 = total_generated s
  /\ disk s2 = disk s
  /\ pending s2 = [].
Proof.
  intros s. apply (restart_restores_progress JsonDecoder.json_loads hindi s).
  apply (reach_step _ _ [u "one"; u "two"] (answered (u "sorry"))
           (run JsonDecoder.json_loads hindi [u "one"; u "two"] [answered (u "sorry")]
              (startup hindi [])) s); [|vm_compute; reflexivity|vm_compute; reflexivity].
  apply (reach_step _ _ [u "one"; u "two"] (answered (u "sorry")) (startup hindi []));
    [apply reach_fresh|vm_compute; reflexivity|vm_compute; reflexivity].
Defined.

Lemma replay_lines_app lang file1 file2 p :
  replay_lines lang (file1 ++ file2) p =
  match replay_lines lang file1 p with
  | (p1, None) => replay_lines lang file2 p1
  | (p1, Some e) => (p1, Some e)
  end.
Proof.
  revert p. induction file1 as [|ln file1 IH]; intros p; cbn [app replay_lines]; [done|].
  destruct (replay_line lang ln p); [apply IH|done].
Qed.

(** A line that decodes to something other than a mapping makes the replay
    give up: the run starts on an emptied file and at the start of the case
    range, but it keeps the counts of the lines read before that line. *)
Theorem abandoned_replay_keeps_counts lang pre j post :
  replay_completes lang pre -> not_a_mapping j ->
  let s := startup lang (pre ++ Doc j :: post) in
  disk s = []
  /\ case_index s = (CASE_RANGES lang).1
  /\ (forall c b, count_of (distribution_counts s) (lang, c, b) = persisted_count c b pre)
  /\ total_generated s = lang_total lang (distribution_counts s).
Proof.
  unfold replay_completes. intros Hpre Hj.
  destruct (replay_lines lang pre _) as [p1 e] eqn:E1. cbn [snd] in Hpre. subst e.
  assert (Hfile : replay_lines lang (pre ++ Doc j :: post)
                    {| p_counts := initial_counts lang; p_existing_total := 0;
                       p_max_case_id_seen := 0 |} = (p1, Some AttributeError)).
  { rewrite replay_lines_app, E1. cbn [replay_lines replay_line]. by destruct j. }
  destruct (replay_lines_counts lang _ _ _ (initial_keys lang) E1) as [Hc _].
  cbv zeta. unfold startup, startup_from.
  destruct (pre ++ Doc j :: post) as [|ln file] eqn:Ef; [by destruct pre|].
  rewrite Hfile. cbn [disk case_index distribution_counts total_generated].
  split; [reflexivity|]. split; [reflexivity|]. split; [|reflexivity].
  intros c b. rewrite Hc. cbn [p_counts]. unfold count_of. by rewrite initial_counts_keys.
Qed.

Lemma abandoned_replay_keeps_counts_witness :
  let s := startup hindi ([bare_record layman A; bare_record layman A]
                          ++ Doc (JList []) :: [bare_record layman B]) in
  disk s = []
  /\ case_index s = (CASE_RANGES hindi).1
  /\ (forall c b, count_of (distribution_counts s) (hindi, c, b)
                  = persisted_count c b [bare_record layman A; bare_record layman A])
  /\ total_generated s = lang_total hindi (distribution_counts s).
Proof.
  apply (abandoned_replay_keeps_counts hindi [bare_record layman A; bare_record layman A]
           (JList []) [bare_record layman B]).
  - vm_compute. reflexivity.
  - exact I.
Defined.

(** ** The parser on texts with and without an object *)

(** A reply without an opening brace, or without a closing one, has no
    result: no strategy finds a candidate and the decoder is never
    consulted. *)
Theorem braceless_text_has_no_result (loads : str -> py json) (text : str) :
  Forall (fun x => (x =? 123)%N = false) text \/ Forall (fun x => (x =? 125)%N = false) text ->
  safe_parse_json loads text = Return None.
Proof. apply safe_parse_json_braceless. Qed.

Lemma braceless_text_has_no_result_witness :
  safe_parse_json (fun _ => Return (JDict [])) (u "} I am sorry, I cannot help.")
  = Return None.
Proof.
  apply (braceless_text_has_no_result (fun _ => Return (JDict []))
           (u "} I am sorry, I cannot help.")).
  left. vm_compute. repeat constructor.
Defined.

(** Whatever text goes in, the cleaned text holds no control character
    (code points 0 to 31): tabs and line breaks are removed as well. *)
Theorem cleanup_removes_control_characters (json_text : str) :
  Forall (fun c => is_control c = false) (clean_json_text json_text).
Proof. apply clean_json_text_control_free. Qed.

(** The cleanup changes nothing in a text without control characters,
    apostrophes and slashes in which no comma stands, white space apart,
    before a closing brace or bracket. *)
Theorem cleanup_leaves_clean_text (json_text : str) :
  Forall (fun c => cleanup_trigger c = false) json_text ->
  no_trailing_comma json_text ->
  clean_json_text json_text = json_text.
Proof. apply clean_json_text_untouched. Qed.

Lemma cleanup_leaves_clean_text_witness :
  clean_json_text (uq "{'a': [1]}") = uq "{'a': [1]}".
Proof.
  apply (cleanup_leaves_clean_text (uq "{'a': [1]}")).
  - vm_compute. repeat constructor.
  - intros pre ws c post H _.
    assert (Hin : (44%N : N) ∈ uq "{'a': [1]}")
      by (rewrite H; apply elem_of_app; right; apply elem_of_cons; by left).
    vm_compute in Hin. exfalso.
    repeat (apply elem_of_cons in Hin as [Hin|Hin]; [discriminate Hin|]).
    by apply elem_of_nil in Hin.
Defined.

Lemma find_from_first c pre post i :
  Forall (fun x => (x =? c)%N = false) pre ->
  find_from c (pre ++ c :: post) i = Some (i + length pre).
Proof.
  revert i. induction pre as [|x pre IH]; intros i H; simpl.
  - rewrite N.eqb_refl. f_equal. lia.
  - apply Forall_cons in H as [-> H]. rewrite IH by done. f_equal. lia.
Qed.

Lemma scan_braces_nested a :
  nested a ->
  forall rest i brace_count end_, (0 < brace_count)%Z ->
  scan_braces (a ++ rest) i brace_count end_
  = scan_braces rest (i + length a) brace_count end_.
Proof.
  induction 1 as [|c s H1 H2 _ IH|a b _ IHa _ IHb]; intros rest i bc e Hbc.
  - simpl. by rewrite Nat.add_0_r.
  - cbn [app scan_braces length].
    apply N.eqb_neq in H1, H2. rewrite H1, H2, IH by done. f_equal. lia.
  - cbn [app scan_braces length]. rewrite N.eqb_refl, <- app_assoc, IHa by lia.
    cbn [app scan_braces]. change (125 =? 123)%N with false. rewrite N.eqb_refl.
    cbv zeta. destruct (Z.eqb_spec (bc + 1 - 1) 0) as [?|_]; [lia|].
    rewrite IHb by lia. rewrite length_app. cbn [length].
    f_equal; lia.
Qed.

Lemma needs_backquote_code_blocks : Forall (needs (N.eqb 96)) code_block_patterns.
Proof.
  repeat apply Forall_cons_2; [| |apply Forall_nil_2];
    apply needs_seq_l, needs_seq_l, needs_cls; intros x Hx; exact Hx.
Qed.

Lemma strip_nil_inv text : strip text <> [] -> text <> [].
Proof. intros H ->. by apply H. Qed.

Lemma safe_parse_json_first_object loads text pre a post v :
  Forall (fun x => (x =? 96)%N = false) text ->
  strip text = pre ++ 123%N :: a ++ 125%N :: post ->
  Forall (fun x => (x =? 123)%N = false) pre ->
  nested a ->
  loads (clean_json_text (123%N :: a ++ [125%N])) = Return v ->
  safe_parse_json loads text = Return (Some v).
Proof.
  intros Hq Hs Hpre Ha Hv. unfold safe_parse_json.
  destruct text as [|c0 text0]; [by destruct pre|].
  set (text := c0 :: text0) in *. clearbody text.
  apply (strip_forall _ text) in Hq.
  rewrite (strategy1_no_match loads _ (N.eqb 96) _ _ needs_backquote_code_blocks)
    by (eapply Forall_impl; [exact Hq|intros x Hx; by rewrite N.eqb_sym]).
  unfold strategy2, find. rewrite Hs, (find_from_first 123 pre _ 0 Hpre).
  cbn [Nat.add]. rewrite drop_app_length.
  cbn [scan_braces]. rewrite N.eqb_refl.
  rewrite (scan_braces_nested a Ha (125%N :: post)) by lia.
  cbn [scan_braces]. change (125 =? 123)%N with false. rewrite N.eqb_refl.
  cbv zeta. change (0 + 1 - 1 =? 0)%Z with true. cbv iota.
  replace (length pre <? S (length pre) + length a) with true
    by (symmetry; apply Nat.ltb_lt; lia).
  cbn [andb]. unfold slice. rewrite drop_app_length.
  replace (S (length pre) + length a + 1 - length pre) with (length (123%N :: a ++ [125%N]))
    by (cbn [length]; rewrite length_app; cbn [length]; lia).
  replace (123%N :: a ++ 125%N :: post) with ((123%N :: a ++ [125%N]) ++ post)
    by (cbn [app]; by rewrite <- app_assoc).
  rewrite take_app_length. unfold clean_and_load. by rewrite Hv.
Qed.

(** An object in prose: when the stripped reply holds no back quote and its
    first opening brace starts a brace-balanced object, the parser returns
    what the decoder makes of that object after cleanup; the text before
    and after it is ignored. *)
Theorem object_in_prose_is_parsed loads text pre a post v :
  Forall (fun x => (x =? 96)%N = false) text ->
  strip text = pre ++ 123%N :: a ++ 125%N :: post ->
  Forall (fun x => (x =? 123)%N = false) pre ->
  nested a ->
  loads (clean_json_text (123%N :: a ++ [125%N])) = Return v ->
  safe_parse_json loads text = Return (Some v).
Proof. apply safe_parse_json_first_object. Qed.

Lemma object_in_prose_is_parsed_witness :
  safe_parse_json JsonDecoder.json_loads (uq " Sure: {'a': {}} Done. ")
  = Return (Some (JDict [(u "a", JDict [])])).
Proof.
  apply (object_in_prose_is_parsed JsonDecoder.json_loads (uq " Sure: {'a': {}} Done. ")
           (u "Sure: ") (uq "'a': {}") (u " Done.")).
  - vm_compute. repeat constructor.
  - vm_compute. reflexivity.
  - vm_compute. repeat constructor.
  - change (uq "'a': {}") with (uq "'a': " ++ 123%N :: [] ++ 125%N :: []).
    vm_compute. repeat (apply nested_char; [discriminate|discriminate|]).
    apply (nested_braces [] []); apply nested_nil.
  - vm_compute. reflexivity.
Defined.

(** ** Dialogue identifiers *)

Lemma id_head_inj l b l' b' (x y : str) :
  lang_prefix l ++ u "_" ++ bucket_name b ++ u "_C" ++ x
  = lang_prefix l' ++ u "_" ++ bucket_name b' ++ u "_C" ++ y ->
  l = l' /\ b = b' /\ x = y.
Proof.
  destruct l, l', b, b'; intros H; vm_compute in H;
    first [discriminate H | injection H as ->; done].
Qed.

(** The identifier determines its four parts: two records carry the same
    dialogue_id only if language, bucket, case number and index agree. *)
Theorem dialogue_id_determines_fields l b case_id idx l' b' case_id' idx' :
  dialogue_id_of l b case_id idx = dialogue_id_of l' b' case_id' idx' ->
  l = l' /\ b = b' /\ case_id = case_id' /\ idx = idx'.
Proof.
  unfold dialogue_id_of. intros (-> & -> & H)%id_head_inj.
  change (u "_") with [95%N] in H. cbn [app] in H. pose proof H as H1.
  apply prefix_before_sep in H1; [|apply fmt_d_no_sep..].
  apply suffix_after_sep in H; [|apply fmt_d_no_sep..].
  apply fmt_d_inj in H1, H. done.
Qed.

Lemma dialogue_id_determines_fields_witness :
  hindi = hindi /\ A = A /\ 12 = 12 /\ 7 = 7.
Proof.
  apply (dialogue_id_determines_fields hindi A 12 7 hindi A 12 7). reflexivity.
Defined.

(** ** The case file *)

Lemma split_go_marker cur s :
  split_go (u "[case ") 0 cur (u "[case " ++ s) = rev cur :: split_go (u "[case ") 0 [] s.
Proof. reflexivity. Qed.

Lemma split_go_plain cur t s :
  Forall (fun c => c <> 91%N) t ->
  split_go (u "[case ") 0 cur (t ++ s) = split_go (u "[case ") 0 (rev t ++ cur) s.
Proof.
  revert cur. induction t as [|c t IH]; intros cur H; [done|].
  apply Forall_cons in H as [Hc H]. cbn [app split_go].
  replace (starts_with (u "[case ") (c :: t ++ s)) with false.
  - rewrite IH by done. cbn [rev]. by rewrite <- app_assoc.
  - symmetry. change (u "[case ") with (91%N :: u "case "). cbn [starts_with].
    apply andb_false_intro1. apply N.eqb_neq. congruence.
Qed.

Lemma split_blocks cur t blocks :
  Forall (fun c => c <> 91%N) t ->
  Forall (fun hb : str * str => Forall (fun c => c <> 91%N) (hb.1 ++ 10%N :: hb.2)) blocks ->
  split_go (u "[case ") 0 cur (t ++ mjoin (case_block <$> blocks))
  = (rev cur ++ t) :: ((fun hb : str * str => hb.1 ++ 10%N :: hb.2) <$> blocks).
Proof.
  intros Ht Hb. revert cur t Ht. induction Hb as [|hb blocks Hhb _ IH]; intros cur t Ht.
  - cbn [fmap list_fmap mjoin list_join]. rewrite split_go_plain by done.
    cbn [split_go]. by rewrite rev_app_distr, rev_involutive.
  - cbn [fmap list_fmap mjoin list_join]. rewrite split_go_plain by done.
    unfold case_block at 1. rewrite <- !app_assoc, split_go_marker.
    rewrite rev_app_distr, rev_involutive. f_equal.
    rewrite app_assoc. exact (IH [] (hb.1 ++ 10%N :: hb.2) Hhb).
Qed.

Lemma split_once_first c h rest :
  Forall (fun x => x <> c) h -> split_once c (h ++ c :: rest) = (h, Some rest).
Proof.
  induction h as [|x h IH]; intros H; cbn [app split_once].
  - by rewrite N.eqb_refl.
  - apply Forall_cons in H as [Hx H]. apply N.eqb_neq in Hx. by rewrite Hx, IH.
Qed.

Lemma lstrip_nil s : lstrip s = [] -> Forall (fun c => is_space c = true) s.
Proof.
  induction s as [|c s IH]; cbn [lstrip]; [done|].
  destruct (is_space c) eqn:E; [|done]. intros H. apply Forall_cons. auto.
Qed.

Lemma lstrip_spaces s : Forall (fun c => is_space c = true) s -> lstrip s = [].
Proof. induction 1 as [|c s Hc _ IH]; cbn [lstrip]; [done|]. by rewrite Hc. Qed.

Lemma strip_nil s : strip s = [] -> Forall (fun c => is_space c = true) s.
Proof.
  unfold strip. intros H. apply (f_equal (@rev N)) in H. rewrite rev_involutive in H.
  cbn [rev] in H. apply lstrip_nil in H. apply Forall_rev in H. rewrite rev_involutive in H.
  destruct (lstrip s) as [|c t] eqn:E; [by apply lstrip_nil|].
  apply Forall_cons in H as [Hc _]. clear -E Hc. exfalso.
  induction s as [|x s IH]; cbn [lstrip] in E; [done|].
  destruct (is_space x) eqn:Ex; [by apply IH|]. injection E as -> _. congruence.
Qed.

Lemma strip_spaces s : Forall (fun c => is_space c = true) s -> strip s = [].
Proof. intros H. unfold strip. by rewrite (lstrip_spaces s H). Qed.

Lemma load_case_block h body :
  Forall (fun c => c <> 10%N) h ->
  load_case (h ++ 10%N :: body)
  = if 100 <? length (strip body) then [strip body] else [].
Proof.
  intros Hh. unfold load_case. rewrite split_once_first by done.
  destruct (strip (h ++ 10%N :: body)) as [|c t] eqn:E; [|done].
  apply strip_nil, Forall_app in E as [_ E]. apply Forall_cons in E as [_ E].
  by rewrite (strip_spaces body E).
Qed.

Lemma load_cases_blocks pre blocks :
  Forall (fun c => c <> 91%N) pre ->
  Forall (fun hb : str * str =>
            Forall (fun c => c <> 91%N /\ c <> 10%N) hb.1
            /\ Forall (fun c => c <> 91%N) hb.2) blocks ->
  load_cases (pre ++ mjoin (case_block <$> blocks))
  = List.filter (fun case_content => 100 <? length case_content)
      ((fun hb : str * str => strip hb.2) <$> blocks).
Proof.
  intros Hpre Hb. unfold load_cases, split. rewrite split_blocks; [|done|].
  - cbn [drop]. rewrite drop_0. induction Hb as [|hb blocks [H1 H2] _ IH]; [done|].
    rewrite !fmap_cons, bind_cons, IH. cbn [List.filter].
    rewrite load_case_block by (eapply Forall_impl; [exact H1|by intros ? []]).
    by destruct (100 <? length (strip hb.2)).
  - eapply Forall_impl; [exact Hb|]. intros hb [H1 H2].
    apply Forall_app. split; [eapply Forall_impl; [exact H1|by intros ? []]|].
    apply Forall_cons. split; [done|exact H2].
Qed.

(** The loader on a well-formed case file: when no opening bracket occurs
    outside the markers and no header line is broken, [CASES] holds, in
    file order, the stripped bodies that are longer than 100 characters;
    the text before the first marker and the header lines are dropped. *)
Theorem loader_keeps_long_bodies pre blocks :
  Forall (fun c => c <> 91%N) pre ->
  Forall (fun hb : str * str =>
            Forall (fun c => c <> 91%N /\ c <> 10%N) hb.1
            /\ Forall (fun c => c <> 91%N) hb.2) blocks ->
  load_cases (pre ++ mjoin (case_block <$> blocks))
  = List.filter (fun case_content => 100 <? length case_content)
      ((fun hb : str * str => strip hb.2) <$> blocks).
Proof. apply load_cases_blocks. Qed.

Lemma loader_keeps_long_bodies_witness :
  let long := List.repeat 120%N 101 in
  load_cases (u "POCSO cases" ++ mjoin (case_block <$>
                [(u "1]", u " short "); (u "2]", 32%N :: long ++ [10%N])]))
  = [long].
Proof.
  apply (loader_keeps_long_bodies (u "POCSO cases")
           [(u "1]", u " short "); (u "2]", 32%N :: List.repeat 120%N 101 ++ [10%N])]).
  - vm_compute. repeat constructor; discriminate.
  - vm_compute. repeat constructor; discriminate.
Defined.

Lemma lstrip_first s c : first_char (lstrip s) = Some c -> is_space c = false.
Proof.
  unfold first_char. induction s as [|x s IH]; cbn [lstrip]; [done|].
  destruct (is_space x) eqn:E; [done|]. cbn. by intros [= <-].
Qed.

Lemma last_char_rev s : last_char (rev s) = first_char s.
Proof. destruct s as [|x s]; [done|]. cbn [rev]. apply last_snoc. Qed.

Lemma strip_last s c : last_char (strip s) = Some c -> is_space c = false.
Proof.
  unfold strip. rewrite last_char_rev. apply lstrip_first.
Qed.

Lemma strip_first s c : first_char (strip s) = Some c -> is_space c = false.
Proof.
  unfold strip. intros H. apply (lstrip_first s).
  destruct (lstrip_suffix (rev (lstrip s))) as [k Hk].
  apply (f_equal (@rev N)) in Hk. rewrite rev_involutive, rev_app_distr in Hk.
  rewrite Hk. unfold first_char in *.
  destruct (rev (lstrip (rev (lstrip s)))); [done|exact H].
Qed.

Lemma load_case_kept case_text c :
  c ∈ load_case case_text -> 100 < length c /\ exists rest, c = strip rest.
Proof.
  unfold load_case. destruct (strip case_text); [by intros ?%elem_of_nil|].
  destruct (split_once 10 case_text) as [h [rest|]]; [|by intros ?%elem_of_nil].
  cbv zeta. destruct (100 <? length (strip rest)) eqn:E; [|by intros ?%elem_of_nil].
  intros ->%list_elem_of_singleton. apply Nat.ltb_lt in E. eauto.
Qed.

(** Whatever the case file holds, every loaded case has more than 100
    characters and neither begins nor ends with white space. *)
Theorem loaded_cases_are_long_and_stripped content :
  Forall (fun case_content =>
            100 < length case_content
            /\ (exists x, first_char case_content = Some x /\ is_space x = false)
            /\ (exists y, last_char case_content = Some y /\ is_space y = false))
         (load_cases content).
Proof.
  apply Forall_forall. intros c Hc. unfold load_cases in Hc.
  apply list_elem_of_bind in Hc as (case_text & Hc & _).
  apply load_case_kept in Hc as (Hlen & rest & ->). split; [done|]. split.
  - destruct (first_char (strip rest)) as [x|] eqn:E.
    + exists x. split; [done|]. by apply (strip_first rest).
    + unfold first_char in E. destruct (strip rest); [simpl in Hlen; lia|done].
  - destruct (last_char (strip rest)) as [y|] eqn:E.
    + exists y. split; [done|]. by apply (strip_last rest).
    + unfold last_char in E. apply last_None in E. rewrite E in Hlen. simpl in Hlen. lia.
Qed.

